(** * Plan descriptions of the vtgate engine

    A shallow embedding of [go/vt/vtgate/engine/plan_description.go]:
    the statistics helpers [average] and [median], the hand-written JSON
    serializer [MarshalJSON] with [addMap] and [marshalAdd], the graph
    exporter [addToGraph] with [GraphViz], the builder
    [PrimitiveToPlanDescription] and the ordered map [orderedMap]. *)

From Stdlib Require Import ZArith Lia List Sorting.Sorted Sorting.Permutation.
From Stdlib Require Import Floats.SpecFloat.
From stdpp Require Import base option list strings pretty gmap.

Local Open Scope Z_scope.

(** ** Go's [int] and [float64] *)

(** Go's [int] is a 64-bit two's complement integer on the platforms vtgate
    runs on; it is kept as a [Z] and arithmetic wraps around explicitly. *)
Definition int_wrap (z : Z) : Z := (z + 2 ^ 63) mod 2 ^ 64 - 2 ^ 63.

Definition int_add (a b : Z) : Z := int_wrap (a + b).

(** [float64] is IEEE 754 binary64, with the precision and exponent range
    of the standard's specification floats. *)
Definition float64 : Type := spec_float.

Definition f64_prec : Z := 53.
Definition f64_emax : Z := 1024.

(** The conversion [float64(n)] rounds to the nearest representable value,
    ties to even. *)
Definition float64_of_int (n : Z) : float64 :=
  binary_normalize f64_prec f64_emax n 0 false.

Definition f64_div (x y : float64) : float64 := SFdiv f64_prec f64_emax x y.

(** The constant [2.0]. *)
Definition f64_two : float64 := float64_of_int 2.

(** The value of a float, as the standard has it: [f] is exactly the
    rational [num / den], for a positive [den]. *)
Definition f64_exact (f : float64) (num den : Z) : Prop :=
  match f with
  | S754_zero _ => num = 0
  | S754_finite s m e =>
      let v := if s then Z.neg m else Z.pos m in
      if 0 <=? e then v * 2 ^ e * den = num
      else v * den = num * 2 ^ (- e)
  | _ => False
  end.

(** ** Outcomes of a call

    A Go call either returns, returns a non-nil [error], or panics. *)
Inductive result (A : Type) : Type :=
| Ok (a : A)
| Err (e : string)
| Panic (msg : string).
Arguments Ok {A} a.
Arguments Err {A} e.
Arguments Panic {A} msg.

Definition rbind {A B : Type} (m : result A) (k : A -> result B) : result B :=
  match m with
  | Ok a => k a
  | Err e => Err e
  | Panic msg => Panic msg
  end.

#[global] Instance result_ret : MRet result := fun A a => Ok a.
#[global] Instance result_bind : MBind result := fun A B k m => rbind m k.

Definition index_out_of_range : string := "index out of range".

(** ** Stats aggregator *)

(** [sort.Ints]: ascending sort, here by insertion. *)
Fixpoint insert_int (x : Z) (l : list Z) : list Z :=
  match l with
  | [] => [x]
  | y :: l' => if x <=? y then x :: l else y :: insert_int x l'
  end.

Fixpoint sort_Ints (l : list Z) : list Z :=
  match l with
  | [] => []
  | x :: l' => insert_int x (sort_Ints l')
  end.

(** [s[i]] on a slice of ints, with Go's bounds check. *)
Definition index_int (s : list Z) (i : Z) : result Z :=
  if (0 <=? i) && (i <? Z.of_nat (length s))
  then match s !! Z.to_nat i with
       | Some x => Ok x
       | None => Panic index_out_of_range
       end
  else Panic index_out_of_range.

(** [total := 0; for _, num := range nums { total += num }] *)
Definition sum_ints (nums : list Z) : Z := fold_left int_add nums 0.

Definition average (nums : list Z) : float64 :=
  let total := sum_ints nums in
  f64_div (float64_of_int total) (float64_of_int (Z.of_nat (length nums))).

Definition median (nums : list Z) : result float64 :=
  let sortedNums := sort_Ints nums in
  let n := Z.of_nat (length sortedNums) in
  if n mod 2 =? 0 then
    mid1 ← index_int sortedNums (n / 2 - 1);
    mid2 ← index_int sortedNums (n / 2);
    Ok (f64_div (float64_of_int (int_add mid1 mid2)) f64_two)
  else
    x ← index_int sortedNums (n / 2);
    Ok (float64_of_int x).


(** *** [median] on the heap

    A slice argument shares its backing array with the caller's slice.  To
    observe what [median] writes, slices of ints live in a store and a slice
    is the address of its backing array. *)
Module Heap.

Abbreviation loc := positive.
Abbreviation heap := (gmap positive (list Z)).

(** The contents behind a slice; a dangling or [nil] slice is empty. *)
Definition contents (h : heap) (s : loc) : list Z := default [] (h !! s).

(** [make([]int, n)]: a fresh array of [n] zeroes. *)
Definition make (n : nat) (h : heap) : loc * heap :=
  let l := fresh (dom h) in (l, <[l := replicate n 0]> h).

(** [copy(dst, src)]: overwrites the first [min(len(dst), len(src))]
    elements of [dst]. *)
Definition copy (dst src : loc) (h : heap) : heap :=
  let d := contents h dst in
  let s := contents h src in
  let n := Nat.min (length d) (length s) in
  <[dst := take n s ++ drop n d]> h.

(** [sort.Ints(s)] sorts in place. *)
Definition sort_Ints_in_place (s : loc) (h : heap) : heap :=
  <[s := sort_Ints (contents h s)]> h.

Definition median (nums : loc) (h : heap) : result float64 * heap :=
  let '(sortedNums, h) := make (length (contents h nums)) h in
  let h := copy sortedNums nums h in
  let h := sort_Ints_in_place sortedNums h in
  let n := Z.of_nat (length (contents h sortedNums)) in
  let r :=
    if n mod 2 =? 0 then
      mid1 ← index_int (contents h sortedNums) (n / 2 - 1);
      mid2 ← index_int (contents h sortedNums) (n / 2);
      Ok (f64_div (float64_of_int (int_add mid1 mid2)) f64_two)
    else
      x ← index_int (contents h sortedNums) (n / 2);
      Ok (float64_of_int x) in
  (r, h).

End Heap.

(** ** Data model *)

(** A Go slice is either [nil] or a (possibly empty) sequence. *)
Definition slice (A : Type) : Type := option (list A).

Definition elems {A : Type} (s : slice A) : list A := default [] s.

Definition len {A : Type} (s : slice A) : nat := length (elems s).

Definition append {A : Type} (s : slice A) (x : A) : slice A :=
  Some (elems s ++ [x]).

(** The dynamic values an [any] holds.  The comparisons of [addMap] and the
    type switch of [addToGraph] tell apart the [nil] interface, [string],
    [int], [bool] and [[]string]; every other dynamic type is carried
    along.  A [[]string] is a slice, [nil] or not; [VTypedNil] is the [nil]
    of another pointer, map, slice, channel or function type: an interface
    holding one is not the [nil] interface. *)
Inductive value : Type :=
| VNil
| VString (s : string)
| VInt (n : Z)
| VBool (b : bool)
| VStrings (l : slice string)
| VInt64 (n : Z)
| VFloat64 (f : float64)
| VOther (ty : string) (payload : string)
| VTypedNil (ty : string).

(** Go leaves the iteration order of [range] over a map unspecified: any
    enumeration of the entries, each exactly once, can come out. *)
Class MapRange : Type := {
  range : forall {V : Type}, gmap string V -> list (string * V);
  range_perm : forall (V : Type) (m : gmap string V),
    range m ≡ₚ map_to_list m
}.

(** [sort.Strings]: ascending in the byte-wise order [<] of Go strings,
    here by insertion. *)
Fixpoint insert_string (x : string) (l : list string) : list string :=
  match l with
  | [] => [x]
  | y :: l' => if String.leb x y then x :: l else y :: insert_string x l'
  end.

Fixpoint sort_Strings (l : list string) : list string :=
  match l with
  | [] => []
  | x :: l' => insert_string x (sort_Strings l')
  end.

(** The order [<=] and [<] of Go strings. *)
Definition string_le (s1 s2 : string) : Prop := String.leb s1 s2 = true.
Definition string_lt (s1 s2 : string) : Prop := String.ltb s1 s2 = true.

(** [fmt]'s [%v] verb on a dynamic value; a string prints as itself. *)
Class Fmt : Type := {
  Sprint : value -> string;
  Sprint_string : forall s : string, Sprint (VString s) = s
}.

(** The types the file imports from other packages, with the methods it
    calls on them. *)
Class External : Type := {
  vindexes_Keyspace : Type;
  key_Destination : Type;
  Destination_String : key_Destination -> string;
  topodatapb_TabletType : Type;
  TabletType_UNKNOWN : topodatapb_TabletType;
  TabletType_eq_dec :: EqDecision topodatapb_TabletType;
  TabletType_String : topodatapb_TabletType -> string
}.

Section Engine.
Context `{ext : External}.

Local Unset Elimination Schemes.

Inductive PrimitiveDescription : Type := mkPrimitiveDescription {
  OperatorType : string;
  Variant : string;
  Keyspace : option vindexes_Keyspace;
  TargetDestination : option key_Destination;
  TargetTabletType : topodatapb_TabletType;
  Other : gmap string value;
  InputName : string;
  Inputs : slice PrimitiveDescription;
  Stats : list Z
}.

Local Set Elimination Schemes.

(** ** Custom serializer *)

Definition newline : string := String (Ascii.ascii_of_nat 10) "".
Definition dquote : string := String (Ascii.ascii_of_nat 34) "".

(** What [json.Encoder.Encode], with HTML escaping off, appends to the
    buffer for a value of each type the serializer hands it (the encoding
    and the newline that ends it), or the error it returns; and the
    compaction [encoding/json] applies to what a [Marshaler] returns. *)
Class JSON : Type := {
  Encode_string : string -> result string;
  Encode_Keyspace : vindexes_Keyspace -> result string;
  Encode_int : Z -> result string;
  Encode_float64 : float64 -> result string;
  Encode_any : value -> result string;
  compact : string -> result string
}.

Context `{js : JSON} `{mr : MapRange}.

Class Encodable (A : Type) : Type := Encode : A -> result string.

#[global] Instance Encodable_string : Encodable string := Encode_string.
#[global] Instance Encodable_Keyspace : Encodable vindexes_Keyspace :=
  Encode_Keyspace.
#[global] Instance Encodable_int : Encodable Z := Encode_int.
#[global] Instance Encodable_float64 : Encodable float64 := Encode_float64.
#[global] Instance Encodable_any : Encodable value := Encode_any.

(** A slice of values with a [MarshalJSON] method is encoded as a JSON
    array of the compacted outputs of that method. *)
Definition Encode_Marshalers {A : Type} (MarshalJSON : A -> result string)
  : Encodable (list A) :=
  fun l =>
    bs ← (fix each (l : list A) : result (list string) :=
            match l with
            | [] => Ok []
            | x :: l' =>
                b ← MarshalJSON x;
                c ← compact b;
                cs ← each l';
                Ok (c :: cs)
            end) l;
    Ok ("[" +:+ String.concat "," bs +:+ "]" +:+ newline).

Definition marshalAdd {A : Type} `{Encodable A}
    (prepend : string) (buf : string) (name : string) (obj : A)
  : result string :=
  let buf := buf +:+ (prepend +:+ dquote +:+ name +:+ dquote +:+ ":") in
  bytes ← Encode obj;
  Ok (buf +:+ bytes).

(** [s[n:]] on a string, with Go's bounds check. *)
Fixpoint string_drop (n : nat) (s : string) : string :=
  match n, s with
  | O, _ => s
  | S n', String _ s' => string_drop n' s'
  | S _, EmptyString => EmptyString
  end.

Definition slice_from (s : string) (n : nat) : result string :=
  if (n <=? String.length s)%nat then Ok (string_drop n s)
  else Panic "slice bounds out of range".

(** The comparisons [v == ""], [v == nil], [v == 0] and [v == false] of an
    [any] with a constant: equal when the dynamic type is that of the
    constant (for the untyped [0], [int]) and the values agree. *)
Definition skipped (v : value) : bool :=
  match v with
  | VString "" => true
  | VNil => true
  | VInt 0 => true
  | VBool false => true
  | _ => false
  end.

(** [input[k]]: the zero value [nil] for a missing key. *)
Definition map_index (input : gmap string value) (k : string) : value :=
  default VNil (input !! k).

Definition addMap_keys (input : gmap string value) : list string :=
  fold_left
    (fun mk '(k, v) => if skipped v then mk else mk ++ [k])
    (range input) [].

Fixpoint addMap_emit (input : gmap string value) (mk : list string)
    (buf : string) : result string :=
  match mk with
  | [] => Ok buf
  | k :: mk' =>
      let v := map_index input k in
      buf ← marshalAdd "," buf k v;
      addMap_emit input mk' buf
  end.

Definition addMap (input : gmap string value) (buf : string)
  : result string :=
  let mk := addMap_keys input in
  let mk := sort_Strings mk in
  addMap_emit input mk buf.

Fixpoint MarshalJSON (pd : PrimitiveDescription) : result string :=
  let buf := "{" in
  let prepend := "" in
  '(buf, prepend) ←
    (if decide (InputName pd <> "") then
       buf ← marshalAdd prepend buf "InputName" (InputName pd);
       Ok (buf, ",")
     else Ok (buf, prepend));
  buf ← marshalAdd prepend buf "OperatorType" (OperatorType pd);
  let prepend := "," in
  buf ←
    (if decide (Variant pd <> "") then
       marshalAdd prepend buf "Variant" (Variant pd)
     else Ok buf);
  buf ←
    match Keyspace pd with
    | Some ks => marshalAdd prepend buf "Keyspace" ks
    | None => Ok buf
    end;
  buf ←
    match TargetDestination pd with
    | Some d =>
        let s := Destination_String d in
        dest ← slice_from s 11;
        marshalAdd prepend buf "TargetDestination" dest
    | None => Ok buf
    end;
  buf ←
    (if decide (TargetTabletType pd <> TabletType_UNKNOWN) then
       marshalAdd prepend buf "TargetTabletType"
         (TabletType_String (TargetTabletType pd))
     else Ok buf);
  buf ←
    (if (0 <? length (Stats pd))%nat then
       buf ← marshalAdd prepend buf "NoOfCalls"
               (Z.of_nat (length (Stats pd)));
       buf ← marshalAdd prepend buf "AvgNumberOfRows" (average (Stats pd));
       m ← median (Stats pd);
       marshalAdd prepend buf "MedianNumberOfRows" m
     else Ok buf);
  buf ← addMap (Other pd) buf;
  buf ←
    match Inputs pd with
    | Some ((_ :: _) as inputs) =>
        marshalAdd (H := Encode_Marshalers MarshalJSON)
          prepend buf "Inputs" inputs
    | _ => Ok buf
    end;
  Ok (buf +:+ "}").

(** The part of the object after [OperatorType], as the code writes it. *)
Definition MarshalJSON_rest (pd : PrimitiveDescription) (buf : string)
  : result string :=
  let prepend := "," in
  buf ←
    (if decide (Variant pd <> "") then
       marshalAdd prepend buf "Variant" (Variant pd)
     else Ok buf);
  buf ←
    match Keyspace pd with
    | Some ks => marshalAdd prepend buf "Keyspace" ks
    | None => Ok buf
    end;
  buf ←
    match TargetDestination pd with
    | Some d =>
        let s := Destination_String d in
        dest ← slice_from s 11;
        marshalAdd prepend buf "TargetDestination" dest
    | None => Ok buf
    end;
  buf ←
    (if decide (TargetTabletType pd <> TabletType_UNKNOWN) then
       marshalAdd prepend buf "TargetTabletType"
         (TabletType_String (TargetTabletType pd))
     else Ok buf);
  buf ←
    (if (0 <? length (Stats pd))%nat then
       buf ← marshalAdd prepend buf "NoOfCalls"
               (Z.of_nat (length (Stats pd)));
       buf ← marshalAdd prepend buf "AvgNumberOfRows" (average (Stats pd));
       m ← median (Stats pd);
       marshalAdd prepend buf "MedianNumberOfRows" m
     else Ok buf);
  buf ← addMap (Other pd) buf;
  buf ←
    match Inputs pd with
    | Some ((_ :: _) as inputs) =>
        marshalAdd (H := Encode_Marshalers MarshalJSON)
          prepend buf "Inputs" inputs
    | _ => Ok buf
    end;
  Ok (buf +:+ "}").

(** *** The serializer's output as a sequence of fields

    The field contract of the serializer, item by item: a field is a key
    and the object handed to the encoder under it. *)
Inductive obj : Type :=
| OString (s : string)
| OKeyspace (ks : vindexes_Keyspace)
| ODestination (d : key_Destination)
| OInt (n : Z)
| OFloat64 (f : float64)
| OAny (v : value)
| OInputs (l : list PrimitiveDescription).

(** The target destination is written as its textual form from position
    11 on. *)
#[global] Instance Encodable_obj : Encodable obj := fun o =>
  match o with
  | OString s => Encode s
  | OKeyspace ks => Encode ks
  | ODestination d => dest ← slice_from (Destination_String d) 11; Encode dest
  | OInt n => Encode n
  | OFloat64 f => Encode f
  | OAny v => Encode v
  | OInputs l => Encode (Encodable := Encode_Marshalers MarshalJSON) l
  end.

Definition field : Type := string * obj.

Fixpoint emit_all (prepend : string) (fs : list field) (buf : string)
  : result string :=
  match fs with
  | [] => Ok buf
  | (name, o) :: fs' =>
      buf ← marshalAdd prepend buf name o;
      emit_all prepend fs' buf
  end.

(** An object whose first field is written bare and every later one after
    a comma: the buffer before the closing brace, and the whole. *)
Definition open_fields (fs : list field) : result string :=
  match fs with
  | [] => Ok "{"
  | (name, o) :: fs' =>
      buf ← marshalAdd "" "{" name o;
      emit_all "," fs' buf
  end.

Definition serialize (fs : list field) : result string :=
  buf ← open_fields fs;
  Ok (buf +:+ "}").

(** What [marshalAdd] writes for a field, after the separator: the quoted
    key, a colon and the bytes of the encoder. *)
Definition written (name bytes : string) : string :=
  dquote +:+ name +:+ dquote +:+ ":" +:+ bytes.

(** A JSON object as the serializer writes it: between braces, the
    entries, each a key and the bytes of its value, with a comma between
    two of them. *)
Definition object (entries : list (string * string)) : string :=
  "{" +:+ String.concat "," (map (fun e => written e.1 e.2) entries) +:+ "}".

(** The field [f] when [P] holds, and nothing otherwise. *)
Definition when (P : Prop) `{Decision P} (f : field) : list field :=
  if decide P then [f] else [].

Definition field_InputName (pd : PrimitiveDescription) : list field :=
  when (InputName pd <> "") ("InputName", OString (InputName pd)).

Definition field_OperatorType (pd : PrimitiveDescription) : list field :=
  [("OperatorType", OString (OperatorType pd))].

Definition field_Variant (pd : PrimitiveDescription) : list field :=
  when (Variant pd <> "") ("Variant", OString (Variant pd)).

Definition field_Keyspace (pd : PrimitiveDescription) : list field :=
  from_option (fun ks => [("Keyspace", OKeyspace ks)]) [] (Keyspace pd).

Definition field_TargetDestination (pd : PrimitiveDescription)
  : list field :=
  from_option (fun d => [("TargetDestination", ODestination d)]) []
    (TargetDestination pd).

Definition field_TargetTabletType (pd : PrimitiveDescription)
  : list field :=
  when (TargetTabletType pd <> TabletType_UNKNOWN)
    ("TargetTabletType",
     OString (TabletType_String (TargetTabletType pd))).

(** The median as the contract words it: the middle element of the samples
    in ascending order, or the average of the two middle ones. *)
Definition middle (nums : list Z) : float64 :=
  let sorted := sort_Ints nums in
  let n := length sorted in
  if Nat.even n then
    f64_div
      (float64_of_int
         (int_add (nth (n / 2 - 1) sorted 0) (nth (n / 2) sorted 0)))
      f64_two
  else float64_of_int (nth (n / 2) sorted 0).

Definition fields_Stats (pd : PrimitiveDescription) : list field :=
  match Stats pd with
  | [] => []
  | _ :: _ =>
      [("NoOfCalls", OInt (Z.of_nat (length (Stats pd))));
       ("AvgNumberOfRows", OFloat64 (average (Stats pd)));
       ("MedianNumberOfRows", OFloat64 (middle (Stats pd)))]
  end.

(** The extension keys that are written: those whose value is not one of
    the skipped defaults, in ascending order. *)
Definition Other_keys (input : gmap string value) : list string :=
  sort_Strings
    (map fst (filter (fun kv => skipped kv.2 = false) (map_to_list input))).

Definition fields_Other (pd : PrimitiveDescription) : list field :=
  map (fun k => (k, OAny (map_index (Other pd) k))) (Other_keys (Other pd)).

Definition field_Inputs (pd : PrimitiveDescription) : list field :=
  when (len (Inputs pd) <> 0%nat) ("Inputs", OInputs (elems (Inputs pd))).

Definition MarshalJSON_fields (pd : PrimitiveDescription) : list field :=
  field_InputName pd ++ field_OperatorType pd ++ field_Variant pd ++
  field_Keyspace pd ++ field_TargetDestination pd ++
  field_TargetTabletType pd ++ fields_Stats pd ++ fields_Other pd ++
  field_Inputs pd.

(** The fields before [TargetDestination]. *)
Definition fields_before_TargetDestination (pd : PrimitiveDescription)
  : list field :=
  field_InputName pd ++ field_OperatorType pd ++ field_Variant pd ++
  field_Keyspace pd.

(** The omission rule as the contract words it: a value is left out when it
    is the empty string, null (a [nil], of an interface or of a slice,
    pointer or map), a numeric zero or boolean false. *)
Definition numeric_zero (v : value) : bool :=
  match v with
  | VInt 0 | VInt64 0 => true
  | VFloat64 (S754_zero _) => true
  | _ => false
  end.

Definition default_valued (v : value) : bool :=
  match v with
  | VString "" => true
  | VNil => true
  | VStrings None => true
  | VTypedNil _ => true
  | VBool false => true
  | _ => numeric_zero v
  end.

(** ** Graph exporter *)

(** Modelled from the spec: the [graphviz] package is not part of this
    file.  A graph holds nodes (label, attributes, tooltip) and edges; a
    node is referred to by the id it was given when added, ids being handed
    out in increasing order. *)
Record Node : Type := mkNode {
  node_id : nat;
  node_name : string;
  node_attrs : list string;
  node_tooltip : string
}.

Record Graph : Type := mkGraph {
  nodes : gmap nat Node;
  edges : list (nat * nat);
  lastID : nat
}.

Definition graphviz_New : Graph := mkGraph ∅ [] 0.

Definition AddNode (name : string) (g : Graph) : nat * Graph :=
  let n := lastID g in
  (n, mkGraph (<[n := mkNode n name [] ""]> (nodes g)) (edges g) (S n)).

Definition AddAttribute (n : nat) (s : string) (g : Graph) : Graph :=
  mkGraph
    (alter (fun nd => mkNode (node_id nd) (node_name nd)
                        (node_attrs nd ++ [s]) (node_tooltip nd))
       n (nodes g))
    (edges g) (lastID g).

Definition AddTooltip (n : nat) (tt : string) (g : Graph) : Graph :=
  mkGraph
    (alter (fun nd => mkNode (node_id nd) (node_name nd) (node_attrs nd) tt)
       n (nodes g))
    (edges g) (lastID g).

Definition AddEdge (from to : nat) (g : Graph) : Graph :=
  mkGraph (nodes g) (edges g ++ [(from, to)]) (lastID g).

Context `{fm : Fmt}.

(** The body of the loop over [pd.Other], for one entry. *)
Definition addToGraph_entry (this : nat) (g : Graph) (kv : string * value)
  : Graph :=
  let '(k, v) := kv in
  if decide (k = "Query") then AddTooltip this (Sprint v) g
  else if decide (k = "FieldQuery") then g
  else
    match v with
    | VStrings slice =>
        let g := AddAttribute this k g in
        fold_left (fun g s => AddAttribute this s g) (elems slice) g
    | _ => AddAttribute this (k +:+ ":" +:+ Sprint v) g
    end.

(** The loop over [pd.Inputs]: children first, collecting their nodes. *)
Definition addToGraph_inputs
    (addToGraph : PrimitiveDescription -> Graph -> result (nat * Graph))
  : list PrimitiveDescription -> list nat -> Graph ->
    result (list nat * Graph) :=
  fix each inputs nodes g :=
    match inputs with
    | [] => Ok (nodes, g)
    | input :: rest =>
        '(n, g) ← addToGraph input g;
        each rest (nodes ++ [n]) g
    end.

Definition node_label (pd : PrimitiveDescription) : string :=
  if decide (Variant pd = "") then OperatorType pd
  else OperatorType pd +:+ ":" +:+ Variant pd.

Fixpoint addToGraph (pd : PrimitiveDescription) (g : Graph)
  : result (nat * Graph) :=
  '(nodes, g) ←
    match Inputs pd with
    | Some inputs => addToGraph_inputs addToGraph inputs [] g
    | None => Ok ([], g)
    end;
  let name := node_label pd in
  let '(this, g) := AddNode name g in
  let g := fold_left (addToGraph_entry this) (range (Other pd)) g in
  let g := fold_left (fun g n => AddEdge this n g) nodes g in
  Ok (this, g).

(** ** Description builder *)

Definition inputName : string := "InputName".

(** A plan node: its identity (the key of the statistics map), what
    [description()] returns and what [Inputs()] returns, the children and
    the optional per-child metadata. *)
Local Unset Elimination Schemes.

Inductive Primitive : Type := mkPrimitive {
  identity : positive;
  description : PrimitiveDescription;
  children : list Primitive;
  infos : slice (gmap string value)
}.

Local Set Elimination Schemes.

Definition RowsReceived : Type := list Z.

Definition set_Stats (st : RowsReceived) (pd : PrimitiveDescription)
  : PrimitiveDescription :=
  mkPrimitiveDescription (OperatorType pd) (Variant pd) (Keyspace pd)
    (TargetDestination pd) (TargetTabletType pd) (Other pd) (InputName pd)
    (Inputs pd) st.

Definition set_InputName (s : string) (pd : PrimitiveDescription)
  : PrimitiveDescription :=
  mkPrimitiveDescription (OperatorType pd) (Variant pd) (Keyspace pd)
    (TargetDestination pd) (TargetTabletType pd) (Other pd) s
    (Inputs pd) (Stats pd).

Definition set_Other (o : gmap string value) (pd : PrimitiveDescription)
  : PrimitiveDescription :=
  mkPrimitiveDescription (OperatorType pd) (Variant pd) (Keyspace pd)
    (TargetDestination pd) (TargetTabletType pd) o (InputName pd)
    (Inputs pd) (Stats pd).

Definition set_Inputs (i : slice PrimitiveDescription)
    (pd : PrimitiveDescription) : PrimitiveDescription :=
  mkPrimitiveDescription (OperatorType pd) (Variant pd) (Keyspace pd)
    (TargetDestination pd) (TargetTabletType pd) (Other pd) (InputName pd)
    i (Stats pd).

(** The body of the loop over [infos[idx]], for one entry; [v.(string)]
    panics on a value of another dynamic type.  A [nil] extension map reads
    as the empty one, and the code allocates it before the first write. *)
Definition merge_entry (pd : PrimitiveDescription) (kv : string * value)
  : result PrimitiveDescription :=
  let '(k, v) := kv in
  if decide (k = inputName) then
    match v with
    | VString s => Ok (set_InputName s pd)
    | _ => Panic "interface conversion: interface {} is not string"
    end
  else Ok (set_Other (<[k := v]> (Other pd)) pd).

Fixpoint merge_info (l : list (string * value)) (pd : PrimitiveDescription)
  : result PrimitiveDescription :=
  match l with
  | [] => Ok pd
  | kv :: l' => pd ← merge_entry pd kv; merge_info l' pd
  end.

(** The loop over the children: build each, merge its metadata when the
    node supplies any, and append it. *)
Definition build_inputs
    (build : Primitive -> result PrimitiveDescription)
    (infos : slice (gmap string value))
  : nat -> list Primitive -> PrimitiveDescription ->
    result PrimitiveDescription :=
  fix each idx inputs this :=
    match inputs with
    | [] => Ok this
    | input :: rest =>
        pd ← build input;
        pd ←
          match infos with
          | Some infos =>
              match infos !! idx with
              | Some info => merge_info (range info) pd
              | None => Panic index_out_of_range
              end
          | None => Ok pd
          end;
        each (S idx) rest (set_Inputs (append (Inputs this) pd) this)
    end.

Fixpoint PrimitiveToPlanDescription (in_ : Primitive)
    (stats : option (gmap positive RowsReceived))
  : result PrimitiveDescription :=
  let this := description in_ in
  let this :=
    match stats with
    | Some st => set_Stats (default [] (st !! identity in_)) this
    | None => this
    end in
  this ←
    build_inputs (fun input => PrimitiveToPlanDescription input stats)
      (infos in_) 0%nat (children in_) this;
  Ok (if decide (length (children in_) = 0%nat)
      then set_Inputs (Some []) this else this).

(** What the merge of a metadata entry leaves in a child description: the
    role, when the entry names one, and the other keys over the child's
    own. *)
Definition merged (info : gmap string value) (pd : PrimitiveDescription)
  : PrimitiveDescription :=
  set_InputName
    (match info !! inputName with
     | Some (VString s) => s
     | _ => InputName pd
     end)
    (set_Other (delete inputName info ∪ Other pd) pd).

Definition augmented (infos : slice (gmap string value)) (idx : nat)
    (pd : PrimitiveDescription) : PrimitiveDescription :=
  match infos with
  | Some infos => from_option (fun info => merged info pd) pd (infos !! idx)
  | None => pd
  end.

(** A description after the children in [pds] were appended in turn. *)
Definition append_all (this : PrimitiveDescription)
    (pds : list PrimitiveDescription) : PrimitiveDescription :=
  foldl (fun this pd => set_Inputs (append (Inputs this) pd) this) this pds.

(** Well-formed metadata: an entry for each child from [idx] on, and any
    role of dynamic type [string]. *)
Definition infos_ok (infos : slice (gmap string value)) (idx n : nat)
  : Prop :=
  forall l, infos = Some l ->
    forall j, (j < n)%nat ->
      exists info, l !! (idx + j)%nat = Some info /\
        forall v, info !! inputName = Some v -> exists s, v = VString s.

(** A plan whose every node has well-formed metadata for its children. *)
Local Unset Elimination Schemes.

Inductive plan_ok : Primitive -> Prop :=
| plan_ok_node (in_ : Primitive) :
    Forall plan_ok (children in_) ->
    infos_ok (infos in_) 0 (length (children in_)) ->
    plan_ok in_.

Local Set Elimination Schemes.

(** The attributes one extension entry adds to its node, and the ones the
    contract words: there a sequence of strings gives one attribute per
    element. *)
Definition entry_attrs (kv : string * value) : list string :=
  let '(k, v) := kv in
  if decide (k = "Query") then []
  else if decide (k = "FieldQuery") then []
  else
    match v with
    | VStrings slice => k :: elems slice
    | _ => [k +:+ ":" +:+ Sprint v]
    end.

(** The tooltip a node has after the entries in [l], from [init]. *)
Definition entries_tooltip (init : string) (l : list (string * value))
  : string :=
  fold_left
    (fun tt '(k, v) => if decide (k = "Query") then Sprint v else tt) l init.

Definition claimed_entry_attrs (kv : string * value) : list string :=
  let '(k, v) := kv in
  if decide (k = "Query") then []
  else if decide (k = "FieldQuery") then []
  else
    match v with
    | VStrings slice => elems slice
    | _ => [k +:+ ":" +:+ Sprint v]
    end.

(** [GraphViz]: the description of the plan, without statistics, exported
    into a fresh graph. *)
Definition GraphViz (p : Primitive) : result Graph :=
  let g := graphviz_New in
  description ← PrimitiveToPlanDescription p None;
  '(_, g) ← addToGraph description g;
  Ok g.

(** The number of nodes of a description tree. *)
Fixpoint tree_size (pd : PrimitiveDescription) : nat :=
  S (match Inputs pd with
     | Some inputs => list_sum (map tree_size inputs)
     | None => 0
     end).

(** A graph whose nodes are exactly those with an id handed out so far,
    each under its own id, and whose edges join such nodes. *)
Definition graph_ok (g : Graph) : Prop :=
  (forall i : nat, is_Some (nodes g !! i) <-> (i < lastID g)%nat) /\
  (forall (i : nat) (nd : Node), nodes g !! i = Some nd -> node_id nd = i) /\
  (forall a b : nat,
     (a, b) ∈ edges g -> (a < lastID g)%nat /\ (b < lastID g)%nat).

(** [g'] is [g] but for the node [this]. *)
Definition only_node (this : nat) (g g' : Graph) : Prop :=
  lastID g' = lastID g /\
  edges g' = edges g /\
  forall i : nat, i <> this -> nodes g' !! i = nodes g !! i.

(** [g'] is [g] with new nodes, under the ids from [lastID g] on, and the
    new edges [es], each from a node to a new node added before it. *)
Definition extends (g g' : Graph) (es : list (nat * nat)) : Prop :=
  (lastID g <= lastID g')%nat /\
  (forall i : nat,
     ~ (lastID g <= i < lastID g')%nat -> nodes g' !! i = nodes g !! i) /\
  (forall i : nat,
     (lastID g <= i < lastID g')%nat ->
     exists nd : Node, nodes g' !! i = Some nd /\ node_id nd = i) /\
  edges g' = edges g ++ es /\
  Forall (fun e : nat * nat =>
            (lastID g <= e.2)%nat /\ (e.2 < e.1)%nat /\
            (e.1 < lastID g')%nat) es.

End Engine.

(** ** Ordered map *)

Record keyVal : Type := mkKeyVal {
  key : string;
  val : value
}.

Definition orderedMap : Type := list keyVal.

(** [m[i]] with Go's bounds check. *)
Definition index_keyVal (m : orderedMap) (i : Z) : result keyVal :=
  if (0 <=? i) && (i <? Z.of_nat (length m))
  then match m !! Z.to_nat i with
       | Some x => Ok x
       | None => Panic index_out_of_range
       end
  else Panic index_out_of_range.

Definition orderedMap_Len (m : orderedMap) : Z := Z.of_nat (length m).

Definition orderedMap_Less (m : orderedMap) (i j : Z) : result bool :=
  a ← index_keyVal m i;
  b ← index_keyVal m j;
  Ok (String.ltb (key a) (key b)).

(** [m[i], m[j] = m[j], m[i]]: both elements are read, then both written. *)
Definition orderedMap_Swap (m : orderedMap) (i j : Z) : result orderedMap :=
  a ← index_keyVal m i;
  b ← index_keyVal m j;
  Ok (<[Z.to_nat j := a]> (<[Z.to_nat i := b]> m)).

(** [sort.Sort] on an [orderedMap]: ascending by [Less], here by
    insertion. *)
Fixpoint insert_keyVal (x : keyVal) (l : orderedMap) : orderedMap :=
  match l with
  | [] => [x]
  | y :: l' =>
      if String.ltb (key y) (key x) then y :: insert_keyVal x l' else x :: l
  end.

Fixpoint sort_Sort (l : orderedMap) : orderedMap :=
  match l with
  | [] => []
  | x :: l' => insert_keyVal x (sort_Sort l')
  end.

Definition orderedStringIntMap `{mr : MapRange} (in_ : gmap string Z)
  : orderedMap :=
  let result :=
    fold_left (fun result '(k, v) => result ++ [mkKeyVal k (VInt v)])
      (range in_) [] in
  sort_Sort result.

(** [json.Marshal] on a dynamic value: the encoding, or the error. *)
Class Marshal : Type := json_Marshal : value -> result string.

Fixpoint orderedMap_MarshalJSON_loop `{ma : Marshal} (i : nat)
    (m : orderedMap) (buf : string) : result string :=
  match m with
  | [] => Ok buf
  | kv :: m' =>
      let buf := if decide (i <> 0%nat) then buf +:+ "," else buf in
      key ← json_Marshal (VString (key kv));
      let buf := buf +:+ key in
      let buf := buf +:+ ":" in
      val ← json_Marshal (val kv);
      let buf := buf +:+ val in
      orderedMap_MarshalJSON_loop (S i) m' buf
  end.

Definition orderedMap_MarshalJSON `{ma : Marshal} (m : orderedMap)
  : result string :=
  let buf := "{" in
  buf ← orderedMap_MarshalJSON_loop 0 m buf;
  let buf := buf +:+ "}" in
  Ok buf.

Definition orderedMap_String `{fm : Fmt} (m : orderedMap) : string :=
  let output :=
    fold_left
      (fun output kv => output ++ [key kv +:+ ":" +:+ Sprint (val kv)])
      m [] in
  String.concat " " output.

(** ** A concrete environment for the examples

    Destinations and keyspaces are stood for by their names, tablet types
    by their numbers; the encoder quotes strings as they are, which is what
    [encoding/json] does for strings without characters to escape. *)
Module Example.

#[export] Instance ext : External := {|
  vindexes_Keyspace := string;
  key_Destination := string;
  Destination_String := fun d => d;
  topodatapb_TabletType := Z;
  TabletType_UNKNOWN := 0;
  TabletType_String := fun t =>
    if t =? 1 then "PRIMARY" else if t =? 2 then "REPLICA"
    else if t =? 3 then "RDONLY" else pretty t
|}.

Definition quote (s : string) : string := dquote +:+ s +:+ dquote.

Definition json_float (f : float64) : result string :=
  match f with
  | S754_zero _ => Ok "0"
  | S754_finite s m e =>
      Ok ((if s then "-" else "") +:+ pretty (Z.pos m) +:+ "p" +:+ pretty e)
  | _ => Err "json: unsupported value"
  end.

Definition json_value (v : value) : result string :=
  match v with
  | VNil => Ok "null"
  | VString s => Ok (quote s)
  | VInt n | VInt64 n => Ok (pretty n)
  | VBool b => Ok (if b then "true" else "false")
  | VStrings None => Ok "null"
  | VStrings (Some l) =>
      Ok ("[" +:+ String.concat "," (map quote l) +:+ "]")
  | VFloat64 f => json_float f
  | VOther _ _ => Err "json: unsupported type"
  | VTypedNil _ => Ok "null"
  end.

Definition line (r : result string) : result string :=
  s ← r; Ok (s +:+ newline).

Fixpoint strip_newlines (s : string) : string :=
  match s with
  | EmptyString => EmptyString
  | String c s' =>
      if Ascii.eqb c (Ascii.ascii_of_nat 10) then strip_newlines s'
      else String c (strip_newlines s')
  end.

#[export] Instance js : JSON := {|
  Encode_string := fun s => line (Ok (quote s));
  Encode_Keyspace := fun ks => line (Ok (quote ks));
  Encode_int := fun n => line (Ok (pretty n));
  Encode_float64 := fun f => line (json_float f);
  Encode_any := fun v => line (json_value v);
  compact := fun s => Ok (strip_newlines s)
|}.

#[export] Instance mr : MapRange := {|
  range := fun V m => map_to_list m;
  range_perm := fun V m => reflexivity (map_to_list m)
|}.

Definition sprint (v : value) : string :=
  match v with
  | VNil => "<nil>"
  | VString s => s
  | VInt n | VInt64 n => pretty n
  | VBool b => if b then "true" else "false"
  | VStrings l => "[" +:+ String.concat " " (elems l) +:+ "]"
  | VFloat64 _ => "<float64>"
  | VOther _ payload => payload
  | VTypedNil _ => "<nil>"
  end.

#[export] Instance fm : Fmt := {|
  Sprint := sprint;
  Sprint_string := fun s => eq_refl
|}.

Definition leaf (op : string) (other : gmap string value)
  : PrimitiveDescription :=
  mkPrimitiveDescription op "" None None 0 other "" None [].

(** A route with a short destination name. *)
Definition short_destination : PrimitiveDescription :=
  mkPrimitiveDescription "Route" "" None (Some "Shard") 0 ∅ "" None [].

Definition route : PrimitiveDescription :=
  mkPrimitiveDescription "Route" "Scatter" (Some "ks")
    (Some "DestinationAllShards()") 2
    (<["Query" := VString "SELECT 1"]>
       (<["FieldQuery" := VString "SELECT 1 WHERE 1 != 1"]>
          (<["Table" := VString "t"]> ∅)))
    "" (Some []) [1; 1; 1].

Definition join : PrimitiveDescription :=
  mkPrimitiveDescription "Join" "Join" None None 0
    (<["b" := VInt 1]> (<["a" := VInt 2]> (<["c" := VInt 0]> ∅)))
    "" (Some [route; leaf "Limit" ∅]) [].

(** A join whose metadata names the first child and tags it. *)
Definition plan : Primitive :=
  mkPrimitive 1 (leaf "Join" ∅)
    [mkPrimitive 2 (leaf "Route" ∅) [] None;
     mkPrimitive 3 (leaf "Route" ∅) [] None]
    (Some [<["InputName" := VString "Left"]> (<["X" := VString "y"]> ∅);
           ∅]).

(** What the builder makes of a childless route. *)
Definition built_route : PrimitiveDescription :=
  mkPrimitiveDescription "Route" "" None None 0 ∅ "" (Some []) [].

Definition left_info : gmap string value :=
  <["InputName" := VString "Left"]> (<["X" := VString "y"]> ∅).

(** A route with a column list, and a route with an [int64] zero. *)
Definition with_columns : PrimitiveDescription :=
  leaf "Route" (<["Cols" := VStrings (Some ["a"; "b"])]> ∅).

Definition int64_zero : gmap string value := <["n" := VInt64 0]> ∅.

#[export] Instance ma : Marshal := json_value.

(** A map of counts, and an ordered map with a value [json.Marshal]
    rejects. *)
Definition counts : gmap string Z := <["b" := 1]> (<["a" := 2]> ∅).

Definition with_channel : orderedMap :=
  [mkKeyVal "a" (VInt 1); mkKeyVal "b" (VOther "chan int" "0xc000");
   mkKeyVal "c" (VInt 3)].

(** A route on a table, and a route with a value the encoder rejects. *)
Definition table_route : PrimitiveDescription :=
  leaf "Route" (<["Table" := VString "t"]> ∅).

Definition channel_route : PrimitiveDescription :=
  leaf "Route" (<["ch" := VOther "chan int" "0xc000"]> ∅).

(** A join over a route on a table and a route with a short destination
    name. *)
Definition short_join : PrimitiveDescription :=
  mkPrimitiveDescription "Join" "" None None 0 ∅ ""
    (Some [table_route; short_destination]) [].

(** The encoder's bytes for the fields of [route] before and after its
    target destination. *)
Definition route_front : list string :=
  [quote "Route" +:+ newline; quote "Scatter" +:+ newline;
   quote "ks" +:+ newline].

Definition route_back : list string :=
  [quote "REPLICA" +:+ newline; "3" +:+ newline;
   "4503599627370496p-52" +:+ newline; "4503599627370496p-52" +:+ newline;
   quote "SELECT 1 WHERE 1 != 1" +:+ newline; quote "SELECT 1" +:+ newline;
   quote "t" +:+ newline].




Definition nil_columns : gmap string value := <["Cols" := VStrings None]> ∅.

(** A childless route with samples recorded for it, a join with metadata
    for one of its two children only, and a join whose metadata names a
    child by a number. *)
Definition route_plan : Primitive :=
  mkPrimitive 2 (leaf "Route" ∅) [] None.

Definition samples : gmap positive RowsReceived := <[2%positive := [1; 2]]> ∅.

Definition short_plan : Primitive :=
  mkPrimitive 1 (leaf "Join" ∅)
    [mkPrimitive 2 (leaf "Route" ∅) [] None;
     mkPrimitive 3 (leaf "Route" ∅) [] None]
    (Some [∅]).

Definition numbered_plan : Primitive :=
  mkPrimitive 1 (leaf "Join" ∅)
    [mkPrimitive 2 (leaf "Route" ∅) [] None]
    (Some [<["InputName" := VInt 7]> ∅]).

End Example.


(** * Properties *)



(** ** The outcome monad *)

Lemma rbind_ext {A B : Type} (m : result A) (f g : A -> result B) :
  (forall a, f a = g a) -> m ≫= f = m ≫= g.
Proof. intros Hfg. destruct m; simpl; auto. Qed.

Lemma rbind_assoc {A B C : Type} (m : result A) (f : A -> result B)
    (g : B -> result C) :
  (m ≫= f) ≫= g = m ≫= (fun a => f a ≫= g).
Proof. destruct m; reflexivity. Qed.

Lemma rbind_Ok {A B : Type} (a : A) (f : A -> result B) : Ok a ≫= f = f a.
Proof. reflexivity. Qed.

(** ** Sorting ints *)

Lemma insert_int_perm (x : Z) (l : list Z) : insert_int x l ≡ₚ x :: l.
Proof.
  induction l as [|y l IH]; simpl; [done|].
  destruct (x <=? y); [done|].
  rewrite IH. apply Permutation_swap.
Qed.

Lemma sort_Ints_perm (l : list Z) : sort_Ints l ≡ₚ l.
Proof.
  induction l as [|x l IH]; simpl; [done|].
  rewrite insert_int_perm. by rewrite IH.
Qed.

Lemma sort_Ints_length (l : list Z) : length (sort_Ints l) = length l.
Proof. apply Permutation_length, sort_Ints_perm. Qed.

Lemma insert_int_sorted (x : Z) (l : list Z) :
  StronglySorted Z.le l -> StronglySorted Z.le (insert_int x l).
Proof.
  induction 1 as [|y l Hl IH Hy]; simpl.
  - repeat constructor.
  - destruct (Z.leb_spec x y) as [Hxy|Hxy].
    + constructor; [by constructor|].
      constructor; [done|].
      eapply Forall_impl; [exact Hy|]. intros z Hz. simpl in Hz. lia.
    + constructor; [done|].
      rewrite insert_int_perm. constructor; [lia|done].
Qed.

Lemma sort_Ints_sorted (l : list Z) : StronglySorted Z.le (sort_Ints l).
Proof.
  induction l as [|x l IH]; simpl; [constructor|].
  by apply insert_int_sorted.
Qed.

(** ** Bounds-checked indexing *)

Lemma index_int_in_range (s : list Z) (i : nat) :
  (i < length s)%nat -> index_int s (Z.of_nat i) = Ok (nth i s 0).
Proof.
  intros Hi. unfold index_int.
  replace (0 <=? Z.of_nat i) with true by (symmetry; apply Z.leb_le; lia).
  replace (Z.of_nat i <? Z.of_nat (length s)) with true
    by (symmetry; apply Z.ltb_lt; lia).
  simpl. rewrite Nat2Z.id.
  destruct (s !! i) as [x|] eqn:Hx.
  - by rewrite (nth_lookup_Some _ _ 0 _ Hx).
  - apply lookup_ge_None in Hx. lia.
Qed.

Lemma index_int_negative (s : list Z) (i : Z) :
  i < 0 -> index_int s i = Panic index_out_of_range.
Proof.
  intros Hi. unfold index_int.
  by replace (0 <=? i) with false by (symmetry; apply Z.leb_gt; lia).
Qed.

(** ** Wrap-around sums *)

Lemma int_wrap_mod (z : Z) : int_wrap z mod 2 ^ 64 = z mod 2 ^ 64.
Proof.
  unfold int_wrap.
  rewrite Zminus_mod, Zmod_mod, <- Zminus_mod.
  f_equal. lia.
Qed.

Lemma int_wrap_eq (a b : Z) :
  a mod 2 ^ 64 = b mod 2 ^ 64 -> int_wrap a = int_wrap b.
Proof.
  intros Hab. unfold int_wrap.
  rewrite (Zplus_mod a), (Zplus_mod b), Hab. reflexivity.
Qed.

Lemma int_wrap_in_range (z : Z) :
  - 2 ^ 63 <= z < 2 ^ 63 -> int_wrap z = z.
Proof.
  intros Hz. unfold int_wrap. rewrite Z.mod_small; lia.
Qed.

Lemma int_add_wrap_l (a b : Z) : int_add (int_wrap a) b = int_wrap (a + b).
Proof.
  unfold int_add. apply int_wrap_eq.
  rewrite Zplus_mod, int_wrap_mod, <- Zplus_mod. reflexivity.
Qed.

Lemma fold_int_add (nums : list Z) (acc : Z) :
  fold_left int_add nums (int_wrap acc) = int_wrap (acc + foldr Z.add 0 nums).
Proof.
  revert acc. induction nums as [|x nums IH]; intros acc; simpl.
  - f_equal. lia.
  - rewrite int_add_wrap_l, IH. f_equal. lia.
Qed.

Lemma sum_ints_wrap (nums : list Z) :
  sum_ints nums = int_wrap (foldr Z.add 0 nums).
Proof.
  unfold sum_ints.
  change 0 with (int_wrap 0) at 1.
  by rewrite fold_int_add.
Qed.

(** ** The median *)

Lemma median_middle (nums : list Z) :
  nums <> [] -> median nums = Ok (middle nums).
Proof.
  intros Hne. unfold median, middle.
  set (sorted := sort_Ints nums).
  assert (Hpos : (0 < length sorted)%nat).
  { unfold sorted. rewrite sort_Ints_length.
    destruct nums; [done|simpl; lia]. }
  set (n := length sorted) in *.
  assert (Hhalf : Z.of_nat n / 2 = Z.of_nat (n / 2))
    by (by rewrite (Nat2Z.inj_div n 2)).
  destruct (Nat.even n) eqn:Heven.
  - apply Nat.even_spec in Heven. destruct Heven as [k Hk].
    assert (Hk2 : (n / 2 = k)%nat)
      by (rewrite Hk, Nat.mul_comm; apply Nat.div_mul; lia).
    replace (Z.of_nat n mod 2 =? 0) with true.
    2:{ symmetry. apply Z.eqb_eq. rewrite Hk, Nat2Z.inj_mul.
        rewrite Z.mul_comm. apply Z_mod_mult. }
    rewrite Hhalf, Hk2.
    replace (Z.of_nat k - 1) with (Z.of_nat (k - 1)) by lia.
    rewrite !index_int_in_range by (fold n; lia).
    reflexivity.
  - assert (Hodd : Nat.odd n = true) by (by rewrite <- Nat.negb_even, Heven).
    apply Nat.odd_spec in Hodd. destruct Hodd as [k Hk].
    replace (Z.of_nat n mod 2 =? 0) with false.
    2:{ symmetry. apply Z.eqb_neq. rewrite Hk.
        replace (Z.of_nat (2 * k + 1)) with (1 + Z.of_nat k * 2) by lia.
        rewrite Z_mod_plus_full. done. }
    rewrite Hhalf.
    assert (n / 2 < n)%nat by (apply Nat.div_lt; lia).
    rewrite index_int_in_range by (fold n; lia).
    reflexivity.
Qed.

Lemma median_empty : median [] = Panic index_out_of_range.
Proof. reflexivity. Qed.

(** ** The conversion to [float64] and the division by two *)

Lemma digits2_pos_iter (m k : positive) :
  digits2_pos (Pos.iter xO m k) = (digits2_pos m + k)%positive.
Proof.
  induction k as [|k IH] using Pos.peano_ind.
  - simpl. lia.
  - rewrite Pos.iter_succ. simpl. rewrite IH. lia.
Qed.

Lemma iter_xO_value (m k : positive) :
  Z.pos (Pos.iter xO m k) = Z.pos m * 2 ^ Z.pos k.
Proof.
  induction k as [|k IH] using Pos.peano_ind.
  - simpl. lia.
  - rewrite Pos.iter_succ.
    change (Z.pos (Pos.iter xO m k)~0) with (2 * Z.pos (Pos.iter xO m k)).
    rewrite IH, Pos2Z.inj_succ, Z.pow_succ_r by lia. lia.
Qed.

Lemma digits2_pos_bounds (m : positive) :
  2 ^ (Z.pos (digits2_pos m) - 1) <= Z.pos m < 2 ^ Z.pos (digits2_pos m).
Proof.
  induction m as [m IH|m IH|]; simpl digits2_pos.
  - rewrite Pos2Z.inj_succ. change (Z.pos m~1) with (2 * Z.pos m + 1).
    replace (Z.succ (Z.pos (digits2_pos m)) - 1)
      with (Z.succ (Z.pos (digits2_pos m) - 1)) by lia.
    rewrite !Z.pow_succ_r by lia.
    revert IH. generalize (2 ^ (Z.pos (digits2_pos m) - 1)).
    generalize (2 ^ Z.pos (digits2_pos m)). lia.
  - rewrite Pos2Z.inj_succ. change (Z.pos m~0) with (2 * Z.pos m).
    replace (Z.succ (Z.pos (digits2_pos m)) - 1)
      with (Z.succ (Z.pos (digits2_pos m) - 1)) by lia.
    rewrite !Z.pow_succ_r by lia.
    revert IH. generalize (2 ^ (Z.pos (digits2_pos m) - 1)).
    generalize (2 ^ Z.pos (digits2_pos m)). lia.
  - simpl. lia.
Qed.

Lemma digits2_pos_le (m : positive) (k : Z) :
  0 <= k -> Z.pos m < 2 ^ k -> Z.pos (digits2_pos m) <= k.
Proof.
  intros Hk Hm. destruct (digits2_pos_bounds m) as [Hlo _].
  destruct (Z_le_gt_dec (Z.pos (digits2_pos m)) k) as [|Hgt]; [done|].
  assert (2 ^ k <= 2 ^ (Z.pos (digits2_pos m) - 1))
    by (apply Z.pow_le_mono_r; lia).
  lia.
Qed.

Lemma binary_round_aux_exact (s : bool) (m : positive) (e : Z) :
  Z.pos (digits2_pos m) = 53 -> -1074 <= e <= 971 ->
  binary_round_aux f64_prec f64_emax s (Z.pos m) e loc_Exact =
    S754_finite s m e.
Proof.
  intros Hd He.
  assert (Hshr : shr_fexp f64_prec f64_emax (Z.pos m) e loc_Exact =
                 (Build_shr_record (Z.pos m) false false, e)).
  { unfold shr_fexp, shr, fexp, emin, f64_prec, f64_emax. simpl Zdigits2.
    rewrite Hd.
    replace (Z.max (53 + e - 53) (3 - 1024 - 53) - e) with 0 by lia.
    reflexivity. }
  unfold binary_round_aux. rewrite Hshr. simpl.
  rewrite Hshr. simpl.
  replace (e <=? f64_emax - f64_prec) with true
    by (symmetry; apply Z.leb_le; unfold f64_emax, f64_prec; lia).
  reflexivity.
Qed.

(** The conversion of an integer of at most 53 bits: the integer, with its
    mantissa shifted to 53 bits. *)
Lemma binary_round_exact (s : bool) (m : positive) :
  Z.pos m < 2 ^ 53 ->
  exists (mz : positive) (e : Z),
    binary_round f64_prec f64_emax s m 0 = S754_finite s mz e /\
    Z.pos (digits2_pos mz) = 53 /\ -52 <= e <= 0 /\
    Z.pos mz = Z.pos m * 2 ^ (- e).
Proof.
  intros Hm.
  pose proof (digits2_pos_le m 53 ltac:(lia) Hm) as Hd.
  assert (Hd1 : 1 <= Z.pos (digits2_pos m)) by lia.
  unfold binary_round, shl_align, fexp, emin, f64_prec, f64_emax.
  replace (Z.max (Z.pos (digits2_pos m) + 0 - 53) (3 - 1024 - 53) - 0)
    with (Z.pos (digits2_pos m) - 53) by lia.
  replace (Z.max (Z.pos (digits2_pos m) + 0 - 53) (3 - 1024 - 53))
    with (Z.pos (digits2_pos m) - 53) by lia.
  destruct (Z.pos (digits2_pos m) - 53) as [|p|p] eqn:Hp; [|lia|].
  - exists m, 0. split; [|split; [lia|split; [lia|simpl; lia]]].
    apply (binary_round_aux_exact s m 0); lia.
  - exists (Pos.iter xO m p), (Z.neg p).
    assert (Hdz : Z.pos (digits2_pos (Pos.iter xO m p)) = 53).
    { rewrite digits2_pos_iter, Pos2Z.inj_add. lia. }
    split; [|split; [done|split; [lia|]]].
    + change (Z.pos (digits2_pos m) - 53) with (Z.pos (digits2_pos m) - 53).
      apply (binary_round_aux_exact s _ (Z.neg p)); [done|lia].
    + rewrite iter_xO_value. reflexivity.
Qed.

Lemma float64_of_int_finite (n : Z) :
  n <> 0 -> - 2 ^ 53 < n < 2 ^ 53 ->
  exists (m : positive) (e : Z),
    float64_of_int n = S754_finite (n <? 0) m e /\
    Z.pos (digits2_pos m) = 53 /\ -52 <= e <= 0 /\
    Z.pos m = Z.abs n * 2 ^ (- e).
Proof.
  intros Hn Hr. unfold float64_of_int, binary_normalize.
  destruct n as [|p|p]; [done| |].
  - destruct (binary_round_exact false p) as (m & e & H1 & H2 & H3 & H4);
      [lia|].
    exists m, e. split; [exact H1|]. split; [exact H2|].
    split; [exact H3|exact H4].
  - destruct (binary_round_exact true p) as (m & e & H1 & H2 & H3 & H4);
      [lia|].
    exists m, e. split; [exact H1|]. split; [exact H2|].
    split; [exact H3|exact H4].
Qed.

Lemma f64_two_eq : f64_two = S754_finite false 4503599627370496 (-51).
Proof. reflexivity. Qed.

Lemma div_eucl_shift (m : positive) :
  Z.div_eucl (Z.shiftl (Z.pos m) 53) 4503599627370496 = (Z.pos m~0, 0).
Proof.
  rewrite Z.shiftl_mul_pow2 by lia.
  assert (H : Z.pos m * 2 ^ 53 = Z.pos m~0 * 4503599627370496) by lia.
  rewrite H.
  pose proof (Z.div_eucl_eq (Z.pos m~0 * 4503599627370496)
                4503599627370496 ltac:(lia)) as Heq.
  pose proof (Z.mod_pos_bound (Z.pos m~0 * 4503599627370496)
                4503599627370496 ltac:(lia)) as Hb.
  unfold Z.modulo in Hb.
  destruct (Z.div_eucl (Z.pos m~0 * 4503599627370496) 4503599627370496)
    as [q r].
  f_equal; nia.
Qed.

Lemma SFdiv_core_two (m : positive) (e : Z) :
  Z.pos (digits2_pos m) = 53 -> -52 <= e <= 0 ->
  SFdiv_core_binary f64_prec f64_emax (Z.pos m) e 4503599627370496 (-51) =
    (Z.pos m~0, e - 2, loc_Exact).
Proof.
  intros Hd He. unfold SFdiv_core_binary.
  change (Zdigits2 (Z.pos m)) with (Z.pos (digits2_pos m)). rewrite Hd.
  replace (Zdigits2 4503599627370496) with 53 by reflexivity.
  unfold fexp, emin, f64_prec, f64_emax.
  replace (Z.min (Z.max (53 + e - (53 + -51) - 53) (3 - 1024 - 53))
             (e - -51)) with (e - 2) by lia.
  replace (e - -51 - (e - 2)) with 53 by lia.
  cbv zeta. rewrite div_eucl_shift. reflexivity.
Qed.

Lemma f64_div_two (s : bool) (m : positive) (e : Z) :
  Z.pos (digits2_pos m) = 53 -> -52 <= e <= 0 ->
  f64_div (S754_finite s m e) f64_two = S754_finite s m (e - 1).
Proof.
  intros Hd He. rewrite f64_two_eq. unfold f64_div, SFdiv.
  rewrite (SFdiv_core_two m e Hd He).
  unfold binary_round_aux.
  assert (Hshr1 : shr_fexp f64_prec f64_emax (Z.pos m~0) (e - 2) loc_Exact =
                  (Build_shr_record (Z.pos m) false false, e - 1)).
  { unfold shr_fexp, shr, fexp, emin, f64_prec, f64_emax.
    change (Zdigits2 (Z.pos m~0)) with (Z.pos (Pos.succ (digits2_pos m))).
    rewrite Pos2Z.inj_succ, Hd.
    replace (Z.max (Z.succ 53 + (e - 2) - 53) (3 - 1024 - 53) - (e - 2))
      with 1 by lia.
    simpl. f_equal. lia. }
  rewrite Hshr1. cbn [shr_m loc_of_shr_record round_nearest_even].
  assert (Hshr2 : shr_fexp f64_prec f64_emax (Z.pos m) (e - 1) loc_Exact =
                  (Build_shr_record (Z.pos m) false false, e - 1)).
  { unfold shr_fexp, shr, fexp, emin, f64_prec, f64_emax.
    change (Zdigits2 (Z.pos m)) with (Z.pos (digits2_pos m)). rewrite Hd.
    replace (Z.max (53 + (e - 1) - 53) (3 - 1024 - 53) - (e - 1))
      with 0 by lia.
    reflexivity. }
  rewrite Hshr2. cbn [shr_m].
  replace (e - 1 <=? f64_emax - f64_prec) with true
    by (symmetry; apply Z.leb_le; unfold f64_emax, f64_prec; lia).
  by destruct s.
Qed.

(** An integer of at most 53 bits is converted exactly. *)
Lemma float64_of_int_exact (n : Z) :
  - 2 ^ 53 < n < 2 ^ 53 -> f64_exact (float64_of_int n) n 1.
Proof.
  intros Hr. destruct (decide (n = 0)) as [->|Hn]; [reflexivity|].
  destruct (float64_of_int_finite n Hn Hr) as (m & e & -> & _ & He & Hm).
  unfold f64_exact.
  assert (Hsign : (if n <? 0 then Z.neg m else Z.pos m) = n * 2 ^ (- e)).
  { destruct (Z.ltb_spec n 0).
    - rewrite <- Pos2Z.opp_pos, Hm. lia.
    - rewrite Hm. lia. }
  rewrite Hsign.
  destruct (Z.leb_spec 0 e); [|lia].
  assert (e = 0) as -> by lia. simpl. lia.
Qed.

(** So is its half. *)
Lemma float64_half_exact (n : Z) :
  - 2 ^ 53 < n < 2 ^ 53 ->
  f64_exact (f64_div (float64_of_int n) f64_two) n 2.
Proof.
  intros Hr. destruct (decide (n = 0)) as [->|Hn]; [reflexivity|].
  destruct (float64_of_int_finite n Hn Hr) as (m & e & -> & Hd & He & Hm).
  rewrite (f64_div_two _ _ _ Hd He). unfold f64_exact.
  assert (Hsign : (if n <? 0 then Z.neg m else Z.pos m) = n * 2 ^ (- e)).
  { destruct (Z.ltb_spec n 0).
    - rewrite <- Pos2Z.opp_pos, Hm. lia.
    - rewrite Hm. lia. }
  rewrite Hsign.
  destruct (Z.leb_spec 0 (e - 1)); [lia|].
  replace (- (e - 1)) with (Z.succ (- e)) by lia.
  rewrite Z.pow_succ_r by lia. lia.
Qed.

Lemma nth_bounded (P : Z -> Prop) (l : list Z) (i : nat) :
  P 0 -> Forall P l -> P (nth i l 0).
Proof.
  intros H0 Hl. destruct (nth_in_or_default i l 0) as [Hin| ->]; [|done].
  by apply (proj1 (Forall_forall P l) Hl), list_elem_of_In.
Qed.

(** C5, as the code has it.  On a non-empty sample sequence, [median]
    returns, for the samples in ascending order (the sorted rearrangement
    of the input), the half of the sum of the two middle elements when the
    count is even and the middle element when it is odd, and [average]
    returns the sum divided by the count, where the sums are those Go's
    [int] holds and the results are [float64] values.  For samples
    strictly between [-2^52] and [2^52] the median is exactly the
    average of the two middle elements, or the middle element; for a sum
    strictly between [-2^53] and [2^53] (and as many samples at most) the
    mean is the quotient of the exact sum by the exact count.  In
    particular [median([3,1,2]) = 2], [median([3,1,2,4]) = 2.5] and
    [average([1,2,3]) = 2.0]. *)
Theorem median_average_spec (nums : list Z) (Hne : nums <> []) :
  exists sorted : list Z,
    sorted ≡ₚ nums /\ StronglySorted Z.le sorted /\
    let n := length nums in
    let mid1 := nth (n / 2 - 1) sorted 0 in
    let mid2 := nth (n / 2) sorted 0 in
    let total := foldr Z.add 0 nums in
    median nums =
      Ok (if Nat.even n
          then f64_div (float64_of_int (int_add mid1 mid2))
                 (float64_of_int 2)
          else float64_of_int mid2) /\
    average nums =
      f64_div (float64_of_int (int_wrap total))
              (float64_of_int (Z.of_nat n)) /\
    (Forall (fun x => - 2 ^ 52 < x < 2 ^ 52) nums ->
     exists f : float64,
       median nums = Ok f /\
       if Nat.even n then f64_exact f (mid1 + mid2) 2
       else f64_exact f mid2 1) /\
    (- 2 ^ 53 < total < 2 ^ 53 -> Z.of_nat n < 2 ^ 53 ->
     exists s c : float64,
       f64_exact s total 1 /\ f64_exact c (Z.of_nat n) 1 /\
       average nums = f64_div s c) /\
    median [3; 1; 2] = Ok (S754_finite false 4503599627370496 (-51)) /\
    f64_exact (S754_finite false 4503599627370496 (-51)) 2 1 /\
    median [3; 1; 2; 4] = Ok (S754_finite false 5629499534213120 (-51)) /\
    f64_exact (S754_finite false 5629499534213120 (-51)) 5 2 /\
    average [1; 2; 3] = S754_finite false 4503599627370496 (-51).
Proof.
  exists (sort_Ints nums).
  split; [apply sort_Ints_perm|].
  split; [apply sort_Ints_sorted|].
  intros n mid1 mid2 total.
  assert (Hmed : median nums =
    Ok (if Nat.even n
        then f64_div (float64_of_int (int_add mid1 mid2)) (float64_of_int 2)
        else float64_of_int mid2)).
  { rewrite (median_middle nums Hne). unfold middle.
    by rewrite sort_Ints_length. }
  assert (Havg : average nums =
    f64_div (float64_of_int (int_wrap total)) (float64_of_int (Z.of_nat n))).
  { unfold average. by rewrite sum_ints_wrap. }
  split; [exact Hmed|]. split; [exact Havg|]. split; [|split].
  - intros Hb. eexists. split; [exact Hmed|].
    assert (Hsorted : Forall (fun x => - 2 ^ 52 < x < 2 ^ 52)
                        (sort_Ints nums)).
    { apply Forall_forall. intros x Hx.
      apply (proj1 (Forall_forall _ _) Hb).
      by rewrite <- (sort_Ints_perm nums). }
    assert (H1 : - 2 ^ 52 < mid1 < 2 ^ 52)
      by (apply nth_bounded; [lia|done]).
    assert (H2 : - 2 ^ 52 < mid2 < 2 ^ 52)
      by (apply nth_bounded; [lia|done]).
    destruct (Nat.even n).
    + unfold int_add. rewrite (int_wrap_in_range (mid1 + mid2)) by lia.
      apply float64_half_exact. lia.
    + apply float64_of_int_exact. lia.
  - intros Ht Hn.
    exists (float64_of_int total), (float64_of_int (Z.of_nat n)).
    split; [by apply float64_of_int_exact|].
    split; [apply float64_of_int_exact; lia|].
    rewrite Havg. by rewrite (int_wrap_in_range total) by lia.
  - repeat split; vm_compute; reflexivity.
Qed.

Lemma median_average_spec_witness :
  [7; 5; 9; 1] <> [] /\
  median [7; 5; 9; 1] = Ok (S754_finite false 6755399441055744 (-50)) /\
  f64_exact (S754_finite false 6755399441055744 (-50)) 6 1 /\
  exists sorted : list Z,
    sorted ≡ₚ [7; 5; 9; 1] /\ StronglySorted Z.le sorted /\
    exists f : float64,
      median [7; 5; 9; 1] = Ok f /\
      f64_exact f (nth 1 sorted 0 + nth 2 sorted 0) 2.
Proof.
  assert (Hne : [7; 5; 9; 1] <> []) by discriminate.
  split; [exact Hne|].
  split; [vm_compute; reflexivity|].
  split; [vm_compute; reflexivity|].
  destruct (median_average_spec [7; 5; 9; 1] Hne)
    as (sorted & Hp & Hs & _ & _ & Hexact & _).
  exists sorted. split; [exact Hp|]. split; [exact Hs|].
  apply Hexact. repeat constructor; lia.
Defined.

(** ** The heap version of the median *)

Lemma Heap_median_heap (h : Heap.heap) (nums : Heap.loc) :
  (Heap.median nums h).2 =
    <[fresh (dom h) := sort_Ints (Heap.contents h nums)]> h.
Proof.
  unfold Heap.median, Heap.make, Heap.sort_Ints_in_place, Heap.copy. simpl.
  set (l := fresh (dom h)).
  assert (Hl : h !! l = None) by (apply not_elem_of_dom, is_fresh).
  unfold Heap.contents.
  rewrite !lookup_insert_eq. simpl.
  rewrite !insert_insert_eq. f_equal.
  destruct (decide (nums = l)) as [->|Hneq].
  - rewrite lookup_insert_eq, Hl. simpl. reflexivity.
  - rewrite lookup_insert_ne by done.
    rewrite length_replicate, Nat.min_id.
    rewrite firstn_all, drop_ge by (rewrite length_replicate; lia).
    by rewrite app_nil_r.
Qed.

(** C9. [median] leaves every slice of the caller as it was: the store after
    the call extends the store before it, so the input holds the same
    elements, and only the fresh copy was written. *)
Theorem Heap_median_frame (h : Heap.heap) (nums : Heap.loc) :
  h ⊆ (Heap.median nums h).2 /\
  Heap.contents (Heap.median nums h).2 nums = Heap.contents h nums /\
  (Heap.median nums h).1 = median (Heap.contents h nums).
Proof.
  assert (Hl : h !! fresh (dom h) = None) by (apply not_elem_of_dom, is_fresh).
  rewrite Heap_median_heap.
  split; [by apply insert_subseteq|].
  split.
  - unfold Heap.contents.
    destruct (decide (nums = fresh (dom h))) as [->|Hneq].
    + by rewrite lookup_insert_eq, Hl.
    + by rewrite lookup_insert_ne.
  - unfold Heap.median, Heap.make, Heap.sort_Ints_in_place, Heap.copy.
    simpl. unfold Heap.contents, median.
    rewrite !lookup_insert_eq. simpl.
    destruct (decide (nums = fresh (dom h))) as [->|Hneq].
    + rewrite lookup_insert_eq, Hl. reflexivity.
    + rewrite lookup_insert_ne by done.
      rewrite length_replicate, Nat.min_id.
      rewrite firstn_all, drop_ge by (rewrite length_replicate; lia).
      by rewrite app_nil_r.
Qed.

(** ** The order of strings *)

Lemma ascii_compare_refl (a : Ascii.ascii) : Ascii.compare a a = Eq.
Proof. unfold Ascii.compare. apply N.compare_refl. Qed.

Lemma ascii_compare_lt_trans (a b c : Ascii.ascii) :
  Ascii.compare a b = Lt -> Ascii.compare b c = Lt -> Ascii.compare a c = Lt.
Proof.
  unfold Ascii.compare. rewrite !N.compare_lt_iff. apply N.lt_trans.
Qed.

Lemma string_compare_refl (s : string) : String.compare s s = Eq.
Proof.
  induction s as [|a s IH]; simpl; [done|].
  by rewrite ascii_compare_refl.
Qed.

Lemma string_compare_lt_trans (s1 s2 s3 : string) :
  String.compare s1 s2 = Lt -> String.compare s2 s3 = Lt ->
  String.compare s1 s3 = Lt.
Proof.
  revert s2 s3.
  induction s1 as [|a s1 IH]; intros [|b s2] [|c s3]; simpl; try done.
  destruct (Ascii.compare a b) eqn:Hab; try done.
  - apply Ascii.compare_eq_iff in Hab. subst b.
    destruct (Ascii.compare a c) eqn:Hac; try done.
    apply IH.
  - destruct (Ascii.compare b c) eqn:Hbc; try done.
    + apply Ascii.compare_eq_iff in Hbc. subst c. by rewrite Hab.
    + by rewrite (ascii_compare_lt_trans a b c Hab Hbc).
Qed.

Lemma string_leb_ltb (s1 s2 : string) :
  String.leb s1 s2 = true <-> String.ltb s1 s2 = true \/ s1 = s2.
Proof.
  unfold String.leb, String.ltb.
  destruct (String.compare s1 s2) eqn:Hc; split; intros H; try done.
  - right. by apply String.compare_eq_iff.
  - by left.
  - destruct H as [H|H]; [done|]. subst. by rewrite string_compare_refl in Hc.
Qed.

Lemma string_ltb_trans (s1 s2 s3 : string) :
  String.ltb s1 s2 = true -> String.ltb s2 s3 = true ->
  String.ltb s1 s3 = true.
Proof.
  unfold String.ltb. intros H12 H23.
  destruct (String.compare s1 s2) eqn:H1; try done.
  destruct (String.compare s2 s3) eqn:H2; try done.
  by rewrite (string_compare_lt_trans _ _ _ H1 H2).
Qed.

Lemma string_leb_trans (s1 s2 s3 : string) :
  String.leb s1 s2 = true -> String.leb s2 s3 = true ->
  String.leb s1 s3 = true.
Proof.
  rewrite !string_leb_ltb. intros [H12| ->] [H23| ->]; auto.
  left. by eapply string_ltb_trans.
Qed.

Lemma string_ltb_irrefl (s : string) : String.ltb s s = false.
Proof. unfold String.ltb. by rewrite string_compare_refl. Qed.

(** ** Sorting strings *)

Lemma insert_string_perm (x : string) (l : list string) :
  insert_string x l ≡ₚ x :: l.
Proof.
  induction l as [|y l IH]; simpl; [done|].
  destruct (String.leb x y); [done|].
  rewrite IH. apply Permutation_swap.
Qed.

Lemma sort_Strings_perm (l : list string) : sort_Strings l ≡ₚ l.
Proof.
  induction l as [|x l IH]; simpl; [done|].
  rewrite insert_string_perm. by rewrite IH.
Qed.

Lemma insert_string_sorted (x : string) (l : list string) :
  StronglySorted string_le l -> StronglySorted string_le (insert_string x l).
Proof.
  induction 1 as [|y l Hl IH Hy]; simpl.
  - repeat constructor.
  - destruct (String.leb x y) eqn:Hxy.
    + constructor; [by constructor|].
      constructor; [done|].
      eapply Forall_impl; [exact Hy|]. intros z Hz.
      by apply (string_leb_trans x y z).
    + constructor; [done|].
      rewrite insert_string_perm. constructor; [|done].
      destruct (String.leb_total x y) as [H|H]; [congruence|done].
Qed.

Lemma sort_Strings_sorted (l : list string) :
  StronglySorted string_le (sort_Strings l).
Proof.
  induction l as [|x l IH]; simpl; [constructor|].
  by apply insert_string_sorted.
Qed.

Lemma sorted_le_perm_eq (l1 l2 : list string) :
  StronglySorted string_le l1 -> StronglySorted string_le l2 ->
  l1 ≡ₚ l2 -> l1 = l2.
Proof.
  intros H1. revert l2.
  induction H1 as [|x l1 Hl1 IH Hx]; intros l2 H2 Hp.
  - by apply Permutation_nil in Hp.
  - destruct H2 as [|y l2 Hl2 Hy].
    + symmetry in Hp. by apply Permutation_nil in Hp.
    + assert (Hxy : x = y).
      { apply String.leb_antisym.
        - assert (Hin : y ∈ x :: l1) by (rewrite Hp; left).
          apply elem_of_cons in Hin as [->|Hin].
          + apply string_leb_ltb. by right.
          + by apply (proj1 (Forall_forall _ _) Hx).
        - assert (Hin : x ∈ y :: l2) by (rewrite <- Hp; left).
          apply elem_of_cons in Hin as [->|Hin].
          + apply string_leb_ltb. by right.
          + by apply (proj1 (Forall_forall _ _) Hy). }
      subst y. f_equal. apply IH; [done|].
      by apply Permutation_cons_inv in Hp.
Qed.

Lemma sort_Strings_perm_eq (l1 l2 : list string) :
  l1 ≡ₚ l2 -> sort_Strings l1 = sort_Strings l2.
Proof.
  intros Hp. apply sorted_le_perm_eq; try apply sort_Strings_sorted.
  by rewrite !sort_Strings_perm.
Qed.

Lemma sorted_le_NoDup_lt (l : list string) :
  StronglySorted string_le l -> NoDup l -> StronglySorted string_lt l.
Proof.
  induction 1 as [|x l Hl IH Hx]; intros Hnd; [constructor|].
  apply NoDup_cons in Hnd as [Hnin Hnd].
  constructor; [by apply IH|].
  apply Forall_forall. intros y Hy.
  pose proof (proj1 (Forall_forall _ _) Hx y Hy) as Hxy.
  apply string_leb_ltb in Hxy as [Hlt| ->]; [done|].
  by destruct Hnin.
Qed.

Section EngineFacts.
Context {ext : External} {js : JSON} {mr : MapRange} {fm : Fmt}.

(** ** Extension fields *)

Lemma addMap_keys_acc (l : list (string * value)) (mk : list string) :
  fold_left (fun mk '(k, v) => if skipped v then mk else mk ++ [k]) l mk =
  mk ++ map fst (filter (fun kv => skipped kv.2 = false) l).
Proof.
  revert mk. induction l as [|[k v] l IH]; intros mk; simpl.
  - by rewrite app_nil_r.
  - rewrite IH. rewrite filter_cons. simpl.
    case_decide as Hv; rewrite Hv || rewrite (not_false_is_true _ Hv).
    + simpl. by rewrite <- app_assoc.
    + reflexivity.
Qed.

Lemma addMap_keys_sorted (input : gmap string value) :
  sort_Strings (addMap_keys input) = Other_keys input.
Proof.
  unfold addMap_keys, Other_keys. rewrite addMap_keys_acc. simpl.
  apply sort_Strings_perm_eq.
  apply fmap_Permutation, filter_Permutation, range_perm.
Qed.

Lemma addMap_emit_fields (input : gmap string value) (mk : list string)
    (buf : string) :
  addMap_emit input mk buf =
  emit_all "," (map (fun k => (k, OAny (map_index input k))) mk) buf.
Proof.
  revert buf. induction mk as [|k mk IH]; intros buf; simpl; [done|].
  apply rbind_ext. intros buf'. apply IH.
Qed.

Lemma addMap_fields (input : gmap string value) (buf : string) :
  addMap input buf =
  emit_all ","
    (map (fun k => (k, OAny (map_index input k))) (Other_keys input)) buf.
Proof.
  unfold addMap. by rewrite addMap_keys_sorted, addMap_emit_fields.
Qed.

Lemma Other_keys_elem (input : gmap string value) (k : string) :
  k ∈ Other_keys input <->
  exists v, input !! k = Some v /\ skipped v = false.
Proof.
  unfold Other_keys. rewrite sort_Strings_perm.
  rewrite list_elem_of_fmap. split.
  - intros ([k' v] & -> & Hin). simpl.
    apply list_elem_of_filter in Hin as [Hv Hin].
    apply elem_of_map_to_list in Hin. by exists v.
  - intros (v & Hk & Hv). exists (k, v). split; [done|].
    apply list_elem_of_filter. split; [done|].
    by apply elem_of_map_to_list.
Qed.

Lemma Other_keys_NoDup (input : gmap string value) :
  NoDup (Other_keys input).
Proof.
  unfold Other_keys. rewrite sort_Strings_perm.
  apply (NoDup_fmap_fst _).
  - intros k v1 v2 H1 H2.
    apply list_elem_of_filter in H1 as [_ H1].
    apply list_elem_of_filter in H2 as [_ H2].
    apply elem_of_map_to_list in H1, H2. congruence.
  - apply NoDup_filter, NoDup_map_to_list.
Qed.

Lemma Other_keys_sorted (input : gmap string value) :
  StronglySorted string_lt (Other_keys input).
Proof.
  apply sorted_le_NoDup_lt; [|apply Other_keys_NoDup].
  apply sort_Strings_sorted.
Qed.

Lemma skipped_iff (v : value) :
  skipped v = true <->
  v = VString "" \/ v = VNil \/ v = VInt 0 \/ v = VBool false.
Proof.
  split.
  - destruct v as [|[|]|[| |]|[|]| | | | |]; simpl; try done; eauto.
  - intros [->|[->|[->| ->]]]; reflexivity.
Qed.

(** ** The serializer writes its fields in order *)

Lemma emit_all_app (prepend : string) (fs1 fs2 : list field) (buf : string) :
  emit_all prepend (fs1 ++ fs2) buf =
  emit_all prepend fs1 buf ≫= emit_all prepend fs2.
Proof.
  revert buf. induction fs1 as [|[name o] fs1 IH]; intros buf; simpl.
  - reflexivity.
  - rewrite rbind_assoc. apply rbind_ext. intros buf'. apply IH.
Qed.

Lemma emit_all_one (prepend name : string) (o : obj) (buf : string) :
  emit_all prepend [(name, o)] buf = marshalAdd prepend buf name o.
Proof. simpl. by destruct (marshalAdd prepend buf name o). Qed.

Lemma emit_all_when (P : Prop) `{Decision P} (prepend name : string)
    (o : obj) (buf : string) :
  emit_all prepend (when P (name, o)) buf =
  if decide P then marshalAdd prepend buf name o else Ok buf.
Proof.
  unfold when. destruct (decide P); [apply emit_all_one|reflexivity].
Qed.

Lemma MarshalJSON_unfold (pd : PrimitiveDescription) :
  MarshalJSON pd =
  '(buf, prepend) ←
    (if decide (InputName pd <> "") then
       buf ← marshalAdd "" "{" "InputName" (InputName pd);
       Ok (buf, ",")
     else Ok ("{", ""));
  buf ← marshalAdd prepend buf "OperatorType" (OperatorType pd);
  MarshalJSON_rest pd buf.
Proof. destruct pd. reflexivity. Qed.

Lemma marshalAdd_Destination (prepend buf : string) (d : key_Destination) :
  marshalAdd prepend buf "TargetDestination" (ODestination d) =
  dest ← slice_from (Destination_String d) 11;
  marshalAdd prepend buf "TargetDestination" dest.
Proof.
  unfold marshalAdd. simpl. unfold Encode at 1. simpl.
  destruct (slice_from (Destination_String d) 11); reflexivity.
Qed.

Lemma MarshalJSON_rest_fields (pd : PrimitiveDescription) (buf : string) :
  MarshalJSON_rest pd buf =
  buf ←
    emit_all ","
      (field_Variant pd ++ field_Keyspace pd ++ field_TargetDestination pd ++
       field_TargetTabletType pd ++ fields_Stats pd ++ fields_Other pd ++
       field_Inputs pd) buf;
  Ok (buf +:+ "}").
Proof.
  unfold MarshalJSON_rest.
  rewrite emit_all_app, rbind_assoc.
  unfold field_Variant. rewrite emit_all_when.
  apply rbind_ext. clear buf. intros buf.
  rewrite emit_all_app, rbind_assoc.
  assert (Hks : emit_all "," (field_Keyspace pd) buf =
                match Keyspace pd with
                | Some ks => marshalAdd "," buf "Keyspace" ks
                | None => Ok buf
                end).
  { unfold field_Keyspace. destruct (Keyspace pd); simpl; [|done].
    apply emit_all_one. }
  rewrite Hks. apply rbind_ext. clear buf Hks. intros buf.
  rewrite emit_all_app, rbind_assoc.
  assert (Hd : emit_all "," (field_TargetDestination pd) buf =
               match TargetDestination pd with
               | Some d =>
                   dest ← slice_from (Destination_String d) 11;
                   marshalAdd "," buf "TargetDestination" dest
               | None => Ok buf
               end).
  { unfold field_TargetDestination. destruct (TargetDestination pd); simpl.
    - rewrite <- marshalAdd_Destination.
      by destruct (marshalAdd _ _ _ (ODestination k)).
    - done. }
  rewrite Hd. apply rbind_ext. clear buf Hd. intros buf.
  rewrite emit_all_app, rbind_assoc.
  unfold field_TargetTabletType. rewrite emit_all_when.
  apply rbind_ext. clear buf. intros buf.
  rewrite emit_all_app, rbind_assoc.
  assert (Hst : emit_all "," (fields_Stats pd) buf =
                if (0 <? length (Stats pd))%nat then
                  buf ← marshalAdd "," buf "NoOfCalls"
                          (Z.of_nat (length (Stats pd)));
                  buf ← marshalAdd "," buf "AvgNumberOfRows"
                          (average (Stats pd));
                  m ← median (Stats pd);
                  marshalAdd "," buf "MedianNumberOfRows" m
                else Ok buf).
  { unfold fields_Stats. destruct (Stats pd) as [|x st] eqn:Hst; [done|].
    rewrite median_middle by done.
    change (0 <? length (x :: st))%nat with true. cbv iota.
    cbn [emit_all]. apply rbind_ext. intros buf1.
    apply rbind_ext. intros buf2.
    rewrite rbind_Ok.
    by destruct (marshalAdd _ _ "MedianNumberOfRows" _). }
  rewrite Hst. apply rbind_ext. clear buf Hst. intros buf.
  rewrite emit_all_app, rbind_assoc.
  unfold fields_Other. rewrite <- addMap_fields.
  apply rbind_ext. clear buf. intros buf.
  assert (Hin : emit_all "," (field_Inputs pd) buf =
                match Inputs pd with
                | Some ((_ :: _) as inputs) =>
                    marshalAdd (H := Encode_Marshalers MarshalJSON)
                      "," buf "Inputs" inputs
                | _ => Ok buf
                end).
  { unfold field_Inputs. rewrite emit_all_when. unfold len, elems.
    destruct (Inputs pd) as [[|c l]|]; simpl; try done. }
  by rewrite Hin.
Qed.

Lemma MarshalJSON_serialize (pd : PrimitiveDescription) :
  MarshalJSON pd = serialize (MarshalJSON_fields pd).
Proof.
  rewrite MarshalJSON_unfold. unfold MarshalJSON_fields, field_InputName, when.
  destruct (decide (InputName pd <> "")) as [Hn|Hn].
  - unfold serialize. cbn [app open_fields]. rewrite !rbind_assoc.
    apply rbind_ext. intros buf. rewrite rbind_Ok.
    cbn [field_OperatorType app emit_all]. rewrite rbind_assoc.
    apply rbind_ext. intros buf'. apply MarshalJSON_rest_fields.
  - unfold serialize. cbn [app open_fields field_OperatorType].
    rewrite rbind_Ok, rbind_assoc.
    apply rbind_ext. intros buf. apply MarshalJSON_rest_fields.
Qed.

(** ** The bytes the serializer returns *)

Lemma string_app_assoc (s1 s2 s3 : string) :
  (s1 +:+ s2) +:+ s3 = s1 +:+ (s2 +:+ s3).
Proof.
  induction s1 as [|a s1 IH]; [done|].
  change (String a ((s1 +:+ s2) +:+ s3) = String a (s1 +:+ (s2 +:+ s3))).
  by rewrite IH.
Qed.

Lemma string_app_nil_r (s : string) : s +:+ "" = s.
Proof.
  induction s as [|a s IH]; [done|].
  change (String a (s +:+ "") = String a s). by rewrite IH.
Qed.

Lemma emit_all_ok (fs : list field) (bs : list string) :
  Forall2 (fun f b => Encode f.2 = Ok b) fs bs ->
  forall buf : string,
    emit_all "," fs buf =
    Ok (buf +:+ (if decide (fs = []) then "" else ",") +:+
        String.concat "," (zip_with (fun f b => written f.1 b) fs bs)).
Proof.
  induction 1 as [|[name o] b fs bs Hb Hfs IH]; intros buf.
  - simpl. by rewrite string_app_nil_r.
  - cbn [emit_all]. unfold marshalAdd. simpl in Hb. rewrite Hb. simpl.
    rewrite IH. f_equal. unfold written.
    destruct Hfs as [|f b' fs bs Hb' Hfs]; simpl.
    + rewrite !string_app_assoc. change ("" +:+ "") with "".
      by rewrite (string_app_nil_r b).
    + by rewrite !string_app_assoc.
Qed.

Lemma serialize_ok (fs : list field) (bs : list string) :
  fs <> [] ->
  Forall2 (fun f b => Encode f.2 = Ok b) fs bs ->
  serialize fs =
    Ok ("{" +:+
        String.concat "," (zip_with (fun f b => written f.1 b) fs bs) +:+
        "}").
Proof.
  intros Hne Hall. destruct Hall as [|[name o] b fs bs Hb Hfs]; [done|].
  unfold serialize, open_fields, marshalAdd. simpl in Hb. rewrite Hb.
  simpl. rewrite (emit_all_ok _ _ Hfs). simpl. f_equal. unfold written.
  destruct Hfs as [|f b' fs bs Hb' Hfs]; simpl.
  - rewrite ?string_app_assoc. reflexivity.
  - rewrite ?string_app_assoc. reflexivity.
Qed.

Lemma MarshalJSON_fields_nonempty (pd : PrimitiveDescription) :
  MarshalJSON_fields pd <> [].
Proof.
  unfold MarshalJSON_fields, field_OperatorType.
  intros H. apply app_eq_nil in H as [_ H]. done.
Qed.

Lemma emit_all_failure (prepend : string) (fs1 fs2 : list field)
    (name : string) (o : obj) :
  Forall (fun f => exists b, Encode f.2 = Ok b) fs1 ->
  forall buf : string,
    (forall e, Encode o = Err e ->
       emit_all prepend (fs1 ++ (name, o) :: fs2) buf = Err e) /\
    (forall msg, Encode o = Panic msg ->
       emit_all prepend (fs1 ++ (name, o) :: fs2) buf = Panic msg).
Proof.
  induction 1 as [|[n1 o1] fs1 [b1 Hb1] _ IH]; intros buf.
  - cbn [app emit_all]. unfold marshalAdd.
    split; intros x Hx; by rewrite Hx.
  - cbn [app emit_all]. unfold marshalAdd. simpl in Hb1.
    rewrite Hb1. simpl. apply IH.
Qed.

Lemma serialize_first_failure (fs1 fs2 : list field) (name : string)
    (o : obj) :
  Forall (fun f => exists b, Encode f.2 = Ok b) fs1 ->
  (forall e, Encode o = Err e ->
     serialize (fs1 ++ (name, o) :: fs2) = Err e) /\
  (forall msg, Encode o = Panic msg ->
     serialize (fs1 ++ (name, o) :: fs2) = Panic msg).
Proof.
  intros Hok. unfold serialize.
  destruct Hok as [|[n1 o1] fs1 [b1 Hb1] Hok].
  - cbn [app open_fields emit_all]. unfold marshalAdd.
    split; intros x Hx; by rewrite Hx.
  - cbn [app open_fields]. unfold marshalAdd. simpl in Hb1.
    rewrite Hb1. simpl.
    destruct (emit_all_failure "," fs1 fs2 name o Hok
                (("{" +:+ "" +:+ dquote +:+ n1 +:+ dquote +:+ ":") +:+ b1))
      as [He Hp].
    split; intros x Hx.
    + by rewrite (He x Hx).
    + by rewrite (Hp x Hx).
Qed.

Lemma written_entries (fs : list field) (bs : list string) :
  map (fun e : string * string => written e.1 e.2) (zip fs.*1 bs) =
  zip_with (fun (f : field) b => written f.1 b) fs bs.
Proof.
  revert bs. induction fs as [|f fs IH]; intros [|b bs]; simpl; try done.
  by rewrite IH.
Qed.

Lemma serialize_object (fs : list field) (bs : list string) :
  fs <> [] ->
  Forall2 (fun f b => Encode f.2 = Ok b) fs bs ->
  serialize fs = Ok (object (zip fs.*1 bs)).
Proof.
  intros Hne Hall. rewrite (serialize_ok _ _ Hne Hall).
  unfold object. by rewrite written_entries.
Qed.

Lemma emit_all_Ok_inv (prepend : string) (fs : list field) :
  forall buf out : string,
    emit_all prepend fs buf = Ok out ->
    exists bs, Forall2 (fun f b => Encode f.2 = Ok b) fs bs.
Proof.
  induction fs as [|[name o] fs IH]; intros buf out Hout.
  - by exists [].
  - cbn [emit_all] in Hout. unfold marshalAdd in Hout.
    destruct (Encode o) as [b| |] eqn:Hb; simpl in Hout; [|done|done].
    destruct (IH _ _ Hout) as [bs Hbs].
    exists (b :: bs). by constructor.
Qed.

Lemma serialize_Ok_inv (fs : list field) (out : string) :
  serialize fs = Ok out ->
  exists bs, Forall2 (fun f b => Encode f.2 = Ok b) fs bs.
Proof.
  unfold serialize. destruct fs as [|[name o] fs]; [by exists []|].
  cbn [open_fields]. unfold marshalAdd.
  destruct (Encode o) as [b| |] eqn:Hb; simpl; [|done|done].
  destruct (emit_all "," fs _) as [buf| |] eqn:Hbuf; simpl; [|done|done].
  intros _. destruct (emit_all_Ok_inv _ _ _ _ Hbuf) as [bs Hbs].
  exists (b :: bs). by constructor.
Qed.

(** The serializer returns exactly when the encoder takes the value of
    every field, and then the object of the fields. *)
Lemma MarshalJSON_Ok_iff (pd : PrimitiveDescription) (out : string) :
  MarshalJSON pd = Ok out <->
  exists bs : list string,
    Forall2 (fun f b => Encode f.2 = Ok b) (MarshalJSON_fields pd) bs /\
    out = object (zip (MarshalJSON_fields pd).*1 bs).
Proof.
  rewrite MarshalJSON_serialize. split.
  - intros Hout. destruct (serialize_Ok_inv _ _ Hout) as [bs Hbs].
    exists bs. split; [done|].
    rewrite (serialize_object _ _ (MarshalJSON_fields_nonempty pd) Hbs)
      in Hout.
    by injection Hout.
  - intros (bs & Hbs & ->).
    apply serialize_object; [apply MarshalJSON_fields_nonempty|done].
Qed.

(** C1. The serializer returns exactly when the encoder takes the value of
    each of these fields, and what it returns is then the JSON object with
    their keys and the encoder's bytes, in this order: [InputName] when
    non-empty, [OperatorType] always, [Variant] when non-empty, [Keyspace]
    and [TargetDestination] when present, [TargetTabletType] when not the
    unknown sentinel, the three stats fields, the extension fields, and
    [Inputs] when the child sequence is non-empty. *)
Theorem MarshalJSON_field_order (pd : PrimitiveDescription)
    (out : string) :
  let fields :=
    when (InputName pd <> "") ("InputName", OString (InputName pd)) ++
    [("OperatorType", OString (OperatorType pd))] ++
    when (Variant pd <> "") ("Variant", OString (Variant pd)) ++
    from_option (fun ks => [("Keyspace", OKeyspace ks)]) [] (Keyspace pd) ++
    from_option (fun d => [("TargetDestination", ODestination d)]) []
      (TargetDestination pd) ++
    when (TargetTabletType pd <> TabletType_UNKNOWN)
      ("TargetTabletType",
       OString (TabletType_String (TargetTabletType pd))) ++
    fields_Stats pd ++
    fields_Other pd ++
    when (len (Inputs pd) <> 0%nat)
      ("Inputs", OInputs (elems (Inputs pd))) in
  MarshalJSON pd = Ok out <->
  exists bs : list string,
    Forall2 (fun f b => Encode f.2 = Ok b) fields bs /\
    out =
      "{" +:+
      String.concat ","
        (map (fun e => dquote +:+ e.1 +:+ dquote +:+ ":" +:+ e.2)
           (zip fields.*1 bs)) +:+
      "}".
Proof. intros fields. apply MarshalJSON_Ok_iff. Qed.

(** ** The stats fields *)

Lemma zip_names_app (fs1 fs2 : list field) (bs1 bs2 : list string) :
  length fs1 = length bs1 ->
  zip (fs1 ++ fs2).*1 (bs1 ++ bs2) = zip fs1.*1 bs1 ++ zip fs2.*1 bs2.
Proof.
  intros Hlen. rewrite fmap_app. apply zip_with_app.
  by rewrite length_fmap.
Qed.







(** ** The extension fields *)

Lemma emit_all_commas (fs : list field) (bs : list string) :
  Forall2 (fun f b => Encode f.2 = Ok b) fs bs ->
  forall buf : string,
    emit_all "," fs buf =
    Ok (buf +:+
        String.concat ""
          (map (fun e : string * string => "," +:+ written e.1 e.2)
             (zip fs.*1 bs))).
Proof.
  induction 1 as [|[name o] b fs bs Hb Hfs IH]; intros buf.
  - simpl. by rewrite string_app_nil_r.
  - cbn [emit_all]. unfold marshalAdd. simpl in Hb. rewrite Hb. simpl.
    rewrite IH. f_equal. unfold written.
    destruct Hfs as [|f b' fs bs Hb' Hfs]; simpl.
    + rewrite !string_app_assoc. by rewrite (string_app_nil_r b).
    + rewrite !string_app_assoc. reflexivity.
Qed.

Lemma names_of_keys (input : gmap string value) (keys : list string) :
  (map (fun k => (k, OAny (map_index input k))) keys).*1 = keys.
Proof. induction keys as [|k l IH]; [done|]. simpl. f_equal. exact IH. Qed.

Lemma Forall2_keys (input : gmap string value) (keys : list string)
    (bs : list string) :
  Forall2 (fun (f : field) b => Encode f.2 = Ok b)
    (map (fun k => (k, OAny (map_index input k))) keys) bs <->
  Forall2 (fun k b => Encode_any (map_index input k) = Ok b) keys bs.
Proof.
  revert bs. induction keys as [|k l IH]; intros bs; simpl.
  - split; intros ->%Forall2_nil_inv_l; constructor.
  - split; intros (b & bs' & Hb & Hbs & ->)%Forall2_cons_inv_l;
      (constructor; [exact Hb|by apply IH]).
Qed.

(** C2, as the code has it.  [addMap] writes the extension keys in strictly
    ascending order, each after a comma, quoted, and followed by a colon
    and the bytes the encoder gives for its value; it returns exactly when
    the encoder takes each of these values.  The keys written are those
    whose value is none of: the empty string, the [nil] interface, the
    [int] zero, [false].  Every other value is written: an empty sequence,
    a negative number, a non-empty string, and also a zero of another
    numeric type such as [int64] or [float64], and a [nil] of a slice,
    pointer or map type, which is not the [nil] interface. *)
Theorem addMap_sorted_nondefault (input : gmap string value) (buf : string) :
  exists keys : list string,
    StronglySorted string_lt keys /\
    (forall k : string,
        k ∈ keys <->
        exists v : value,
          input !! k = Some v /\
          ~ (v = VString "" \/ v = VNil \/ v = VInt 0 \/ v = VBool false)) /\
    (forall out : string,
        addMap input buf = Ok out <->
        exists bs : list string,
          Forall2 (fun k b => Encode_any (map_index input k) = Ok b)
            keys bs /\
          out =
            buf +:+
            String.concat ""
              (map (fun e : string * string =>
                      "," +:+ dquote +:+ e.1 +:+ dquote +:+ ":" +:+ e.2)
                 (zip keys bs))) /\
    skipped (VStrings (Some [])) = false /\
    skipped (VInt (-1)) = false /\
    skipped (VString "x") = false /\
    skipped (VInt64 0) = false /\
    skipped (VFloat64 (S754_zero false)) = false /\
    skipped (VStrings None) = false /\
    (forall ty : string, skipped (VTypedNil ty) = false).
Proof.
  exists (Other_keys input).
  split; [apply Other_keys_sorted|].
  split; [|split; [|done]].
  - intros k. rewrite Other_keys_elem.
    split; intros (v & Hk & Hv); exists v; (split; [done|]).
    + rewrite <- skipped_iff. by rewrite Hv.
    + rewrite <- skipped_iff in Hv. by destruct (skipped v).
  - intros out. rewrite addMap_fields. split.
    + intros Hout. destruct (emit_all_Ok_inv _ _ _ _ Hout) as [bs Hbs].
      exists bs. split; [by apply Forall2_keys|].
      rewrite (emit_all_commas _ _ Hbs), names_of_keys in Hout.
      by injection Hout.
    + intros (bs & Hbs & ->). apply Forall2_keys in Hbs.
      by rewrite (emit_all_commas _ _ Hbs), names_of_keys.
Qed.

(** ** The target destination *)

Lemma string_drop_split (n : nat) (s : string) :
  (n <= String.length s)%nat ->
  exists prefix : string,
    s = prefix +:+ string_drop n s /\ String.length prefix = n.
Proof.
  revert s. induction n as [|n IH]; intros s Hn.
  - by exists "".
  - destruct s as [|a s]; simpl in *; [lia|].
    destruct (IH s) as (prefix & Hs & Hlen); [lia|].
    exists (String a prefix). split; [|simpl; by rewrite Hlen].
    change (String a s = String a (prefix +:+ string_drop n s)).
    by f_equal.
Qed.

Lemma slice_from_in_range (s : string) (n : nat) :
  (n <= String.length s)%nat -> slice_from s n = Ok (string_drop n s).
Proof.
  intros Hn. unfold slice_from.
  by replace (n <=? String.length s)%nat with true
    by (symmetry; apply Nat.leb_le; lia).
Qed.

Lemma slice_from_out_of_range (s : string) (n : nat) :
  (String.length s < n)%nat ->
  slice_from s n = Panic "slice bounds out of range".
Proof.
  intros Hn. unfold slice_from.
  by replace (n <=? String.length s)%nat with false
    by (symmetry; apply Nat.leb_gt; lia).
Qed.

Lemma MarshalJSON_fields_split (pd : PrimitiveDescription)
    (d : key_Destination) :
  TargetDestination pd = Some d ->
  MarshalJSON_fields pd =
    fields_before_TargetDestination pd ++
    [("TargetDestination", ODestination d)] ++
    field_TargetTabletType pd ++ fields_Stats pd ++ fields_Other pd ++
    field_Inputs pd.
Proof.
  intros Hd.
  unfold MarshalJSON_fields, fields_before_TargetDestination,
    field_TargetDestination.
  rewrite Hd. cbn [from_option]. by rewrite <- !app_assoc.
Qed.

(** C6. When the target destination is present, its textual form has the
    11 characters of the prefix and the encoder takes the value of every
    field, the serializer returns the object in which, between the fields
    up to [Keyspace] and the fields from [TargetTabletType] on, the key
    [TargetDestination] is followed by the bytes the encoder gives for
    that textual form without its first 11 characters. *)
Theorem MarshalJSON_TargetDestination (pd : PrimitiveDescription)
    (d : key_Destination) (bs1 bs2 : list string) :
  TargetDestination pd = Some d ->
  (11 <= String.length (Destination_String d))%nat ->
  Forall2 (fun f b => Encode f.2 = Ok b)
    (fields_before_TargetDestination pd) bs1 ->
  Forall2 (fun f b => Encode f.2 = Ok b)
    (field_TargetTabletType pd ++ fields_Stats pd ++ fields_Other pd ++
     field_Inputs pd) bs2 ->
  exists prefix dest : string,
    Destination_String d = prefix +:+ dest /\
    String.length prefix = 11%nat /\
    forall b : string,
      Encode_string dest = Ok b ->
      MarshalJSON pd =
        Ok (object
              (zip (fields_before_TargetDestination pd).*1 bs1 ++
               [("TargetDestination", b)] ++
               zip (field_TargetTabletType pd ++ fields_Stats pd ++
                    fields_Other pd ++ field_Inputs pd).*1 bs2)).
Proof.
  intros Hd Hlen H1 H2.
  destruct (string_drop_split 11 _ Hlen) as (prefix & Hs & Hp).
  exists prefix, (string_drop 11 (Destination_String d)).
  split; [done|]. split; [done|]. intros b Hb.
  apply MarshalJSON_Ok_iff.
  exists (bs1 ++ [b] ++ bs2).
  rewrite (MarshalJSON_fields_split pd d Hd). split.
  - apply Forall2_app; [done|]. apply Forall2_app; [|done].
    constructor; [|constructor]. simpl. unfold Encode at 1. simpl.
    by rewrite slice_from_in_range.
  - rewrite (zip_names_app _ _ _ _ (Forall2_length _ _ _ H1)).
    by rewrite (zip_names_app [_] _ [_] _ eq_refl).
Qed.

Lemma open_fields_app (fs1 fs2 : list field) :
  fs1 <> [] ->
  open_fields (fs1 ++ fs2) = open_fields fs1 ≫= emit_all "," fs2.
Proof.
  destruct fs1 as [|[n o] fs1]; [done|]. intros _. simpl.
  rewrite rbind_assoc. apply rbind_ext. intros buf. apply emit_all_app.
Qed.

Lemma fields_before_TargetDestination_nonempty (pd : PrimitiveDescription) :
  fields_before_TargetDestination pd <> [].
Proof.
  unfold fields_before_TargetDestination, field_OperatorType.
  destruct (field_InputName pd); discriminate.
Qed.

Lemma MarshalJSON_short_destination (pd : PrimitiveDescription)
    (d : key_Destination) :
  TargetDestination pd = Some d ->
  (String.length (Destination_String d) < 11)%nat ->
  MarshalJSON pd =
    open_fields (fields_before_TargetDestination pd) ≫=
    fun _ => Panic "slice bounds out of range".
Proof.
  intros Hd Hlen.
  rewrite MarshalJSON_serialize, (MarshalJSON_fields_split pd d Hd).
  unfold serialize.
  rewrite open_fields_app by apply fields_before_TargetDestination_nonempty.
  rewrite rbind_assoc. apply rbind_ext. intros buf.
  cbn [app emit_all]. rewrite marshalAdd_Destination.
  by rewrite slice_from_out_of_range.
Qed.

(** C10. With a target destination whose textual form is shorter than 11
    characters the serializer never returns an output; once the fields
    before it are written it stops with the out-of-range panic of the slice
    expression, not with an error value. *)
Theorem MarshalJSON_short_destination_panics (pd : PrimitiveDescription)
    (d : key_Destination) :
  TargetDestination pd = Some d ->
  (String.length (Destination_String d) < 11)%nat ->
  (forall out : string, MarshalJSON pd <> Ok out) /\
  (forall out : string,
      serialize (fields_before_TargetDestination pd) = Ok out ->
      MarshalJSON pd = Panic "slice bounds out of range" /\
      forall e : string, MarshalJSON pd <> Err e).
Proof.
  intros Hd Hlen.
  rewrite (MarshalJSON_short_destination pd d Hd Hlen).
  split.
  - intros out. by destruct (open_fields _).
  - intros out. unfold serialize.
    destruct (open_fields _); simpl; try done.
Qed.

(** ** The builder *)

Lemma PrimitiveToPlanDescription_unfold (in_ : Primitive)
    (stats : option (gmap positive RowsReceived)) :
  PrimitiveToPlanDescription in_ stats =
  this ←
    build_inputs (fun input => PrimitiveToPlanDescription input stats)
      (infos in_) 0%nat (children in_)
      (match stats with
       | Some st =>
           set_Stats (default [] (st !! identity in_)) (description in_)
       | None => description in_
       end);
  Ok (if decide (length (children in_) = 0%nat)
      then set_Inputs (Some []) this else this).
Proof. destruct in_. reflexivity. Qed.


(** ** Merging the metadata of a child *)

Lemma set_InputName_set_Other (s : string) (o : gmap string value)
    (pd : PrimitiveDescription) :
  set_InputName s (set_Other o pd) = set_Other o (set_InputName s pd).
Proof. reflexivity. Qed.

(** The merge over an enumeration of distinct keys: the role comes from the
    entry under [InputName], every other entry goes over the child's. *)
Lemma merge_info_list (l : list (string * value))
    (pd : PrimitiveDescription) :
  NoDup l.*1 ->
  (forall v, (inputName, v) ∈ l -> exists s, v = VString s) ->
  merge_info l pd =
    Ok (set_InputName
          (match (list_to_map l : gmap string value) !! inputName with
           | Some (VString s) => s
           | _ => InputName pd
           end)
          (set_Other
             (delete inputName (list_to_map l) ∪ Other pd) pd)).
Proof.
  revert pd. induction l as [|[k v] l IH]; intros pd Hnd Hrole.
  - simpl. rewrite delete_empty, (left_id_L ∅ (∪)). by destruct pd.
  - apply NoDup_cons in Hnd as [Hk Hnd]. simpl in Hk.
    assert (Hnone : (list_to_map l : gmap string value) !! k = None)
      by (by apply not_elem_of_list_to_map_1).
    cbn [merge_info merge_entry list_to_map foldr]. simpl.
    destruct (decide (k = inputName)) as [->|Hne].
    + destruct (Hrole v) as [s ->]; [left|]. simpl.
      rewrite IH; [|done|intros v' Hv'; apply Hrole; by right].
      rewrite Hnone, lookup_insert_eq, delete_insert_eq.
      rewrite (delete_id _ _ Hnone). by destruct pd.
    + simpl. rewrite IH; [|done|intros v' Hv'; apply Hrole; by right].
      rewrite lookup_insert_ne by done.
      rewrite delete_insert_ne by done.
      f_equal. destruct pd; simpl.
      unfold set_InputName, set_Other; simpl. f_equal.
      rewrite <- insert_union_l. symmetry.
      apply insert_union_r.
      rewrite lookup_delete_ne by done. exact Hnone.
Qed.

Lemma merge_info_range (info : gmap string value)
    (pd : PrimitiveDescription) :
  (forall v, info !! inputName = Some v -> exists s, v = VString s) ->
  merge_info (range info) pd = Ok (merged info pd).
Proof.
  intros Hrole.
  assert (Hnd : NoDup (range info).*1).
  { rewrite (range_perm _ info). apply NoDup_fst_map_to_list. }
  assert (Hmap : (list_to_map (range info) : gmap string value) = info).
  { rewrite (list_to_map_proper _ _ Hnd (range_perm _ info)).
    apply list_to_map_to_list. }
  rewrite merge_info_list; [by rewrite Hmap|done|].
  intros v Hv. apply Hrole.
  rewrite (range_perm _ info) in Hv. by apply elem_of_map_to_list.
Qed.

(** A role of another dynamic type than [string] stops the merge with the
    panic of the type assertion. *)
Lemma merge_info_not_string (l : list (string * value))
    (pd : PrimitiveDescription) (v : value) :
  (inputName, v) ∈ l ->
  (forall s, v <> VString s) ->
  NoDup l.*1 ->
  merge_info l pd =
    Panic "interface conversion: interface {} is not string".
Proof.
  revert pd. induction l as [|[k w] l IH]; intros pd Hin Hv Hnd.
  - by apply elem_of_nil in Hin.
  - apply NoDup_cons in Hnd as [Hk Hnd]. simpl in Hk.
    apply elem_of_cons in Hin as [Heq|Hin].
    + injection Heq as <- <-. simpl.
      destruct (decide (inputName = inputName)); [|done].
      destruct v; try done. by destruct (Hv s).
    + cbn [merge_info merge_entry].
      destruct (decide (k = inputName)) as [->|Hne].
      * destruct Hk. apply list_elem_of_fmap. by exists (inputName, v).
      * simpl. by apply IH.
Qed.

(** ** The loop over the children *)

Lemma append_all_elems (pds : list PrimitiveDescription)
    (this : PrimitiveDescription) :
  elems (Inputs (append_all this pds)) = elems (Inputs this) ++ pds.
Proof.
  unfold append_all.
  revert this. induction pds as [|pd pds IH]; intros this; simpl.
  - by rewrite app_nil_r.
  - rewrite IH. simpl. by rewrite <- app_assoc.
Qed.

Lemma append_all_nonempty (pds : list PrimitiveDescription)
    (this : PrimitiveDescription) :
  pds <> [] ->
  Inputs (append_all this pds) = Some (elems (Inputs this) ++ pds).
Proof.
  assert (Hsome : forall pds this,
            is_Some (Inputs this) ->
            Inputs (append_all this pds) = Some (elems (Inputs this) ++ pds)).
  { unfold append_all. clear. intros pds.
    induction pds as [|pd pds IH]; intros this [l Hl]; simpl.
    - by rewrite Hl, app_nil_r.
    - rewrite IH by (by eexists). simpl. by rewrite <- app_assoc. }
  destruct pds as [|pd pds]; [done|]. intros _.
  change (append_all this (pd :: pds))
    with (append_all (set_Inputs (append (Inputs this) pd) this) pds).
  rewrite Hsome by (by eexists). simpl. by rewrite <- app_assoc.
Qed.

Lemma append_all_frame (pds : list PrimitiveDescription)
    (this : PrimitiveDescription) :
  OperatorType (append_all this pds) = OperatorType this /\
  Variant (append_all this pds) = Variant this /\
  Keyspace (append_all this pds) = Keyspace this /\
  TargetDestination (append_all this pds) = TargetDestination this /\
  TargetTabletType (append_all this pds) = TargetTabletType this /\
  Other (append_all this pds) = Other this /\
  InputName (append_all this pds) = InputName this /\
  Stats (append_all this pds) = Stats this.
Proof.
  unfold append_all.
  revert this. induction pds as [|pd pds IH]; intros this; simpl; [done|].
  destruct (IH (set_Inputs (append (Inputs this) pd) this))
    as (?&?&?&?&?&?&?&?).
  by repeat split.
Qed.

Lemma build_inputs_ok
    (build : Primitive -> result PrimitiveDescription)
    (infos : slice (gmap string value)) (inputs : list Primitive)
    (pds : list PrimitiveDescription) :
  Forall2 (fun c pd => build c = Ok pd) inputs pds ->
  forall (idx : nat) (this : PrimitiveDescription),
    infos_ok infos idx (length inputs) ->
    build_inputs build infos idx inputs this =
      Ok (append_all this
            (imap (fun j pd => augmented infos (idx + j) pd) pds)).
Proof.
  induction 1 as [|c pd inputs pds Hc _ IH]; intros idx this Hok; [done|].
  cbn [build_inputs]. rewrite Hc, rbind_Ok.
  assert (Haug :
    match infos with
    | Some infos =>
        match infos !! idx with
        | Some info => merge_info (range info) pd
        | None => Panic index_out_of_range
        end
    | None => Ok pd
    end = Ok (augmented infos idx pd)).
  { unfold augmented. destruct infos as [l|]; [|done].
    destruct (Hok l eq_refl 0%nat) as (info & Hl & Hrole); [simpl; lia|].
    rewrite Nat.add_0_r in Hl. rewrite Hl. simpl.
    by apply merge_info_range. }
  rewrite Haug, rbind_Ok.
  rewrite IH.
  - simpl. rewrite Nat.add_0_r. do 2 f_equal.
    apply imap_ext. intros j x _. simpl. f_equal. lia.
  - intros l Hl j Hj. destruct (Hok l Hl (S j)) as (info & Hi & Hrole).
    + simpl. lia.
    + exists info. split; [|done]. by replace (S idx + j)%nat
        with (idx + S j)%nat by lia.
Qed.

(** C4. When a node supplies metadata, with an entry for every child and
    any role a string, the builder returns, and the child at position
    [idx], built as [pd] and with metadata [info], stands among the inputs
    with the role of [info] as its [InputName] when there is one, and with
    the other entries of [info] put over its own extension map; the role
    entry itself is not put into the map, and the rest of the child is
    as it was built. *)
Theorem PrimitiveToPlanDescription_metadata (in_ : Primitive)
    (stats : option (gmap positive RowsReceived))
    (l : list (gmap string value)) (pds : list PrimitiveDescription) :
  infos in_ = Some l ->
  Forall2 (fun c pd => PrimitiveToPlanDescription c stats = Ok pd)
    (children in_) pds ->
  (length (children in_) <= length l)%nat ->
  (forall info v, info ∈ l -> info !! inputName = Some v ->
     exists s, v = VString s) ->
  exists this : PrimitiveDescription,
    PrimitiveToPlanDescription in_ stats = Ok this /\
    forall (idx : nat) (pd : PrimitiveDescription)
           (info : gmap string value),
      pds !! idx = Some pd -> l !! idx = Some info ->
      exists child : PrimitiveDescription,
        elems (Inputs this) !! (len (Inputs (description in_)) + idx)%nat
          = Some child /\
        InputName child =
          match info !! inputName with
          | Some (VString s) => s
          | _ => InputName pd
          end /\
        Other child = delete inputName info ∪ Other pd /\
        Other child !! inputName = Other pd !! inputName /\
        OperatorType child = OperatorType pd /\
        Variant child = Variant pd /\
        Inputs child = Inputs pd /\
        Stats child = Stats pd.
Proof.
  intros Hinfos Hbuilt Hlen Hrole.
  rewrite PrimitiveToPlanDescription_unfold.
  set (this0 := match stats with
                | Some st => _
                | None => _
                end).
  rewrite (build_inputs_ok _ _ _ _ Hbuilt).
  2:{ intros l' Hl' j Hj. rewrite Hinfos in Hl'. injection Hl' as <-.
      simpl. destruct (lookup_lt_is_Some_2 l j) as [info Hinfo]; [lia|].
      exists info. split; [done|]. intros v Hv.
      apply (Hrole info v); [|done]. by eapply list_elem_of_lookup_2. }
  rewrite rbind_Ok. eexists. split; [reflexivity|].
  intros idx pd info Hpd Hinfo.
  assert (Hne : children in_ <> []).
  { intros Hnil. rewrite Hnil in Hbuilt. apply Forall2_nil_inv_l in Hbuilt.
    by rewrite Hbuilt in Hpd. }
  destruct (decide (length (children in_) = 0%nat)) as [H0|_].
  { by apply length_zero_iff_nil in H0. }
  exists (merged info pd).
  split.
  - rewrite append_all_elems.
    assert (Hthis0 : Inputs this0 = Inputs (description in_))
      by (unfold this0; by destruct stats).
    rewrite Hthis0. unfold len.
    rewrite lookup_app_r by lia.
    replace (length (elems (Inputs (description in_))) + idx -
             length (elems (Inputs (description in_))))%nat with idx by lia.
    rewrite list_lookup_imap, Hpd. simpl.
    unfold augmented. rewrite Hinfos. simpl. by rewrite Hinfo.
  - unfold merged. simpl.
    repeat split; try done.
    rewrite lookup_union, lookup_delete_eq.
    by destruct (Other pd !! inputName).
Qed.

(** ** The graph exporter *)

Lemma PrimitiveDescription_nested_ind (P : PrimitiveDescription -> Prop) :
  (forall pd, Forall P (elems (Inputs pd)) -> P pd) -> forall pd, P pd.
Proof.
  intros H. fix IH 1. intros pd. apply H.
  destruct pd as [? ? ? ? ? ? ? inputs ?]. simpl.
  destruct inputs as [l|]; simpl; [|constructor].
  revert l. fix IHl 1. intros [|c l]; constructor; [apply IH|apply IHl].
Qed.

Lemma addToGraph_unfold (pd : PrimitiveDescription) (g : Graph) :
  addToGraph pd g =
  '(nodes, g) ←
    match Inputs pd with
    | Some inputs => addToGraph_inputs addToGraph inputs [] g
    | None => Ok ([], g)
    end;
  let '(this, g) := AddNode (node_label pd) g in
  let g := fold_left (addToGraph_entry this) (range (Other pd)) g in
  let g := fold_left (fun g n => AddEdge this n g) nodes g in
  Ok (this, g).
Proof. destruct pd. reflexivity. Qed.

Lemma addToGraph_inputs_total (inputs : list PrimitiveDescription) :
  Forall (fun c => forall g, exists n g', addToGraph c g = Ok (n, g')) inputs ->
  forall nodes g,
    exists ns g', addToGraph_inputs addToGraph inputs nodes g = Ok (ns, g').
Proof.
  induction 1 as [|c inputs Hc _ IH]; intros nodes g; simpl.
  - by eexists _, _.
  - destruct (Hc g) as (n & g' & ->). simpl. apply IH.
Qed.

Lemma AddEdge_nodes (this : nat) (ns : list nat) (g : Graph) :
  nodes (fold_left (fun g n => AddEdge this n g) ns g) = nodes g.
Proof.
  revert g. induction ns as [|n ns IH]; intros g; simpl; [done|].
  by rewrite IH.
Qed.

Lemma AddAttribute_all (this : nat) (l : list string) (g : Graph)
    (nd : Node) :
  nodes g !! this = Some nd ->
  nodes (fold_left (fun g s => AddAttribute this s g) l g) !! this =
    Some (mkNode (node_id nd) (node_name nd) (node_attrs nd ++ l)
            (node_tooltip nd)).
Proof.
  revert g nd. induction l as [|s l IH]; intros g nd Hnd; simpl.
  - rewrite app_nil_r. by destruct nd.
  - erewrite IH.
    2:{ simpl. rewrite lookup_alter_eq, Hnd. reflexivity. }
    simpl. by rewrite <- app_assoc.
Qed.

Lemma addToGraph_entries (this : nat) (l : list (string * value))
    (g : Graph) (nd : Node) :
  nodes g !! this = Some nd ->
  nodes (fold_left (addToGraph_entry this) l g) !! this =
    Some (mkNode (node_id nd) (node_name nd)
            (node_attrs nd ++ concat (map entry_attrs l))
            (entries_tooltip (node_tooltip nd) l)).
Proof.
  revert g nd. induction l as [|[k v] l IH]; intros g nd Hnd.
  - simpl. rewrite app_nil_r. by destruct nd.
  - cbn [fold_left map concat]. unfold entries_tooltip. cbn [fold_left].
    fold (entries_tooltip
            (if decide (k = "Query") then Sprint v else node_tooltip nd) l).
    unfold addToGraph_entry at 2, entry_attrs at 1.
    destruct (decide (k = "Query")) as [->|Hq].
    { erewrite IH.
      2:{ simpl. rewrite lookup_alter_eq, Hnd. reflexivity. }
      done. }
    destruct (decide (k = "FieldQuery")) as [->|Hf].
    { erewrite IH by exact Hnd. done. }
    assert (Hone : forall s,
      nodes (fold_left (addToGraph_entry this) l (AddAttribute this s g))
        !! this =
      Some (mkNode (node_id nd) (node_name nd)
              (node_attrs nd ++ [s] ++ concat (map entry_attrs l))
              (entries_tooltip (node_tooltip nd) l))).
    { intros s. erewrite IH.
      2:{ simpl. rewrite lookup_alter_eq, Hnd. reflexivity. }
      simpl. by rewrite <- app_assoc. }
    destruct v; try apply Hone.
    erewrite IH.
    2:{ apply AddAttribute_all. simpl.
        rewrite lookup_alter_eq, Hnd. reflexivity. }
    simpl. by rewrite <- !app_assoc.
Qed.

Lemma entries_tooltip_lookup (l : list (string * value)) (init : string) :
  NoDup l.*1 ->
  entries_tooltip init l =
    from_option Sprint init ((list_to_map l : gmap string value) !! "Query").
Proof.
  unfold entries_tooltip.
  revert init. induction l as [|[k v] l IH]; intros init Hnd; [done|].
  apply NoDup_cons in Hnd as [Hk Hnd]. simpl in Hk.
  cbn [fold_left list_to_map foldr]. simpl.
  destruct (decide (k = "Query")) as [->|Hq].
  - rewrite IH by done. rewrite lookup_insert_eq.
    by rewrite (not_elem_of_list_to_map_1 _ _ Hk).
  - rewrite IH by done. by rewrite lookup_insert_ne.
Qed.

Lemma entries_tooltip_range (m : gmap string value) :
  entries_tooltip "" (range m) = from_option Sprint "" (m !! "Query").
Proof.
  assert (Hnd : NoDup (range m).*1).
  { rewrite (range_perm _ m). apply NoDup_fst_map_to_list. }
  rewrite entries_tooltip_lookup by done.
  rewrite (list_to_map_proper _ _ Hnd (range_perm _ m)).
  by rewrite list_to_map_to_list.
Qed.

Lemma addToGraph_total (pd : PrimitiveDescription) :
  forall g, exists n g', addToGraph pd g = Ok (n, g').
Proof.
  induction pd as [pd IH] using PrimitiveDescription_nested_ind.
  intros g. rewrite addToGraph_unfold.
  destruct (Inputs pd) as [inputs|]; simpl in *.
  - destruct (addToGraph_inputs_total inputs IH [] g) as (ns & g' & ->).
    simpl. by eexists _, _.
  - by eexists _, _.
Qed.

(** C8, as the code has it.  The export of a description returns, and
    the node it adds carries the label of the description; its tooltip is
    the [Query] entry of the extension map, printed, and empty without one;
    its attributes are those of the entries in the order the map is
    ranged over, where [Query] and [FieldQuery] give none, a sequence of
    strings gives the key and then one attribute per element, and any
    other entry gives the single attribute [key:value]. *)
Theorem addToGraph_node (pd : PrimitiveDescription) (g : Graph) :
  exists (this : nat) (g' : Graph),
    addToGraph pd g = Ok (this, g') /\
    nodes g' !! this =
      Some (mkNode this (node_label pd)
              (concat (map entry_attrs (range (Other pd))))
              (from_option Sprint "" (Other pd !! "Query"))).
Proof.
  rewrite addToGraph_unfold.
  assert (Hin : exists ns g1,
    match Inputs pd with
    | Some inputs => addToGraph_inputs addToGraph inputs [] g
    | None => Ok ([], g)
    end = Ok (ns, g1)).
  { destruct (Inputs pd) as [inputs|]; [|by eexists _, _].
    apply addToGraph_inputs_total.
    apply Forall_forall. intros c _. apply addToGraph_total. }
  destruct Hin as (ns & g1 & ->). simpl.
  eexists _, _. split; [reflexivity|].
  rewrite AddEdge_nodes.
  erewrite addToGraph_entries.
  2:{ simpl. apply lookup_insert_eq. }
  simpl. by rewrite entries_tooltip_range.
Qed.

End EngineFacts.

(** * The properties on the examples *)

Import Example.


Lemma MarshalJSON_TargetDestination_witness :
  TargetDestination route = Some "DestinationAllShards()" /\
  (11 <= String.length "DestinationAllShards()")%nat /\
  (exists prefix dest : string,
     "DestinationAllShards()" = prefix +:+ dest /\
     String.length prefix = 11%nat /\
     forall b : string,
       Encode_string dest = Ok b ->
       MarshalJSON route =
         Ok (object
               (zip (fields_before_TargetDestination route).*1 route_front ++
                [("TargetDestination", b)] ++
                zip (field_TargetTabletType route ++ fields_Stats route ++
                     fields_Other route ++ field_Inputs route).*1
                  route_back))) /\
  MarshalJSON route =
    Ok (object
          [("OperatorType", quote "Route" +:+ newline);
           ("Variant", quote "Scatter" +:+ newline);
           ("Keyspace", quote "ks" +:+ newline);
           ("TargetDestination", quote "AllShards()" +:+ newline);
           ("TargetTabletType", quote "REPLICA" +:+ newline);
           ("NoOfCalls", "3" +:+ newline);
           ("AvgNumberOfRows", "4503599627370496p-52" +:+ newline);
           ("MedianNumberOfRows", "4503599627370496p-52" +:+ newline);
           ("FieldQuery", quote "SELECT 1 WHERE 1 != 1" +:+ newline);
           ("Query", quote "SELECT 1" +:+ newline);
           ("Table", quote "t" +:+ newline)]).
Proof.
  assert (Hd : TargetDestination route = Some "DestinationAllShards()")
    by reflexivity.
  assert (Hlen : (11 <= String.length "DestinationAllShards()")%nat)
    by (simpl; lia).
  assert (H1 : Forall2 (fun f b => Encode f.2 = Ok b)
                 (fields_before_TargetDestination route) route_front).
  { let fs := eval vm_compute in (fields_before_TargetDestination route) in
    change (fields_before_TargetDestination route) with fs.
    repeat constructor. }
  assert (H2 : Forall2 (fun f b => Encode f.2 = Ok b)
                 (field_TargetTabletType route ++ fields_Stats route ++
                  fields_Other route ++ field_Inputs route) route_back).
  { let fs := eval vm_compute in
        (field_TargetTabletType route ++ fields_Stats route ++
         fields_Other route ++ field_Inputs route) in
    change (field_TargetTabletType route ++ fields_Stats route ++
            fields_Other route ++ field_Inputs route) with fs.
    repeat constructor. }
  split; [exact Hd|]. split; [exact Hlen|].
  split; [|vm_compute; reflexivity].
  exact (MarshalJSON_TargetDestination route "DestinationAllShards()"
           route_front route_back Hd Hlen H1 H2).
Defined.

Lemma MarshalJSON_short_destination_panics_witness :
  TargetDestination short_destination = Some "Shard" /\
  (String.length "Shard" < 11)%nat /\
  MarshalJSON short_destination = Panic "slice bounds out of range".
Proof.
  assert (Hd : TargetDestination short_destination = Some "Shard")
    by reflexivity.
  assert (Hlen : (String.length "Shard" < 11)%nat) by (simpl; lia).
  split; [exact Hd|]. split; [exact Hlen|].
  destruct (MarshalJSON_short_destination_panics short_destination "Shard"
              Hd Hlen) as [_ Hpanic].
  eapply Hpanic. reflexivity.
Defined.


Lemma PrimitiveToPlanDescription_metadata_witness :
  infos plan = Some [left_info; ∅] /\
  Forall2 (fun c pd => PrimitiveToPlanDescription c None = Ok pd)
    (children plan) [built_route; built_route] /\
  exists this : PrimitiveDescription,
    PrimitiveToPlanDescription plan None = Ok this /\
    exists child : PrimitiveDescription,
      elems (Inputs this) !! 0%nat = Some child /\
      InputName child = "Left" /\
      Other child = <["X" := VString "y"]> ∅.
Proof.
  assert (Hinfos : infos plan = Some [left_info; ∅]) by reflexivity.
  assert (Hbuilt :
    Forall2 (fun c pd => PrimitiveToPlanDescription c None = Ok pd)
      (children plan) [built_route; built_route])
    by (repeat constructor).
  assert (Hlen : (length (children plan) <= length [left_info; ∅])%nat)
    by (simpl; lia).
  assert (Hrole : forall info v, info ∈ [left_info; ∅] ->
            info !! inputName = Some v -> exists s, v = VString s).
  { intros info v Hin Hv.
    apply elem_of_cons in Hin as [->|Hin].
    - unfold left_info, inputName in Hv. rewrite lookup_insert_eq in Hv.
      injection Hv as <-. by eexists.
    - apply list_elem_of_singleton in Hin. subst info.
      by rewrite lookup_empty in Hv. }
  split; [exact Hinfos|]. split; [exact Hbuilt|].
  destruct (PrimitiveToPlanDescription_metadata plan None [left_info; ∅]
              [built_route; built_route] Hinfos Hbuilt Hlen Hrole)
    as (this & Hthis & Hchild).
  exists this. split; [exact Hthis|].
  destruct (Hchild 0%nat built_route left_info eq_refl eq_refl)
    as (child & Hc & Hname & Hother & _).
  exists child. split; [exact Hc|]. split.
  - rewrite Hname. unfold left_info, inputName.
    by rewrite lookup_insert_eq.
  - rewrite Hother. unfold left_info, inputName. simpl.
    rewrite delete_insert_eq, (right_id_L ∅ (∪)).
    apply delete_id. by rewrite lookup_insert_ne.
Defined.

(** C2 as it is worded fails on a zero that is not an [int]: the contract
    leaves out a numeric zero, the code writes the [int64] one. *)
Lemma addMap_int64_zero_counterexample :
  default_valued (VInt64 0) = true /\
  addMap int64_zero "{" =
    Ok ("{," +:+ dquote +:+ "n" +:+ dquote +:+ ":0" +:+ newline).
Proof. split; reflexivity. Qed.

(** A [nil] slice in the extension map is not the [nil] interface: it is
    written, as [null]. *)
Lemma addMap_nil_slice_written :
  default_valued (VStrings None) = true /\
  addMap nil_columns "{" =
    Ok ("{," +:+ dquote +:+ "Cols" +:+ dquote +:+ ":null" +:+ newline).
Proof. split; reflexivity. Qed.


(** C5 as it is worded fails on large samples: the sum of the two middle
    elements wraps around, so that the median of twice the largest [int]
    is [-1] and not that [int]; the conversion rounds, so that the median
    of the one sample [2^53 + 1] is [2^53]; and the sum of all samples
    wraps around, so that the mean of the largest [int] and [1] is
    [-2^62]. *)
Lemma median_overflow_counterexample :
  median [2 ^ 63 - 1; 2 ^ 63 - 1] =
    Ok (S754_finite true 4503599627370496 (-52)) /\
  f64_exact (S754_finite true 4503599627370496 (-52)) (-1) 1 /\
  ~ f64_exact (S754_finite true 4503599627370496 (-52))
      ((2 ^ 63 - 1) + (2 ^ 63 - 1)) 2 /\
  median [2 ^ 53 + 1] = Ok (S754_finite false 4503599627370496 1) /\
  f64_exact (S754_finite false 4503599627370496 1) (2 ^ 53) 1 /\
  ~ f64_exact (S754_finite false 4503599627370496 1) (2 ^ 53 + 1) 1 /\
  average [2 ^ 63 - 1; 1] = S754_finite true 4503599627370496 10 /\
  f64_exact (S754_finite true 4503599627370496 10) (- 2 ^ 62) 1 /\
  ~ f64_exact (S754_finite true 4503599627370496 10) (2 ^ 63) 2.
Proof.
  repeat split; try (vm_compute; reflexivity);
    vm_compute; intros H; discriminate H.
Qed.


(** C8 as it is worded fails on a sequence of strings: the node also gets
    the key as an attribute, before the elements. *)
Lemma addToGraph_strings_counterexample :
  exists (this : nat) (g : Graph),
    addToGraph with_columns graphviz_New = Ok (this, g) /\
    node_attrs <$> nodes g !! this = Some ["Cols"; "a"; "b"] /\
    concat (map claimed_entry_attrs (range (Other with_columns))) =
      ["a"; "b"].
Proof. exists 0%nat. eexists. repeat split. Qed.

(** * Further properties of the code *)

(** ** The stats helpers *)

Lemma sorted_ints_perm_eq (l1 l2 : list Z) :
  StronglySorted Z.le l1 -> StronglySorted Z.le l2 -> l1 ≡ₚ l2 -> l1 = l2.
Proof.
  intros H1. revert l2.
  induction H1 as [|x l1 Hl1 IH Hx]; intros l2 H2 Hp.
  - by apply Permutation_nil in Hp.
  - destruct H2 as [|y l2 Hl2 Hy].
    + symmetry in Hp. by apply Permutation_nil in Hp.
    + assert (Hxy : x = y).
      { apply Z.le_antisymm.
        - assert (Hin : y ∈ x :: l1) by (rewrite Hp; left).
          apply elem_of_cons in Hin as [->|Hin]; [lia|].
          by apply (proj1 (Forall_forall _ _) Hx).
        - assert (Hin : x ∈ y :: l2) by (rewrite <- Hp; left).
          apply elem_of_cons in Hin as [->|Hin]; [lia|].
          by apply (proj1 (Forall_forall _ _) Hy). }
      subst y. f_equal. apply IH; [done|].
      by apply Permutation_cons_inv in Hp.
Qed.

Lemma sort_Ints_perm_eq (l1 l2 : list Z) :
  l1 ≡ₚ l2 -> sort_Ints l1 = sort_Ints l2.
Proof.
  intros Hp. apply sorted_ints_perm_eq; try apply sort_Ints_sorted.
  by rewrite !sort_Ints_perm.
Qed.

(** X1.  [median] returns a value exactly on a non-empty slice; on an empty one
    the index [n/2-1 = -1] is out of range and it panics. *)
Theorem median_returns_iff_nonempty (nums : list Z) :
  (nums = [] <-> median nums = Panic index_out_of_range) /\
  (nums <> [] <-> exists m : float64, median nums = Ok m).
Proof.
  destruct nums as [|x nums].
  - split; split; try done. intros [m Hm]. by rewrite median_empty in Hm.
  - assert (Hne : x :: nums <> []) by done.
    rewrite (median_middle _ Hne).
    split; split; try done. intros _. by eexists.
Qed.

(** X2.  The median does not depend on the order of the samples. *)
Theorem median_perm (nums1 nums2 : list Z) :
  nums1 ≡ₚ nums2 -> median nums1 = median nums2.
Proof.
  intros Hp. unfold median. by rewrite (sort_Ints_perm_eq _ _ Hp).
Qed.

Lemma median_perm_witness :
  [3; 1; 2; 4] ≡ₚ [4; 3; 2; 1] /\ median [3; 1; 2; 4] = median [4; 3; 2; 1].
Proof.
  assert (Hp : [3; 1; 2; 4] ≡ₚ [4; 3; 2; 1]).
  { apply (Permutation_trans (l' := [4; 3; 1; 2])).
    - change ([3; 1; 2] ++ [4] ≡ₚ [4] ++ [3; 1; 2]).
      apply Permutation_app_comm.
    - do 2 constructor.
      change ([1] ++ [2] ≡ₚ [2] ++ [1]). apply Permutation_app_comm. }
  split; [exact Hp|exact (median_perm _ _ Hp)].
Defined.

(** X3.  When the sum of the samples fits Go's [int], the total [average]
    divides is that sum, whatever wrap-around the partial sums went
    through. *)
Theorem average_no_overflow (nums : list Z) :
  - 2 ^ 63 <= foldr Z.add 0 nums < 2 ^ 63 ->
  sum_ints nums = foldr Z.add 0 nums /\
  average nums =
    f64_div (float64_of_int (foldr Z.add 0 nums))
            (float64_of_int (Z.of_nat (length nums))).
Proof.
  intros Hr. unfold average. rewrite sum_ints_wrap.
  by rewrite (int_wrap_in_range _ Hr).
Qed.

Lemma average_no_overflow_witness :
  - 2 ^ 63 <= foldr Z.add 0 [2 ^ 63 - 1; 1; -2] < 2 ^ 63 /\
  sum_ints [2 ^ 63 - 1; 1; -2] = 2 ^ 63 - 2.
Proof.
  assert (Hr : - 2 ^ 63 <= foldr Z.add 0 [2 ^ 63 - 1; 1; -2] < 2 ^ 63)
    by (simpl; lia).
  split; [exact Hr|].
  destruct (average_no_overflow [2 ^ 63 - 1; 1; -2] Hr) as [Hsum _].
  rewrite Hsum. reflexivity.
Defined.

(** ** The ordered map *)

Lemma string_ltb_false_leb (x y : string) :
  String.ltb y x = false -> String.leb x y = true.
Proof.
  unfold String.ltb, String.leb. rewrite (String.compare_antisym x y).
  by destruct (String.compare y x).
Qed.

Lemma string_ltb_asym (x y : string) :
  String.ltb x y = true -> String.ltb y x = false.
Proof.
  intros Hxy. destruct (String.ltb y x) eqn:Hyx; [|done].
  pose proof (string_ltb_trans _ _ _ Hxy Hyx) as Hxx.
  by rewrite string_ltb_irrefl in Hxx.
Qed.

Lemma insert_keyVal_perm (x : keyVal) (l : orderedMap) :
  insert_keyVal x l ≡ₚ x :: l.
Proof.
  induction l as [|y l IH]; simpl; [done|].
  destruct (String.ltb (key y) (key x)); [|done].
  rewrite IH. apply Permutation_swap.
Qed.

Lemma sort_Sort_perm (l : orderedMap) : sort_Sort l ≡ₚ l.
Proof.
  induction l as [|x l IH]; simpl; [done|].
  rewrite insert_keyVal_perm. by rewrite IH.
Qed.

Lemma insert_keyVal_sorted (x : keyVal) (l : orderedMap) :
  StronglySorted string_le (map key l) ->
  StronglySorted string_le (map key (insert_keyVal x l)).
Proof.
  induction l as [|y l IH]; simpl; intros Hs.
  - repeat constructor.
  - apply StronglySorted_inv in Hs as [Hl Hy].
    destruct (String.ltb (key y) (key x)) eqn:Hyx; simpl.
    + constructor; [by apply IH|].
      rewrite insert_keyVal_perm. simpl. constructor; [|done].
      apply string_leb_ltb. by left.
    + assert (Hxy : string_le (key x) (key y))
        by (by apply string_ltb_false_leb).
      constructor; [by constructor|].
      constructor; [done|].
      eapply Forall_impl; [exact Hy|]. intros z Hz.
      by apply (string_leb_trans (key x) (key y) z).
Qed.

Lemma sort_Sort_sorted (l : orderedMap) :
  StronglySorted string_le (map key (sort_Sort l)).
Proof.
  induction l as [|x l IH]; simpl; [constructor|].
  by apply insert_keyVal_sorted.
Qed.

(** Entries with distinct keys have one ascending arrangement. *)
Lemma sorted_keys_perm_eq (l1 l2 : orderedMap) :
  StronglySorted string_le (map key l1) ->
  StronglySorted string_le (map key l2) ->
  NoDup (map key l1) -> l1 ≡ₚ l2 -> l1 = l2.
Proof.
  revert l2. induction l1 as [|x l1 IH]; intros l2 H1 H2 Hnd Hp.
  - by apply Permutation_nil in Hp.
  - destruct l2 as [|y l2].
    + symmetry in Hp. by apply Permutation_nil in Hp.
    + simpl in *.
      apply StronglySorted_inv in H1 as [Hl1 Hx].
      apply StronglySorted_inv in H2 as [Hl2 Hy].
      apply NoDup_cons in Hnd as [Hxnot Hnd].
      assert (Hxy : x = y).
      { assert (Hin : y ∈ x :: l1) by (rewrite Hp; left).
        apply elem_of_cons in Hin as [->|Hin]; [done|].
        assert (Hin' : x ∈ y :: l2) by (rewrite <- Hp; left).
        apply elem_of_cons in Hin' as [->|Hin']; [done|].
        assert (Hk : key x = key y).
        { apply String.leb_antisym.
          - apply (proj1 (Forall_forall _ _) Hx).
            apply list_elem_of_In, in_map, list_elem_of_In, Hin.
          - apply (proj1 (Forall_forall _ _) Hy).
            apply list_elem_of_In, in_map, list_elem_of_In, Hin'. }
        destruct Hxnot. rewrite Hk.
        apply list_elem_of_In, in_map, list_elem_of_In, Hin. }
      subst y. f_equal. apply IH; [done|done|done|].
      by apply Permutation_cons_inv in Hp.
Qed.

Lemma sort_Sort_perm_eq (l1 l2 : orderedMap) :
  NoDup (map key l1) -> l1 ≡ₚ l2 -> sort_Sort l1 = sort_Sort l2.
Proof.
  intros Hnd Hp. apply sorted_keys_perm_eq; try apply sort_Sort_sorted.
  - by rewrite (sort_Sort_perm l1).
  - by rewrite !sort_Sort_perm.
Qed.

Lemma orderedStringIntMap_loop (l : list (string * Z)) (acc : orderedMap) :
  fold_left (fun result '(k, v) => result ++ [mkKeyVal k (VInt v)]) l acc =
  acc ++ map (fun kv => mkKeyVal kv.1 (VInt kv.2)) l.
Proof.
  revert acc. induction l as [|[k v] l IH]; intros acc; simpl.
  - by rewrite app_nil_r.
  - rewrite IH. by rewrite <- app_assoc.
Qed.

Lemma orderedStringIntMap_sort `{mr : MapRange} (in_ : gmap string Z) :
  orderedStringIntMap in_ =
  sort_Sort (map (fun kv => mkKeyVal kv.1 (VInt kv.2)) (map_to_list in_)).
Proof.
  unfold orderedStringIntMap. rewrite orderedStringIntMap_loop. simpl.
  assert (Hkeys : forall l : list (string * Z),
            map key (map (fun kv => mkKeyVal kv.1 (VInt kv.2)) l) = l.*1).
  { intros l. rewrite map_map. simpl. reflexivity. }
  apply sort_Sort_perm_eq.
  - rewrite Hkeys, (range_perm _ in_). apply NoDup_fst_map_to_list.
  - by rewrite (range_perm _ in_).
Qed.

Lemma orderedStringIntMap_keys `{mr : MapRange} (in_ : gmap string Z) :
  map key (orderedStringIntMap in_) ≡ₚ (map_to_list in_).*1.
Proof.
  rewrite orderedStringIntMap_sort, sort_Sort_perm.
  rewrite map_map. simpl. reflexivity.
Qed.

Lemma orderedStringIntMap_strict `{mr : MapRange} (in_ : gmap string Z) :
  StronglySorted string_lt (map key (orderedStringIntMap in_)).
Proof.
  apply sorted_le_NoDup_lt.
  - rewrite orderedStringIntMap_sort. apply sort_Sort_sorted.
  - rewrite orderedStringIntMap_keys. apply NoDup_fst_map_to_list.
Qed.

(** X4.  The ordered view of a map holds the entries of the map and nothing
    else, each once, with the keys in strictly ascending order; its length
    is the size of the map. *)
Theorem orderedStringIntMap_sorted_view `{mr : MapRange}
    (in_ : gmap string Z) :
  StronglySorted string_lt (map key (orderedStringIntMap in_)) /\
  (forall kv : keyVal,
     kv ∈ orderedStringIntMap in_ <->
     exists v : Z, val kv = VInt v /\ in_ !! key kv = Some v) /\
  orderedMap_Len (orderedStringIntMap in_) = Z.of_nat (size in_).
Proof.
  split; [apply orderedStringIntMap_strict|]. split.
  - intros kv. rewrite orderedStringIntMap_sort, sort_Sort_perm.
    rewrite list_elem_of_fmap. split.
    + intros ([k v] & -> & Hin). simpl. exists v. split; [done|].
      by apply elem_of_map_to_list.
    + intros (v & Hv & Hk). exists (key kv, v). split.
      * destruct kv as [k w]. simpl in *. by subst w.
      * by apply elem_of_map_to_list.
  - unfold orderedMap_Len. f_equal.
    rewrite orderedStringIntMap_sort, sort_Sort_perm.
    rewrite length_map. apply length_map_to_list.
Qed.

(** X5.  The ordered view does not depend on the order in which the map is
    ranged over. *)
Theorem orderedStringIntMap_order_independent (mr1 mr2 : MapRange)
    (in_ : gmap string Z) :
  @orderedStringIntMap mr1 in_ = @orderedStringIntMap mr2 in_.
Proof. by rewrite !orderedStringIntMap_sort. Qed.

Lemma index_keyVal_lookup (m : orderedMap) (i : nat) (kv : keyVal) :
  m !! i = Some kv -> index_keyVal m (Z.of_nat i) = Ok kv.
Proof.
  intros Hkv. pose proof (lookup_lt_Some _ _ _ Hkv) as Hi.
  unfold index_keyVal.
  replace (0 <=? Z.of_nat i) with true by (symmetry; apply Z.leb_le; lia).
  replace (Z.of_nat i <? Z.of_nat (length m)) with true
    by (symmetry; apply Z.ltb_lt; lia).
  simpl. by rewrite Nat2Z.id, Hkv.
Qed.

Lemma index_keyVal_in_range (m : orderedMap) (i : Z) :
  0 <= i < orderedMap_Len m ->
  exists kv : keyVal,
    m !! Z.to_nat i = Some kv /\ index_keyVal m i = Ok kv.
Proof.
  unfold orderedMap_Len. intros Hi.
  destruct (lookup_lt_is_Some_2 m (Z.to_nat i)) as [kv Hkv]; [lia|].
  exists kv. split; [done|].
  rewrite <- (Z2Nat.id i) by lia. by apply index_keyVal_lookup.
Qed.

Lemma index_keyVal_out_of_range (m : orderedMap) (i : Z) :
  ~ 0 <= i < orderedMap_Len m ->
  index_keyVal m i = Panic index_out_of_range.
Proof.
  unfold orderedMap_Len, index_keyVal. intros Hi.
  destruct (0 <=? i) eqn:H0; [|done].
  destruct (i <? Z.of_nat (length m)) eqn:H1; [|done].
  apply Z.leb_le in H0. apply Z.ltb_lt in H1. lia.
Qed.

Lemma sorted_lt_lookup (l : list string) (i j : nat) (x y : string) :
  StronglySorted string_lt l ->
  l !! i = Some x -> l !! j = Some y -> (i < j)%nat ->
  String.ltb x y = true.
Proof.
  intros Hs. revert i j.
  induction Hs as [|z l Hl IH Hz]; intros i j Hx Hy Hij; [done|].
  destruct j as [|j]; [lia|]. simpl in Hy.
  destruct i as [|i]; simpl in Hx.
  - injection Hx as ->.
    apply (proj1 (Forall_forall _ _) Hz). by eapply list_elem_of_lookup_2.
  - apply (IH i j); [done|done|lia].
Qed.

(** X6.  On the ordered view of a map, [Less] compares positions: the entry at
    [i] is before the entry at [j] exactly when [i < j]. *)
Theorem orderedMap_Less_position `{mr : MapRange} (in_ : gmap string Z)
    (i j : Z) :
  0 <= i < orderedMap_Len (orderedStringIntMap in_) ->
  0 <= j < orderedMap_Len (orderedStringIntMap in_) ->
  orderedMap_Less (orderedStringIntMap in_) i j = Ok (i <? j).
Proof.
  intros Hi Hj. unfold orderedMap_Less.
  destruct (index_keyVal_in_range _ _ Hi) as (a & Ha & ->).
  destruct (index_keyVal_in_range _ _ Hj) as (b & Hb & ->).
  simpl. f_equal. unfold orderedMap in *.
  pose proof (orderedStringIntMap_strict in_) as Hs.
  assert (Hka : (key <$> orderedStringIntMap in_) !! Z.to_nat i
                = Some (key a)) by (by rewrite list_lookup_fmap, Ha).
  assert (Hkb : (key <$> orderedStringIntMap in_) !! Z.to_nat j
                = Some (key b)) by (by rewrite list_lookup_fmap, Hb).
  destruct (Z.ltb_spec i j) as [Hlt|Hge].
  - apply (sorted_lt_lookup _ _ _ _ _ Hs Hka Hkb). lia.
  - destruct (decide (i = j)) as [->|Hne].
    + rewrite Ha in Hb. injection Hb as ->. apply string_ltb_irrefl.
    + apply string_ltb_asym.
      apply (sorted_lt_lookup _ _ _ _ _ Hs Hkb Hka). lia.
Qed.

Lemma swap_head_perm {A : Type} (l : list A) (j : nat) (x b : A) :
  l !! j = Some b -> b :: <[j := x]> l ≡ₚ x :: l.
Proof.
  revert j. induction l as [|y l IH]; intros [|j] Hb; try done.
  - injection Hb as ->. simpl. apply Permutation_swap.
  - simpl in *. rewrite (Permutation_swap y b). rewrite (IH j Hb).
    apply Permutation_swap.
Qed.

Lemma swap_lt_perm {A : Type} (l : list A) (i j : nat) (a b : A) :
  (i < j)%nat -> l !! i = Some a -> l !! j = Some b ->
  <[j := a]> (<[i := b]> l) ≡ₚ l.
Proof.
  revert i j. induction l as [|y l IH]; intros i j Hij Ha Hb; [done|].
  destruct j as [|j]; [lia|]. destruct i as [|i]; simpl in *.
  - injection Ha as ->. by apply swap_head_perm.
  - constructor. apply IH; [lia|done|done].
Qed.

Lemma swap_perm {A : Type} (l : list A) (i j : nat) (a b : A) :
  l !! i = Some a -> l !! j = Some b ->
  <[j := a]> (<[i := b]> l) ≡ₚ l.
Proof.
  intros Ha Hb.
  destruct (lt_eq_lt_dec i j) as [[Hlt| ->]|Hgt].
  - by apply swap_lt_perm.
  - rewrite Ha in Hb. injection Hb as ->.
    rewrite list_insert_insert_eq. by rewrite list_insert_id.
  - rewrite list_insert_insert_ne by lia. by apply swap_lt_perm.
Qed.

Lemma index_keyVal_same (m m' : orderedMap) (k : Z) :
  length m' = length m -> m' !! Z.to_nat k = m !! Z.to_nat k ->
  index_keyVal m' k = index_keyVal m k.
Proof. unfold index_keyVal. by intros -> ->. Qed.

(** X7.  [Swap] on two positions of the map exchanges the entries there and
    leaves every other position as it was: the result has the same
    entries, and swapping again gives the map back. *)
Theorem orderedMap_Swap_exchanges (m : orderedMap) (i j : Z) :
  0 <= i < orderedMap_Len m ->
  0 <= j < orderedMap_Len m ->
  exists m' : orderedMap,
    orderedMap_Swap m i j = Ok m' /\
    m' ≡ₚ m /\
    orderedMap_Len m' = orderedMap_Len m /\
    index_keyVal m' i = index_keyVal m j /\
    index_keyVal m' j = index_keyVal m i /\
    (forall k : Z, k <> i -> k <> j ->
       index_keyVal m' k = index_keyVal m k) /\
    orderedMap_Swap m' i j = Ok m.
Proof.
  intros Hi Hj. unfold orderedMap_Swap.
  destruct (index_keyVal_in_range _ _ Hi) as (a & Ha & Hia).
  destruct (index_keyVal_in_range _ _ Hj) as (b & Hb & Hjb).
  rewrite Hia, Hjb. simpl.
  unfold orderedMap, orderedMap_Len in *.
  set (m' := <[Z.to_nat j := a]> (<[Z.to_nat i := b]> m)).
  assert (Hlen : length m' = length m)
    by (unfold m'; by rewrite !length_insert).
  assert (Hi' : m' !! Z.to_nat i = Some b).
  { unfold m'. destruct (decide (Z.to_nat j = Z.to_nat i)) as [Heq|Hne].
    - rewrite Heq in *. rewrite list_lookup_insert_eq
        by (rewrite length_insert; lia).
      congruence.
    - rewrite list_lookup_insert_ne by done.
      apply list_lookup_insert_eq. lia. }
  assert (Hj' : m' !! Z.to_nat j = Some a).
  { unfold m'. apply list_lookup_insert_eq. rewrite length_insert. lia. }
  exists m'. split; [done|].
  split; [by apply swap_perm|].
  split; [by rewrite Hlen|].
  assert (Hidx : forall (l : list keyVal) (k : Z) (kv : keyVal),
            0 <= k < Z.of_nat (length l) -> l !! Z.to_nat k = Some kv ->
            index_keyVal l k = Ok kv).
  { intros l k kv Hk Hkv. rewrite <- (Z2Nat.id k) by lia.
    by apply index_keyVal_lookup. }
  split; [apply Hidx; [lia|done]|].
  split; [apply Hidx; [lia|done]|].
  split.
  - intros k Hki Hkj. unfold index_keyVal, orderedMap. rewrite Hlen.
    destruct (0 <=? k) eqn:Hk; [|done]. apply Z.leb_le in Hk.
    unfold m'. by rewrite !list_lookup_insert_ne by lia.
  - rewrite (Hidx m' i b), (Hidx m' j a) by (done || lia). simpl. f_equal.
    unfold m'. apply list_eq. intros k.
    destruct (decide (k = Z.to_nat j)) as [->|Hkj].
    + rewrite list_lookup_insert_eq by (rewrite !length_insert; lia). done.
    + rewrite list_lookup_insert_ne by done.
      destruct (decide (k = Z.to_nat i)) as [->|Hki].
      * rewrite list_lookup_insert_eq by (rewrite !length_insert; lia). done.
      * by rewrite !list_lookup_insert_ne.
Qed.

(** X8.  An index outside the map makes [Less] and [Swap] panic; [Swap] writes
    nothing then. *)
Theorem orderedMap_index_out_of_range (m : orderedMap) (i j : Z) :
  ~ (0 <= i < orderedMap_Len m /\ 0 <= j < orderedMap_Len m) ->
  orderedMap_Less m i j = Panic index_out_of_range /\
  orderedMap_Swap m i j = Panic index_out_of_range.
Proof.
  intros Hout. unfold orderedMap_Less, orderedMap_Swap.
  destruct (decide (0 <= i < orderedMap_Len m)) as [Hi|Hi].
  - destruct (index_keyVal_in_range _ _ Hi) as (a & _ & ->).
    rewrite (index_keyVal_out_of_range m j) by tauto. done.
  - by rewrite (index_keyVal_out_of_range m i Hi).
Qed.

Lemma orderedMap_MarshalJSON_loop_ok `{ma : Marshal} (m : orderedMap)
    (enc : list (string * string)) :
  Forall2 (fun kv e => json_Marshal (VString (key kv)) = Ok e.1 /\
                       json_Marshal (val kv) = Ok e.2) m enc ->
  forall (i : nat) (buf : string),
    orderedMap_MarshalJSON_loop i m buf =
    Ok (buf +:+
        (if decide (i <> 0%nat /\ enc <> []) then "," else "") +:+
        String.concat "," (map (fun e => e.1 +:+ ":" +:+ e.2) enc)).
Proof.
  induction 1 as [|kv [k v] m enc [Hk Hv] _ IH]; intros i buf.
  - simpl. destruct (decide _); [tauto|]. simpl.
    by rewrite string_app_nil_r.
  - cbn [orderedMap_MarshalJSON_loop]. simpl in Hk, Hv.
    rewrite Hk. simpl. rewrite Hv. simpl. rewrite IH. f_equal.
    rewrite !string_app_assoc.
    assert (Hsep : (if decide (i <> 0%nat) then buf +:+ "," else buf) =
                   buf +:+ (if decide (i <> 0%nat /\ (k, v) :: enc <> [])
                            then "," else "")).
    { destruct (decide (i <> 0%nat)) as [Hi|Hi];
        destruct (decide _) as [Hd|Hd]; try done.
      - by destruct Hd.
      - by destruct Hd.
      - by rewrite string_app_nil_r. }
    rewrite Hsep, !string_app_assoc. do 2 f_equal.
    destruct enc as [|e enc].
    + destruct (decide (S i <> 0%nat /\ @nil (string * string) <> []))
        as [[_ Hd]|_]; [done|].
      simpl. by rewrite string_app_nil_r.
    + destruct (decide (S i <> 0%nat /\ e :: enc <> []))
        as [_|Hn]; [|destruct Hn; split; [lia|done]].
      reflexivity.
Qed.

(** X9.  When [json.Marshal] encodes every key and value, the ordered map is
    written as one JSON object: the entries in the order of the map, each
    as [key:value], with a comma between two entries and none before the
    first or after the last. *)
Theorem orderedMap_MarshalJSON_object `{ma : Marshal} (m : orderedMap)
    (enc : list (string * string)) :
  Forall2 (fun kv e => json_Marshal (VString (key kv)) = Ok e.1 /\
                       json_Marshal (val kv) = Ok e.2) m enc ->
  orderedMap_MarshalJSON m =
    Ok ("{" +:+
        String.concat "," (map (fun e => e.1 +:+ ":" +:+ e.2) enc) +:+
        "}").
Proof.
  intros Henc. unfold orderedMap_MarshalJSON.
  rewrite (orderedMap_MarshalJSON_loop_ok _ _ Henc).
  destruct (decide (0%nat <> 0%nat /\ enc <> [])) as [[H0 _]|_]; [done|].
  reflexivity.
Qed.

Lemma orderedMap_MarshalJSON_loop_error `{ma : Marshal} (m1 m2 : orderedMap)
    (kv : keyVal) (e : string) :
  Forall (fun kv => (exists k, json_Marshal (VString (key kv)) = Ok k) /\
                    (exists v, json_Marshal (val kv) = Ok v)) m1 ->
  json_Marshal (VString (key kv)) = Err e \/
  (exists k, json_Marshal (VString (key kv)) = Ok k) /\
  json_Marshal (val kv) = Err e ->
  forall (i : nat) (buf : string),
    orderedMap_MarshalJSON_loop i (m1 ++ kv :: m2) buf = Err e.
Proof.
  intros Hok Hbad.
  induction Hok as [|kv1 m1 [[k Hk] [v Hv]] _ IH]; intros i buf.
  - cbn [app orderedMap_MarshalJSON_loop].
    destruct Hbad as [Hk|[[k Hk] Hv]]; rewrite Hk; [done|].
    simpl. by rewrite Hv.
  - cbn [app orderedMap_MarshalJSON_loop].
    rewrite Hk. simpl. rewrite Hv. simpl. apply IH.
Qed.

(** X10.  When [json.Marshal] rejects a key or a value of the ordered map, and
    encodes everything before it, the call returns that error and no
    bytes. *)
Theorem orderedMap_MarshalJSON_error `{ma : Marshal} (m1 m2 : orderedMap)
    (kv : keyVal) (e : string) :
  Forall (fun kv => (exists k, json_Marshal (VString (key kv)) = Ok k) /\
                    (exists v, json_Marshal (val kv) = Ok v)) m1 ->
  json_Marshal (VString (key kv)) = Err e \/
  (exists k, json_Marshal (VString (key kv)) = Ok k) /\
  json_Marshal (val kv) = Err e ->
  orderedMap_MarshalJSON (m1 ++ kv :: m2) = Err e.
Proof.
  intros Hok Hbad. unfold orderedMap_MarshalJSON.
  by rewrite (orderedMap_MarshalJSON_loop_error _ _ _ _ Hok Hbad).
Qed.

Lemma orderedMap_Less_position_witness :
  0 <= 1 < orderedMap_Len (orderedStringIntMap counts) /\
  0 <= 0 < orderedMap_Len (orderedStringIntMap counts) /\
  orderedMap_Less (orderedStringIntMap counts) 1 0 = Ok false.
Proof.
  assert (H1 : 0 <= 1 < orderedMap_Len (orderedStringIntMap counts))
    by (vm_compute; split; discriminate || reflexivity).
  assert (H0 : 0 <= 0 < orderedMap_Len (orderedStringIntMap counts))
    by (vm_compute; split; discriminate || reflexivity).
  split; [exact H1|]. split; [exact H0|].
  exact (orderedMap_Less_position counts 1 0 H1 H0).
Defined.

Lemma orderedMap_Swap_exchanges_witness :
  0 <= 0 < orderedMap_Len with_channel /\
  0 <= 2 < orderedMap_Len with_channel /\
  exists m' : orderedMap,
    orderedMap_Swap with_channel 0 2 = Ok m' /\
    m' ≡ₚ with_channel /\
    orderedMap_Len m' = orderedMap_Len with_channel /\
    index_keyVal m' 0 = index_keyVal with_channel 2 /\
    index_keyVal m' 2 = index_keyVal with_channel 0 /\
    (forall k : Z, k <> 0 -> k <> 2 ->
       index_keyVal m' k = index_keyVal with_channel k) /\
    orderedMap_Swap m' 0 2 = Ok with_channel.
Proof.
  assert (H0 : 0 <= 0 < orderedMap_Len with_channel)
    by (vm_compute; split; discriminate || reflexivity).
  assert (H2 : 0 <= 2 < orderedMap_Len with_channel)
    by (vm_compute; split; discriminate || reflexivity).
  split; [exact H0|]. split; [exact H2|].
  exact (orderedMap_Swap_exchanges with_channel 0 2 H0 H2).
Defined.

Lemma orderedMap_index_out_of_range_witness :
  ~ (0 <= 3 < orderedMap_Len with_channel /\
     0 <= 0 < orderedMap_Len with_channel) /\
  orderedMap_Less with_channel 3 0 = Panic index_out_of_range /\
  orderedMap_Swap with_channel 3 0 = Panic index_out_of_range.
Proof.
  assert (H : ~ (0 <= 3 < orderedMap_Len with_channel /\
                 0 <= 0 < orderedMap_Len with_channel)).
  { intros [[_ H3] _]. vm_compute in H3. discriminate. }
  split; [exact H|].
  exact (orderedMap_index_out_of_range with_channel 3 0 H).
Defined.

Lemma orderedMap_MarshalJSON_object_witness :
  Forall2 (fun kv e => json_Marshal (VString (key kv)) = Ok e.1 /\
                       json_Marshal (val kv) = Ok e.2)
    (orderedStringIntMap counts) [(quote "a", "2"); (quote "b", "1")] /\
  orderedMap_MarshalJSON (orderedStringIntMap counts) =
    Ok ("{" +:+ quote "a" +:+ ":2," +:+ quote "b" +:+ ":1}").
Proof.
  assert (H : Forall2
                (fun kv e => json_Marshal (VString (key kv)) = Ok e.1 /\
                             json_Marshal (val kv) = Ok e.2)
                (orderedStringIntMap counts)
                [(quote "a", "2"); (quote "b", "1")]).
  { let m := eval vm_compute in (orderedStringIntMap counts) in
    change (orderedStringIntMap counts) with m.
    repeat constructor. }
  split; [exact H|].
  exact (orderedMap_MarshalJSON_object (orderedStringIntMap counts)
           [(quote "a", "2"); (quote "b", "1")] H).
Defined.

Lemma orderedMap_MarshalJSON_error_witness :
  Forall (fun kv => (exists k, json_Marshal (VString (key kv)) = Ok k) /\
                    (exists v, json_Marshal (val kv) = Ok v))
    [mkKeyVal "a" (VInt 1)] /\
  (json_Marshal (VString "b") = Err "json: unsupported type" \/
   (exists k, json_Marshal (VString "b") = Ok k) /\
   json_Marshal (VOther "chan int" "0xc000")
     = Err "json: unsupported type") /\
  orderedMap_MarshalJSON with_channel = Err "json: unsupported type".
Proof.
  assert (Hok : Forall
                  (fun kv =>
                     (exists k, json_Marshal (VString (key kv)) = Ok k) /\
                     (exists v, json_Marshal (val kv) = Ok v))
                  [mkKeyVal "a" (VInt 1)]).
  { repeat constructor; by eexists. }
  assert (Hbad :
    json_Marshal (VString (key (mkKeyVal "b" (VOther "chan int" "0xc000"))))
      = Err "json: unsupported type" \/
    (exists k,
       json_Marshal
         (VString (key (mkKeyVal "b" (VOther "chan int" "0xc000"))))
         = Ok k) /\
    json_Marshal (val (mkKeyVal "b" (VOther "chan int" "0xc000")))
      = Err "json: unsupported type").
  { right. split; [by eexists|reflexivity]. }
  split; [exact Hok|]. split; [exact Hbad|].
  exact (orderedMap_MarshalJSON_error [mkKeyVal "a" (VInt 1)]
           [mkKeyVal "c" (VInt 3)]
           (mkKeyVal "b" (VOther "chan int" "0xc000")) _ Hok Hbad).
Defined.

(** ** What the serializer returns *)

Section SerializerFacts.
Context {ext : External} {js : JSON} {mr : MapRange}.

(** X11.  When the encoder takes the value of every field, the serializer
    returns one JSON object: the fields of the description in their fixed
    order, each as its quoted key, a colon and the bytes of the encoder,
    with a comma between two fields. *)
Theorem MarshalJSON_object (pd : PrimitiveDescription) (bs : list string) :
  Forall2 (fun f b => Encode f.2 = Ok b) (MarshalJSON_fields pd) bs ->
  MarshalJSON pd =
    Ok ("{" +:+
        String.concat ","
          (zip_with (fun f b => written f.1 b) (MarshalJSON_fields pd) bs)
        +:+ "}").
Proof.
  intros Hall. rewrite MarshalJSON_serialize.
  apply serialize_ok; [apply MarshalJSON_fields_nonempty|done].
Qed.

(** X12.  A field value the encoder rejects, after fields it took, makes the
    serializer return that error, or panic as the encoder did; nothing of
    the object is returned. *)
Theorem MarshalJSON_first_failure (pd : PrimitiveDescription)
    (fs1 fs2 : list field) (name : string) (o : obj) :
  MarshalJSON_fields pd = fs1 ++ (name, o) :: fs2 ->
  Forall (fun f => exists b, Encode f.2 = Ok b) fs1 ->
  (forall e, Encode o = Err e -> MarshalJSON pd = Err e) /\
  (forall msg, Encode o = Panic msg -> MarshalJSON pd = Panic msg).
Proof.
  intros Hfs Hok. rewrite MarshalJSON_serialize, Hfs.
  by apply serialize_first_failure.
Qed.

Lemma Encode_Marshalers_panic {A : Type} (f : A -> result string)
    (l1 l2 : list A) (c : A) (msg : string) :
  Forall (fun x => exists b b', f x = Ok b /\ compact b = Ok b') l1 ->
  f c = Panic msg ->
  Encode_Marshalers f (l1 ++ c :: l2) = Panic msg.
Proof.
  intros Hok Hc. unfold Encode_Marshalers.
  induction Hok as [|x l1 (b & b' & Hb & Hb') _ IH]; simpl.
  - by rewrite Hc.
  - rewrite Hb. simpl. rewrite Hb'. simpl.
    destruct ((fix each (l : list A) : result (list string) := _)
                (l1 ++ c :: l2)); simpl in *; done.
Qed.

(** X13.  A panic of the serializer on a child, after the fields of the node
    and the children before it were taken, is a panic of the serializer
    on the node: a destination too short for the prefix anywhere in the
    tree brings the whole call down. *)
Theorem MarshalJSON_child_panic (pd c : PrimitiveDescription)
    (l1 l2 : list PrimitiveDescription) (msg : string) :
  Inputs pd = Some (l1 ++ c :: l2) ->
  Forall (fun f => exists b, Encode f.2 = Ok b)
    (fields_before_TargetDestination pd ++ field_TargetDestination pd ++
     field_TargetTabletType pd ++ fields_Stats pd ++ fields_Other pd) ->
  Forall (fun x => exists b b', MarshalJSON x = Ok b /\ compact b = Ok b')
    l1 ->
  MarshalJSON c = Panic msg ->
  MarshalJSON pd = Panic msg.
Proof.
  intros Hin Hfields Hl1 Hc. rewrite MarshalJSON_serialize.
  assert (Hfs : MarshalJSON_fields pd =
    (fields_before_TargetDestination pd ++ field_TargetDestination pd ++
     field_TargetTabletType pd ++ fields_Stats pd ++ fields_Other pd) ++
    ("Inputs", OInputs (l1 ++ c :: l2)) :: []).
  { unfold MarshalJSON_fields, fields_before_TargetDestination.
    rewrite <- !app_assoc. do 8 f_equal.
    unfold field_Inputs, when, len. rewrite Hin. simpl.
    destruct (decide _) as [_|Hn]; [done|]. destruct Hn.
    rewrite length_app. simpl. lia. }
  rewrite Hfs. apply serialize_first_failure; [done|].
  by apply Encode_Marshalers_panic.
Qed.

End SerializerFacts.

(** ** The order in which maps are ranged over *)

Section RangeOrder.
Context {ext : External} {js : JSON} (mr1 mr2 : MapRange).

Lemma Encode_Marshalers_ext {A : Type} (f g : A -> result string)
    (l : list A) :
  Forall (fun x => f x = g x) l ->
  Encode_Marshalers f l = Encode_Marshalers g l.
Proof.
  intros Hall. unfold Encode_Marshalers. f_equal.
  induction Hall as [|x l Hx _ IH]; [done|].
  rewrite Hx. apply rbind_ext. intros b. apply rbind_ext. intros c.
  by rewrite IH.
Qed.

Lemma emit_all_instances (prepend : string) (fs : list field) :
  Forall (fun f => Encode (Encodable := @Encodable_obj ext js mr1) f.2 =
                   Encode (Encodable := @Encodable_obj ext js mr2) f.2) fs ->
  forall buf : string,
    @emit_all ext js mr1 prepend fs buf = @emit_all ext js mr2 prepend fs buf.
Proof.
  induction 1 as [|[name o] fs Ho _ IH]; intros buf; [done|].
  cbn [emit_all]. unfold marshalAdd. simpl in Ho. rewrite Ho.
  apply rbind_ext. intros buf'. apply IH.
Qed.

Lemma serialize_instances (fs : list field) :
  Forall (fun f => Encode (Encodable := @Encodable_obj ext js mr1) f.2 =
                   Encode (Encodable := @Encodable_obj ext js mr2) f.2) fs ->
  @serialize ext js mr1 fs = @serialize ext js mr2 fs.
Proof.
  intros Hall. unfold serialize. f_equal.
  destruct Hall as [|[name o] fs Ho Hall]; [done|].
  cbn [open_fields]. unfold marshalAdd. simpl in Ho. rewrite Ho.
  apply rbind_ext. intros buf. by apply emit_all_instances.
Qed.

(** X14.  The bytes the serializer returns, or its failure, do not depend on
    the order in which Go ranges over the extension maps of the tree. *)
Theorem MarshalJSON_order_independent (pd : PrimitiveDescription) :
  @MarshalJSON ext js mr1 pd = @MarshalJSON ext js mr2 pd.
Proof.
  induction pd as [pd IH] using PrimitiveDescription_nested_ind.
  rewrite (@MarshalJSON_serialize ext js mr1),
          (@MarshalJSON_serialize ext js mr2).
  apply serialize_instances.
  unfold MarshalJSON_fields. rewrite !Forall_app.
  repeat split.
  - unfold field_InputName, when. destruct (decide _); by repeat constructor.
  - by repeat constructor.
  - unfold field_Variant, when. destruct (decide _); by repeat constructor.
  - unfold field_Keyspace. destruct (Keyspace pd); by repeat constructor.
  - unfold field_TargetDestination.
    destruct (TargetDestination pd); by repeat constructor.
  - unfold field_TargetTabletType, when.
    destruct (decide _); by repeat constructor.
  - unfold fields_Stats. destruct (Stats pd); by repeat constructor.
  - apply Forall_forall. intros f Hin. unfold fields_Other in Hin.
    apply list_elem_of_fmap in Hin as (k & -> & _). reflexivity.
  - unfold field_Inputs, when. destruct (decide _); [|constructor].
    constructor; [|constructor]. simpl.
    by apply (Encode_Marshalers_ext (@MarshalJSON ext js mr1)
                (@MarshalJSON ext js mr2)).
Qed.

End RangeOrder.

(** ** What the builder returns *)

Section BuilderFacts.
Context {ext : External} {mr : MapRange}.

Lemma Primitive_nested_ind (P : Primitive -> Prop) :
  (forall in_, Forall P (children in_) -> P in_) -> forall in_, P in_.
Proof.
  intros H. fix IH 1. intros in_. apply H.
  destruct in_ as [? ? cs ?]. simpl.
  revert cs. fix IHl 1. intros [|c l]; constructor; [apply IH|apply IHl].
Qed.

Lemma plan_ok_inv (in_ : Primitive) :
  plan_ok in_ ->
  Forall plan_ok (children in_) /\
  infos_ok (infos in_) 0 (length (children in_)).
Proof. by intros [? ? ?]. Qed.

Lemma Forall_built (build : Primitive -> result PrimitiveDescription)
    (cs : list Primitive) :
  Forall (fun c => exists pd, build c = Ok pd) cs ->
  exists pds, Forall2 (fun c pd => build c = Ok pd) cs pds.
Proof.
  induction 1 as [|c cs [pd Hpd] _ [pds IH]].
  - by exists [].
  - exists (pd :: pds). by constructor.
Qed.

Lemma build_inputs_app
    (build : Primitive -> result PrimitiveDescription)
    (infos : slice (gmap string value)) (cs1 cs2 : list Primitive) :
  forall (idx : nat) (this : PrimitiveDescription),
    build_inputs build infos idx (cs1 ++ cs2) this =
    build_inputs build infos idx cs1 this ≫=
      build_inputs build infos (idx + length cs1) cs2.
Proof.
  induction cs1 as [|c cs1 IH]; intros idx this.
  - simpl. by rewrite Nat.add_0_r.
  - cbn [app build_inputs length].
    destruct (build c) as [pd| |]; simpl; [|done|done].
    destruct (match infos with
              | Some infos0 =>
                  match infos0 !! idx with
                  | Some info => merge_info (range info) pd
                  | None => Panic index_out_of_range
                  end
              | None => Ok pd
              end) as [pd'| |]; simpl; [|done|done].
    rewrite IH. by replace (S idx + length cs1)%nat
      with (idx + S (length cs1))%nat by lia.
Qed.

Lemma with_stats_frame (stats : option (gmap positive RowsReceived))
    (in_ : Primitive) :
  let this0 :=
    match stats with
    | Some st => set_Stats (default [] (st !! identity in_)) (description in_)
    | None => description in_
    end in
  Inputs this0 = Inputs (description in_) /\
  Stats this0 =
    match stats with
    | Some st => default [] (st !! identity in_)
    | None => Stats (description in_)
    end /\
  OperatorType this0 = OperatorType (description in_) /\
  Variant this0 = Variant (description in_) /\
  Keyspace this0 = Keyspace (description in_) /\
  TargetDestination this0 = TargetDestination (description in_) /\
  TargetTabletType this0 = TargetTabletType (description in_) /\
  Other this0 = Other (description in_) /\
  InputName this0 = InputName (description in_).
Proof. by destruct stats. Qed.

(** X15.  The builder mirrors the children of a node in their order: the
    inputs of the description are those the node's own description came
    with and then one per child, the child as built with its metadata
    merged in, and as built when the node supplies no metadata. *)
Theorem PrimitiveToPlanDescription_inputs_order (in_ : Primitive)
    (stats : option (gmap positive RowsReceived))
    (pds : list PrimitiveDescription) :
  children in_ <> [] ->
  Forall2 (fun c pd => PrimitiveToPlanDescription c stats = Ok pd)
    (children in_) pds ->
  infos_ok (infos in_) 0 (length (children in_)) ->
  exists this : PrimitiveDescription,
    PrimitiveToPlanDescription in_ stats = Ok this /\
    Inputs this =
      Some (elems (Inputs (description in_)) ++
            imap (augmented (infos in_)) pds) /\
    len (Inputs this) =
      (len (Inputs (description in_)) + length (children in_))%nat /\
    (infos in_ = None ->
     Inputs this = Some (elems (Inputs (description in_)) ++ pds)).
Proof.
  intros Hne Hbuilt Hok.
  rewrite PrimitiveToPlanDescription_unfold.
  rewrite (build_inputs_ok _ _ _ _ Hbuilt) by done.
  rewrite rbind_Ok.
  destruct (decide (length (children in_) = 0%nat)) as [H0|_].
  { by apply length_zero_iff_nil in H0. }
  destruct (with_stats_frame stats in_) as (Hin & _).
  assert (Hpds : pds <> []).
  { intros ->. apply Forall2_nil_inv_r in Hbuilt. done. }
  assert (Himap : imap (fun j pd => augmented (infos in_) (0 + j) pd) pds
                  <> []).
  { destruct pds; [done|]. done. }
  eexists. split; [reflexivity|].
  rewrite (append_all_nonempty _ _ Himap), Hin. simpl.
  split; [done|]. split.
  - unfold len. simpl. rewrite length_app, length_imap.
    by rewrite (Forall2_length _ _ _ Hbuilt).
  - intros Hnone. rewrite Hnone. do 2 f_equal.
    apply list_eq. intros i. rewrite list_lookup_imap.
    by destruct (pds !! i).
Qed.

(** X16.  The builder takes the statistics of a node from the map, under the
    node's identity, and none when the map has no entry for it; without a
    map the statistics are those of the node's own description.  Nothing
    else of the node's own description changes but its inputs. *)
Theorem PrimitiveToPlanDescription_stats (in_ : Primitive)
    (stats : option (gmap positive RowsReceived))
    (pds : list PrimitiveDescription) :
  Forall2 (fun c pd => PrimitiveToPlanDescription c stats = Ok pd)
    (children in_) pds ->
  infos_ok (infos in_) 0 (length (children in_)) ->
  exists this : PrimitiveDescription,
    PrimitiveToPlanDescription in_ stats = Ok this /\
    Stats this =
      match stats with
      | Some st => default [] (st !! identity in_)
      | None => Stats (description in_)
      end /\
    OperatorType this = OperatorType (description in_) /\
    Variant this = Variant (description in_) /\
    Keyspace this = Keyspace (description in_) /\
    TargetDestination this = TargetDestination (description in_) /\
    TargetTabletType this = TargetTabletType (description in_) /\
    Other this = Other (description in_) /\
    InputName this = InputName (description in_).
Proof.
  intros Hbuilt Hok.
  rewrite PrimitiveToPlanDescription_unfold.
  rewrite (build_inputs_ok _ _ _ _ Hbuilt) by done.
  rewrite rbind_Ok. eexists. split; [reflexivity|].
  destruct (with_stats_frame stats in_)
    as (_ & Hs & Hop & Hv & Hk & Hd & Ht & Ho & Hn).
  match goal with
  | |- context [append_all ?this0 ?l] =>
      destruct (append_all_frame l this0)
        as (Hop' & Hv' & Hk' & Hd' & Ht' & Ho' & Hn' & Hs')
  end.
  destruct (decide (length (children in_) = 0%nat)); simpl in *;
    rewrite ?Hop', ?Hv', ?Hk', ?Hd', ?Ht', ?Ho', ?Hn', ?Hs';
    by repeat split.
Qed.

Lemma merge_info_Ok_role (info : gmap string value)
    (pd pd' : PrimitiveDescription) :
  merge_info (range info) pd = Ok pd' ->
  forall v, info !! inputName = Some v -> exists s, v = VString s.
Proof.
  intros Hm v Hv.
  assert (Hcases : (exists s, v = VString s) \/ forall s, v <> VString s).
  { destruct v; try (by right). left. by eexists. }
  destruct Hcases as [Hs|Hs]; [done|].
  rewrite (merge_info_not_string (range info) pd v) in Hm; [done| |done|].
  - rewrite (range_perm _ info). by apply elem_of_map_to_list.
  - rewrite (range_perm _ info). apply NoDup_fst_map_to_list.
Qed.

Lemma build_inputs_Ok_inv
    (build : Primitive -> result PrimitiveDescription)
    (infos : slice (gmap string value)) (cs : list Primitive) :
  forall (idx : nat) (this r : PrimitiveDescription),
    build_inputs build infos idx cs this = Ok r ->
    Forall (fun c => exists pd, build c = Ok pd) cs /\
    infos_ok infos idx (length cs).
Proof.
  induction cs as [|c cs IH]; intros idx this r Hr.
  - split; [constructor|]. intros l _ j Hj. simpl in Hj. lia.
  - cbn [build_inputs] in Hr.
    destruct (build c) as [pd| |] eqn:Hc; simpl in Hr; [|done|done].
    destruct (match infos with
              | Some infos0 =>
                  match infos0 !! idx with
                  | Some info => merge_info (range info) pd
                  | None => Panic index_out_of_range
                  end
              | None => Ok pd
              end) as [pd'| |] eqn:Hm; simpl in Hr; [|done|done].
    destruct (IH _ _ _ Hr) as [Hcs Hinfos].
    split; [constructor; [by exists pd|done]|].
    intros l Hl j Hj. subst infos.
    destruct j as [|j].
    + rewrite Nat.add_0_r.
      destruct (l !! idx) as [info|] eqn:Hinfo; [|done].
      exists info. split; [done|]. by eapply merge_info_Ok_role.
    + destruct (Hinfos l eq_refl j) as (info & Hinfo & Hrole).
      { simpl in Hj. lia. }
      exists info. split; [|done].
      by replace (idx + S j)%nat with (S idx + j)%nat by lia.
Qed.

Lemma plan_ok_built (stats : option (gmap positive RowsReceived))
    (in_ : Primitive) :
  plan_ok in_ ->
  exists pd : PrimitiveDescription,
    PrimitiveToPlanDescription in_ stats = Ok pd.
Proof.
  induction in_ as [in_ IH] using Primitive_nested_ind.
  intros Hok. apply plan_ok_inv in Hok as [Hcs Hinfos].
  assert (Hall : Forall (fun c => exists pd,
                           PrimitiveToPlanDescription c stats = Ok pd)
                   (children in_)).
  { apply Forall_forall. intros c Hc.
    apply (proj1 (Forall_forall _ _) IH c Hc).
    by apply (proj1 (Forall_forall _ _) Hcs c Hc). }
  destruct (Forall_built _ _ Hall) as [pds Hpds].
  rewrite PrimitiveToPlanDescription_unfold.
  rewrite (build_inputs_ok _ _ _ _ Hpds) by done.
  rewrite rbind_Ok. by eexists.
Qed.

Lemma built_plan_ok (stats : option (gmap positive RowsReceived))
    (in_ : Primitive) :
  (exists pd : PrimitiveDescription,
     PrimitiveToPlanDescription in_ stats = Ok pd) ->
  plan_ok in_.
Proof.
  induction in_ as [in_ IH] using Primitive_nested_ind.
  intros [pd Hpd]. rewrite PrimitiveToPlanDescription_unfold in Hpd.
  destruct (build_inputs _ _ _ _ _) as [this| |] eqn:Hb; [|done|done].
  apply build_inputs_Ok_inv in Hb as [Hcs Hinfos].
  constructor; [|done].
  apply Forall_forall. intros c Hc.
  apply (proj1 (Forall_forall _ _) IH c Hc).
  by apply (proj1 (Forall_forall _ _) Hcs c Hc).
Qed.

(** X17.  The builder returns a description exactly for the plans whose
    metadata is well formed at every node: where a node supplies
    metadata, an entry for each child, and any role in it a string. *)
Theorem PrimitiveToPlanDescription_returns_iff (in_ : Primitive)
    (stats : option (gmap positive RowsReceived)) :
  plan_ok in_ <->
  exists pd : PrimitiveDescription,
    PrimitiveToPlanDescription in_ stats = Ok pd.
Proof. split; [apply plan_ok_built|apply built_plan_ok]. Qed.

Lemma infos_ok_take (l : list (gmap string value)) (n : nat) :
  (n <= length l)%nat ->
  (forall info v, info ∈ take n l -> info !! inputName = Some v ->
     exists s, v = VString s) ->
  infos_ok (Some l) 0 n.
Proof.
  intros Hn Hrole l' Hl' j Hj. injection Hl' as <-. simpl.
  destruct (lookup_lt_is_Some_2 l j) as [info Hinfo]; [lia|].
  exists info. split; [done|]. intros v Hv. apply (Hrole info v); [|done].
  apply (list_elem_of_lookup_2 _ j). by rewrite lookup_take_lt.
Qed.

(** X18.  Metadata with fewer entries than the node has children makes the
    builder panic with an index out of range, at the first child without
    an entry. *)
Theorem PrimitiveToPlanDescription_short_metadata (in_ : Primitive)
    (stats : option (gmap positive RowsReceived))
    (l : list (gmap string value)) (pds : list PrimitiveDescription) :
  infos in_ = Some l ->
  (length l < length (children in_))%nat ->
  Forall2 (fun c pd => PrimitiveToPlanDescription c stats = Ok pd)
    (take (S (length l)) (children in_)) pds ->
  (forall info v, info ∈ l -> info !! inputName = Some v ->
     exists s, v = VString s) ->
  PrimitiveToPlanDescription in_ stats = Panic index_out_of_range.
Proof.
  intros Hinfos Hlen Hbuilt Hrole.
  rewrite PrimitiveToPlanDescription_unfold, Hinfos.
  destruct (lookup_lt_is_Some_2 (children in_) (length l)) as [c Hc];
    [done|].
  rewrite (take_S_r _ _ _ Hc) in Hbuilt.
  rewrite <- (take_drop_middle _ _ _ Hc) at 1.
  apply Forall2_app_inv_l in Hbuilt as (pds1 & pds2 & H1 & H2 & ->).
  apply Forall2_cons_inv_l in H2 as (pd & ? & Hpd & _ & ->).
  rewrite build_inputs_app.
  rewrite (build_inputs_ok _ _ _ _ H1).
  2:{ rewrite length_take. apply infos_ok_take; [lia|].
      intros info v Hin. apply Hrole.
      by apply (subseteq_take (Nat.min (length l) (length (children in_)))). }
  rewrite rbind_Ok. cbn [build_inputs]. rewrite Hpd, rbind_Ok.
  rewrite length_take.
  replace (0 + Nat.min (length l) (length (children in_)))%nat
    with (length l) by lia.
  by rewrite (lookup_ge_None_2 l (length l)) by lia.
Qed.

(** X19.  A role in the metadata of a child that is not a string makes the
    builder panic on the type assertion, in whatever order the entry is
    ranged over. *)
Theorem PrimitiveToPlanDescription_role_not_string (in_ : Primitive)
    (stats : option (gmap positive RowsReceived))
    (l : list (gmap string value)) (pds : list PrimitiveDescription)
    (idx : nat) (info : gmap string value) (v : value) :
  infos in_ = Some l ->
  (idx < length (children in_))%nat ->
  Forall2 (fun c pd => PrimitiveToPlanDescription c stats = Ok pd)
    (take (S idx) (children in_)) pds ->
  (forall info v, info ∈ take idx l -> info !! inputName = Some v ->
     exists s, v = VString s) ->
  (idx <= length l)%nat ->
  l !! idx = Some info ->
  info !! inputName = Some v ->
  (forall s, v <> VString s) ->
  PrimitiveToPlanDescription in_ stats =
    Panic "interface conversion: interface {} is not string".
Proof.
  intros Hinfos Hidx Hbuilt Hrole Hlen Hinfo Hv Hns.
  rewrite PrimitiveToPlanDescription_unfold, Hinfos.
  destruct (lookup_lt_is_Some_2 (children in_) idx) as [c Hc]; [done|].
  rewrite (take_S_r _ _ _ Hc) in Hbuilt.
  rewrite <- (take_drop_middle _ _ _ Hc) at 1.
  apply Forall2_app_inv_l in Hbuilt as (pds1 & pds2 & H1 & H2 & ->).
  apply Forall2_cons_inv_l in H2 as (pd & ? & Hpd & _ & ->).
  rewrite build_inputs_app.
  rewrite (build_inputs_ok _ _ _ _ H1).
  2:{ rewrite length_take.
      replace (Nat.min idx (length (children in_))) with idx by lia.
      by apply infos_ok_take. }
  rewrite rbind_Ok. cbn [build_inputs]. rewrite Hpd, rbind_Ok.
  rewrite length_take.
  replace (0 + Nat.min idx (length (children in_)))%nat with idx by lia.
  rewrite Hinfo.
  rewrite (merge_info_not_string (range info) pd v); [done| |done|].
  - rewrite (range_perm _ info). by apply elem_of_map_to_list.
  - rewrite (range_perm _ info). apply NoDup_fst_map_to_list.
Qed.

End BuilderFacts.

Section BuilderRangeOrder.
Context {ext : External} (mr1 mr2 : MapRange).

Lemma merge_info_instances (info : gmap string value)
    (pd : PrimitiveDescription) :
  merge_info (@range mr1 _ info) pd = merge_info (@range mr2 _ info) pd.
Proof.
  assert (Hcases :
    (forall v, info !! inputName = Some v -> exists s, v = VString s) \/
    exists v, info !! inputName = Some v /\ forall s, v <> VString s).
  { destruct (info !! inputName) as [v|]; [|by left].
    destruct v; try (right; by eexists).
    left. intros v' [= <-]. by eexists. }
  destruct Hcases as [Hrole|(v & Hv & Hns)].
  - by rewrite (@merge_info_range ext mr1), (@merge_info_range ext mr2).
  - assert (Hin : forall mr : MapRange, (inputName, v) ∈ @range mr _ info).
    { intros mr. rewrite (@range_perm mr _ info).
      by apply elem_of_map_to_list. }
    assert (Hnd : forall mr : MapRange, NoDup (@range mr _ info).*1).
    { intros mr. rewrite (@range_perm mr _ info).
      apply NoDup_fst_map_to_list. }
    by rewrite
      (merge_info_not_string _ pd v (Hin mr1) Hns (Hnd mr1)),
      (merge_info_not_string _ pd v (Hin mr2) Hns (Hnd mr2)).
Qed.

Lemma build_inputs_instances
    (b1 b2 : Primitive -> result PrimitiveDescription)
    (infos : slice (gmap string value)) (cs : list Primitive) :
  Forall (fun c => b1 c = b2 c) cs ->
  forall (idx : nat) (this : PrimitiveDescription),
    @build_inputs ext mr1 b1 infos idx cs this =
    @build_inputs ext mr2 b2 infos idx cs this.
Proof.
  induction 1 as [|c cs Hc _ IH]; intros idx this; [done|].
  cbn [build_inputs]. rewrite Hc. apply rbind_ext. intros pd.
  assert (Hm :
    match infos with
    | Some infos0 =>
        match infos0 !! idx with
        | Some info => merge_info (@range mr1 _ info) pd
        | None => Panic index_out_of_range
        end
    | None => Ok pd
    end =
    match infos with
    | Some infos0 =>
        match infos0 !! idx with
        | Some info => merge_info (@range mr2 _ info) pd
        | None => Panic index_out_of_range
        end
    | None => Ok pd
    end).
  { destruct infos as [l|]; [|done].
    destruct (l !! idx); [|done]. apply merge_info_instances. }
  rewrite Hm. apply rbind_ext. intros pd'. apply IH.
Qed.

(** X20.  The description the builder returns, or its panic, does not depend
    on the order in which Go ranges over the metadata of the children. *)
Theorem PrimitiveToPlanDescription_order_independent (in_ : Primitive)
    (stats : option (gmap positive RowsReceived)) :
  @PrimitiveToPlanDescription ext mr1 in_ stats =
  @PrimitiveToPlanDescription ext mr2 in_ stats.
Proof.
  induction in_ as [in_ IH] using Primitive_nested_ind.
  rewrite (@PrimitiveToPlanDescription_unfold ext mr1),
          (@PrimitiveToPlanDescription_unfold ext mr2).
  by rewrite (build_inputs_instances _ _ _ _ IH).
Qed.

End BuilderRangeOrder.

(** ** The graph the exporter builds *)

Section GraphFacts.
Context {ext : External} {mr : MapRange} {fm : Fmt}.

Lemma tree_size_unfold (pd : PrimitiveDescription) :
  tree_size pd =
  S (match Inputs pd with
     | Some inputs => list_sum (map tree_size inputs)
     | None => 0
     end).
Proof. by destruct pd. Qed.

Lemma only_node_refl (this : nat) (g : Graph) : only_node this g g.
Proof. by repeat split. Qed.

Lemma only_node_trans (this : nat) (g1 g2 g3 : Graph) :
  only_node this g1 g2 -> only_node this g2 g3 -> only_node this g1 g3.
Proof.
  intros (Hl1 & He1 & Hn1) (Hl2 & He2 & Hn2). repeat split; try congruence.
  intros i Hi. by rewrite Hn2, Hn1.
Qed.

Lemma AddAttribute_only_node (this : nat) (s : string) (g : Graph) :
  only_node this g (AddAttribute this s g).
Proof.
  repeat split. intros i Hi. simpl. by rewrite lookup_alter_ne.
Qed.

Lemma AddTooltip_only_node (this : nat) (tt : string) (g : Graph) :
  only_node this g (AddTooltip this tt g).
Proof.
  repeat split. intros i Hi. simpl. by rewrite lookup_alter_ne.
Qed.

Lemma AddAttributes_only_node (this : nat) (l : list string) (g : Graph) :
  only_node this g (fold_left (fun g s => AddAttribute this s g) l g).
Proof.
  revert g. induction l as [|s l IH]; intros g; simpl.
  - apply only_node_refl.
  - eapply only_node_trans; [apply AddAttribute_only_node|apply IH].
Qed.

Lemma addToGraph_entry_only_node (this : nat) (kv : string * value)
    (g : Graph) :
  only_node this g (addToGraph_entry this g kv).
Proof.
  destruct kv as [k v]. unfold addToGraph_entry.
  destruct (decide (k = "Query")); [apply AddTooltip_only_node|].
  destruct (decide (k = "FieldQuery")); [apply only_node_refl|].
  destruct v; try apply AddAttribute_only_node.
  eapply only_node_trans;
    [apply AddAttribute_only_node|apply AddAttributes_only_node].
Qed.

Lemma addToGraph_entries_only_node (this : nat) (l : list (string * value))
    (g : Graph) :
  only_node this g (fold_left (addToGraph_entry this) l g).
Proof.
  revert g. induction l as [|kv l IH]; intros g; simpl.
  - apply only_node_refl.
  - eapply only_node_trans; [apply addToGraph_entry_only_node|apply IH].
Qed.

Lemma AddEdges_edges (this : nat) (ns : list nat) (g : Graph) :
  edges (fold_left (fun g n => AddEdge this n g) ns g) =
    edges g ++ map (fun n => (this, n)) ns /\
  lastID (fold_left (fun g n => AddEdge this n g) ns g) = lastID g.
Proof.
  revert g. induction ns as [|n ns IH]; intros g; simpl.
  - by rewrite app_nil_r.
  - destruct (IH (AddEdge this n g)) as [-> ->]. simpl.
    by rewrite <- app_assoc.
Qed.

Lemma extends_refl (g : Graph) : extends g g [].
Proof.
  repeat split; try done.
  - intros i Hi. lia.
  - by rewrite app_nil_r.
Qed.

Lemma extends_trans (g1 g2 g3 : Graph) (es1 es2 : list (nat * nat)) :
  extends g1 g2 es1 -> extends g2 g3 es2 -> extends g1 g3 (es1 ++ es2).
Proof.
  intros (Hl1 & Hf1 & Hn1 & He1 & Hc1) (Hl2 & Hf2 & Hn2 & He2 & Hc2).
  split; [lia|]. split; [|split; [|split]].
  - intros i Hi. rewrite Hf2 by lia. apply Hf1. lia.
  - intros i Hi. destruct (decide (lastID g2 <= i)%nat) as [Hge|Hlt].
    + apply Hn2. lia.
    + rewrite Hf2 by lia. apply Hn1. lia.
  - by rewrite He2, He1, app_assoc.
  - apply Forall_app. split.
    + eapply Forall_impl; [exact Hc1|]. intros e He. simpl in He. lia.
    + eapply Forall_impl; [exact Hc2|]. intros e He. simpl in He. lia.
Qed.

(** The steps of [addToGraph] after the loop over the inputs: the node,
    its attributes and tooltip, and the edges to the nodes [ns]. *)
Lemma addToGraph_root_extends (name : string) (l : list (string * value))
    (ns : list nat) (g0 g : Graph) (es0 : list (nat * nat)) :
  extends g0 g es0 ->
  Forall (fun n => (lastID g0 <= n < lastID g)%nat) ns ->
  let this := lastID g in
  let g' :=
    fold_left (fun g n => AddEdge this n g) ns
      (fold_left (addToGraph_entry this) l (AddNode name g).2) in
  extends g0 g' (es0 ++ map (fun n => (this, n)) ns) /\
  lastID g' = S (lastID g) /\
  exists nd, nodes g' !! this = Some nd /\ node_id nd = this /\
             node_name nd = name.
Proof.
  intros (Hle & Hf & Hn & He & Hc) Hns this g'.
  set (gA := (AddNode name g).2).
  set (gB := fold_left (addToGraph_entry this) l gA).
  destruct (addToGraph_entries_only_node this l gA) as (HlB & HeB & HnB).
  destruct (AddEdges_edges this ns gB) as [HeC HlC].
  assert (HnC : nodes g' = nodes gB) by apply AddEdge_nodes.
  assert (Hthis : nodes gB !! this =
            Some (mkNode this name
                    ([] ++ concat (map entry_attrs l))
                    (entries_tooltip "" l))).
  { unfold gB.
    rewrite (addToGraph_entries this l gA (mkNode this name [] ""));
      [reflexivity|].
    unfold gA. simpl. apply lookup_insert_eq. }
  fold gA gB in HlB, HeB, HnB, HeC, HlC.
  assert (Hlast : lastID g' = S (lastID g)).
  { unfold g'. fold gA gB. by rewrite HlC, HlB. }
  assert (Hother : forall i, i <> this -> nodes g' !! i = nodes g !! i).
  { intros i Hi. rewrite HnC, HnB by done.
    unfold gA. simpl. apply lookup_insert_ne. unfold this in Hi. lia. }
  split; [|split; [done|]].
  - split; [lia|]. split; [|split; [|split]].
    + intros i Hi. rewrite Hother by (unfold this; lia). apply Hf. lia.
    + intros i Hi. destruct (decide (i = this)) as [->|Hne].
      * rewrite HnC, Hthis. by eexists.
      * rewrite Hother by done. apply Hn. unfold this in Hne. lia.
    + unfold g'. fold gA gB. rewrite HeC, HeB. unfold gA. simpl.
      by rewrite He, app_assoc.
    + apply Forall_app. split.
      * eapply Forall_impl; [exact Hc|]. intros e Hec.
        cbv beta in Hec |- *. lia.
      * apply Forall_forall. intros e Hin.
        apply list_elem_of_fmap in Hin as (n & -> & Hin).
        pose proof (proj1 (Forall_forall _ _) Hns n Hin) as Hb.
        cbv beta in Hb |- *. cbn [fst snd]. unfold this. lia.
  - rewrite HnC, Hthis. by eexists.
Qed.

Lemma addToGraph_inputs_extends (inputs : list PrimitiveDescription) :
  Forall (fun c => forall g, exists this g' es,
            addToGraph c g = Ok (this, g') /\
            extends g g' es /\
            lastID g' = (lastID g + tree_size c)%nat /\
            S this = lastID g' /\
            S (length es) = tree_size c) inputs ->
  forall (ns : list nat) (g : Graph),
    exists ns' g' es,
      addToGraph_inputs addToGraph inputs ns g = Ok (ns ++ ns', g') /\
      extends g g' es /\
      lastID g' = (lastID g + list_sum (map tree_size inputs))%nat /\
      (length es + length ns')%nat = list_sum (map tree_size inputs) /\
      length ns' = length inputs /\
      Forall (fun n => (lastID g <= n < lastID g')%nat) ns'.
Proof.
  induction 1 as [|c inputs Hc _ IH]; intros ns g.
  - exists [], g, []. rewrite app_nil_r. simpl.
    split; [done|]. split; [apply extends_refl|].
    split; [lia|]. split; [done|]. split; [done|constructor].
  - destruct (Hc g) as (n & g2 & es1 & Hn & Hext1 & Hl1 & Hthis & Hes1).
    destruct (IH (ns ++ [n]) g2)
      as (ns' & g' & es2 & Hrest & Hext2 & Hl2 & Hes2 & Hlen & Hns').
    exists (n :: ns'), g', (es1 ++ es2).
    cbn [addToGraph_inputs]. rewrite Hn. simpl. rewrite Hrest.
    split; [by rewrite <- app_assoc|].
    split; [by eapply extends_trans|].
    split; [lia|]. split; [rewrite length_app; simpl; lia|].
    split; [by rewrite Hlen|].
    constructor; [lia|].
    eapply Forall_impl; [exact Hns'|]. intros m Hm. cbv beta in Hm |- *.
    lia.
Qed.

Lemma addToGraph_extends (pd : PrimitiveDescription) :
  forall g, exists this g' es,
    addToGraph pd g = Ok (this, g') /\
    extends g g' es /\
    lastID g' = (lastID g + tree_size pd)%nat /\
    S this = lastID g' /\
    S (length es) = tree_size pd.
Proof.
  induction pd as [pd IH] using PrimitiveDescription_nested_ind.
  intros g. rewrite addToGraph_unfold, tree_size_unfold.
  assert (Hin : exists ns g1 es,
    match Inputs pd with
    | Some inputs => addToGraph_inputs addToGraph inputs [] g
    | None => Ok ([], g)
    end = Ok (ns, g1) /\
    extends g g1 es /\
    lastID g1 =
      (lastID g + match Inputs pd with
                  | Some inputs => list_sum (map tree_size inputs)
                  | None => 0
                  end)%nat /\
    (length es + length ns)%nat =
      match Inputs pd with
      | Some inputs => list_sum (map tree_size inputs)
      | None => 0%nat
      end /\
    Forall (fun n => (lastID g <= n < lastID g1)%nat) ns).
  { destruct (Inputs pd) as [inputs|]; simpl in IH.
    - destruct (addToGraph_inputs_extends inputs IH [] g)
        as (ns & g1 & es & H1 & H2 & H3 & H4 & _ & H5).
      by exists ns, g1, es.
    - exists [], g, []. split; [done|]. split; [apply extends_refl|].
      split; [lia|]. split; [done|constructor]. }
  destruct Hin as (ns & g1 & es & -> & Hext & Hl & Hlen & Hns).
  simpl.
  destruct (addToGraph_root_extends (node_label pd) (range (Other pd))
              ns g g1 es Hext Hns) as (Hext' & Hl' & _).
  eexists _, _, _. split; [reflexivity|].
  split; [exact Hext'|]. simpl in Hl'.
  split; [rewrite Hl'; lia|]. split; [by rewrite Hl'|].
  rewrite length_app, length_map. lia.
Qed.

Lemma extends_graph_ok (g g' : Graph) (es : list (nat * nat)) :
  graph_ok g -> extends g g' es -> graph_ok g'.
Proof.
  intros (Hdom & Hid & Hed) (Hle & Hf & Hn & He & Hc).
  split; [|split].
  - intros i. destruct (decide (lastID g <= i < lastID g')%nat) as [Hi|Hi].
    + destruct (Hn i Hi) as (nd & -> & _). split; [lia|by eexists].
    + rewrite (Hf i Hi), Hdom. lia.
  - intros i nd Hnd.
    destruct (decide (lastID g <= i < lastID g')%nat) as [Hi|Hi].
    + destruct (Hn i Hi) as (nd' & Hnd' & Hid'). congruence.
    + rewrite (Hf i Hi) in Hnd. by apply Hid.
  - intros a b Hab. rewrite He in Hab.
    apply elem_of_app in Hab as [Hab|Hab].
    + destruct (Hed a b Hab). lia.
    + pose proof (proj1 (Forall_forall _ _) Hc (a, b) Hab) as Hb.
      simpl in Hb. lia.
Qed.

(** X21.  The export of a description returns, having added one node for each
    description of the tree, under the next ids, the node of the root
    last, and one edge less than nodes; a new edge goes from a node to a
    node added before it.  The nodes that were in the graph are as they
    were, and the new edges come after the ones that were there. *)
Theorem addToGraph_tree (pd : PrimitiveDescription) (g : Graph) :
  exists (this : nat) (g' : Graph) (es : list (nat * nat)),
    addToGraph pd g = Ok (this, g') /\
    lastID g' = (lastID g + tree_size pd)%nat /\
    S this = lastID g' /\
    (forall i : nat, (i < lastID g)%nat -> nodes g' !! i = nodes g !! i) /\
    edges g' = edges g ++ es /\
    S (length es) = tree_size pd /\
    Forall (fun e : nat * nat =>
              (lastID g <= e.2)%nat /\ (e.2 < e.1)%nat /\
              (e.1 < lastID g')%nat) es.
Proof.
  destruct (addToGraph_extends pd g)
    as (this & g' & es & Hr & (Hle & Hf & Hn & He & Hc) & Hl & Hthis & Hes).
  exists this, g', es. repeat split; try done.
  intros i Hi. apply Hf. lia.
Qed.

(** X22.  On a graph whose nodes are those with the ids handed out, each under
    its own id, and whose edges join nodes of the graph, the export
    returns such a graph again, with the returned node in it. *)
Theorem addToGraph_graph_ok (pd : PrimitiveDescription) (g : Graph) :
  graph_ok g ->
  exists (this : nat) (g' : Graph) (nd : Node),
    addToGraph pd g = Ok (this, g') /\
    graph_ok g' /\
    nodes g' !! this = Some nd /\
    node_id nd = this.
Proof.
  intros Hok.
  destruct (addToGraph_extends pd g)
    as (this & g' & es & Hr & Hext & Hl & Hthis & Hes).
  destruct Hext as (Hle & Hf & Hn & He & Hc).
  destruct (Hn this) as (nd & Hnd & Hid).
  { pose proof (tree_size_unfold pd). lia. }
  exists this, g', nd. split; [done|]. split; [|done].
  apply (extends_graph_ok g g' es Hok). by repeat split.
Qed.

Lemma graphviz_New_ok : graph_ok graphviz_New.
Proof.
  split; [|split].
  - intros i. simpl. rewrite lookup_empty. split; [by intros [? ?]|lia].
  - intros i nd. simpl. by rewrite lookup_empty.
  - intros a b Hab. simpl in Hab. by apply elem_of_nil in Hab.
Qed.

End GraphFacts.

(** ** [GraphViz] *)

Section GraphVizFacts.
Context {ext : External} {mr : MapRange} {fm : Fmt}.

Lemma merge_info_no_error (l : list (string * value))
    (pd : PrimitiveDescription) (e : string) :
  merge_info l pd <> Err e.
Proof.
  revert pd. induction l as [|[k v] l IH]; intros pd; [done|].
  cbn [merge_info merge_entry].
  destruct (decide (k = inputName)); [|apply IH].
  destruct v; try done. apply IH.
Qed.

Lemma build_inputs_no_error
    (build : Primitive -> result PrimitiveDescription)
    (infos : slice (gmap string value)) (cs : list Primitive) (e : string) :
  Forall (fun c => build c <> Err e) cs ->
  forall (idx : nat) (this : PrimitiveDescription),
    build_inputs build infos idx cs this <> Err e.
Proof.
  induction 1 as [|c cs Hc _ IH]; intros idx this; [done|].
  cbn [build_inputs].
  destruct (build c) as [pd| |]; simpl; [|done|done].
  destruct infos as [l|]; [|apply IH].
  destruct (l !! idx) as [info|]; [|done].
  pose proof (merge_info_no_error (range info) pd e) as Hm.
  destruct (merge_info (range info) pd); simpl; [apply IH|done|done].
Qed.

Lemma PrimitiveToPlanDescription_no_error (in_ : Primitive)
    (stats : option (gmap positive RowsReceived)) (e : string) :
  PrimitiveToPlanDescription in_ stats <> Err e.
Proof.
  induction in_ as [in_ IH] using Primitive_nested_ind.
  rewrite PrimitiveToPlanDescription_unfold.
  pose proof (build_inputs_no_error _ (infos in_) _ e IH 0%nat
                (match stats with
                 | Some st =>
                     set_Stats (default [] (st !! identity in_))
                       (description in_)
                 | None => description in_
                 end)) as Hb.
  by destruct (build_inputs _ _ _ _ _).
Qed.



(** X24.  [GraphViz] never returns an error: it returns a graph, or panics, and
    it panics exactly on the plans whose metadata is not well formed. *)
Theorem GraphViz_no_error (p : Primitive) :
  (forall e : string, GraphViz p <> Err e) /\
  ((exists msg : string, GraphViz p = Panic msg) <-> ~ plan_ok p).
Proof.
  unfold GraphViz.
  pose proof (PrimitiveToPlanDescription_no_error p None) as Hne.
  destruct (PrimitiveToPlanDescription p None) as [pd|e|msg] eqn:Hpd.
  - destruct (addToGraph_extends pd graphviz_New)
      as (this & g & es & Hr & _).
    simpl. rewrite Hr. simpl. split; [done|]. split.
    + by intros [msg Hmsg].
    + intros Hnot. destruct Hnot.
      apply (built_plan_ok None). by exists pd.
  - by destruct (Hne e).
  - simpl. split; [done|]. split.
    + intros _ Hok. destruct (plan_ok_built None p Hok) as [pd Hpd'].
      congruence.
    + intros _. by exists msg.
Qed.

End GraphVizFacts.

(** * The further properties on the examples *)

Lemma MarshalJSON_object_witness :
  Forall2 (fun f b => Encode f.2 = Ok b) (MarshalJSON_fields table_route)
    [quote "Route" +:+ newline; quote "t" +:+ newline] /\
  MarshalJSON table_route =
    Ok ("{" +:+
        String.concat ","
          (zip_with (fun f b => written f.1 b)
             (MarshalJSON_fields table_route)
             [quote "Route" +:+ newline; quote "t" +:+ newline])
        +:+ "}").
Proof.
  assert (H : Forall2 (fun f b => Encode f.2 = Ok b)
                (MarshalJSON_fields table_route)
                [quote "Route" +:+ newline; quote "t" +:+ newline]).
  { let fs := eval vm_compute in (MarshalJSON_fields table_route) in
    change (MarshalJSON_fields table_route) with fs.
    repeat constructor. }
  split; [exact H|].
  exact (MarshalJSON_object table_route _ H).
Defined.

Lemma MarshalJSON_first_failure_witness :
  MarshalJSON_fields channel_route =
    [("OperatorType", OString "Route")] ++
    ("ch", OAny (VOther "chan int" "0xc000")) :: [] /\
  Forall (fun f => exists b, Encode f.2 = Ok b)
    [("OperatorType", OString "Route")] /\
  Encode (OAny (VOther "chan int" "0xc000")) = Err "json: unsupported type" /\
  MarshalJSON channel_route = Err "json: unsupported type".
Proof.
  assert (Hfs : MarshalJSON_fields channel_route =
                [("OperatorType", OString "Route")] ++
                ("ch", OAny (VOther "chan int" "0xc000")) :: [])
    by (vm_compute; reflexivity).
  assert (Hok : Forall (fun f => exists b, Encode f.2 = Ok b)
                  [("OperatorType", OString "Route")])
    by (repeat constructor; by eexists).
  assert (He : Encode (OAny (VOther "chan int" "0xc000"))
               = Err "json: unsupported type") by reflexivity.
  split; [exact Hfs|]. split; [exact Hok|]. split; [exact He|].
  exact (proj1 (MarshalJSON_first_failure channel_route _ _ _ _ Hfs Hok)
           _ He).
Defined.

Lemma PrimitiveToPlanDescription_inputs_order_witness :
  children plan <> [] /\
  Forall2 (fun c pd => PrimitiveToPlanDescription c None = Ok pd)
    (children plan) [built_route; built_route] /\
  infos_ok (infos plan) 0 (length (children plan)) /\
  exists this : PrimitiveDescription,
    PrimitiveToPlanDescription plan None = Ok this /\
    Inputs this =
      Some (elems (Inputs (description plan)) ++
            imap (augmented (infos plan)) [built_route; built_route]) /\
    len (Inputs this) =
      (len (Inputs (description plan)) + length (children plan))%nat /\
    (infos plan = None ->
     Inputs this =
       Some (elems (Inputs (description plan)) ++
             [built_route; built_route])).
Proof.
  assert (Hne : children plan <> []) by done.
  assert (Hbuilt :
    Forall2 (fun c pd => PrimitiveToPlanDescription c None = Ok pd)
      (children plan) [built_route; built_route])
    by (repeat constructor).
  assert (Hok : infos_ok (infos plan) 0 (length (children plan))).
  { apply (infos_ok_take [left_info; ∅] 2); [simpl; lia|].
    intros info v Hin Hv. simpl in Hin.
    apply elem_of_cons in Hin as [->|Hin].
    - unfold left_info, inputName in Hv. rewrite lookup_insert_eq in Hv.
      injection Hv as <-. by eexists.
    - apply list_elem_of_singleton in Hin. subst info.
      by rewrite lookup_empty in Hv. }
  split; [exact Hne|]. split; [exact Hbuilt|]. split; [exact Hok|].
  exact (PrimitiveToPlanDescription_inputs_order plan None
           [built_route; built_route] Hne Hbuilt Hok).
Defined.

Lemma PrimitiveToPlanDescription_stats_witness :
  Forall2 (fun c pd => PrimitiveToPlanDescription c (Some samples) = Ok pd)
    (children route_plan) [] /\
  infos_ok (infos route_plan) 0 (length (children route_plan)) /\
  exists this : PrimitiveDescription,
    PrimitiveToPlanDescription route_plan (Some samples) = Ok this /\
    Stats this = [1; 2].
Proof.
  assert (Hbuilt :
    Forall2 (fun c pd => PrimitiveToPlanDescription c (Some samples) = Ok pd)
      (children route_plan) []) by constructor.
  assert (Hok : infos_ok (infos route_plan) 0 (length (children route_plan)))
    by (intros l Hl; discriminate).
  split; [exact Hbuilt|]. split; [exact Hok|].
  destruct (PrimitiveToPlanDescription_stats route_plan (Some samples) []
              Hbuilt Hok) as (this & Hthis & Hstats & _).
  exists this. split; [exact Hthis|].
  rewrite Hstats. unfold samples. simpl. by rewrite lookup_insert_eq.
Defined.

Lemma PrimitiveToPlanDescription_short_metadata_witness :
  infos short_plan = Some [∅] /\
  (length [(∅ : gmap string value)] < length (children short_plan))%nat /\
  Forall2 (fun c pd => PrimitiveToPlanDescription c None = Ok pd)
    (take 2 (children short_plan)) [built_route; built_route] /\
  PrimitiveToPlanDescription short_plan None = Panic index_out_of_range.
Proof.
  assert (Hinfos : infos short_plan = Some [∅]) by reflexivity.
  assert (Hlen : (length [(∅ : gmap string value)]
                  < length (children short_plan))%nat) by (simpl; lia).
  assert (Hbuilt :
    Forall2 (fun c pd => PrimitiveToPlanDescription c None = Ok pd)
      (take (S (length [(∅ : gmap string value)])) (children short_plan))
      [built_route; built_route])
    by (repeat constructor).
  assert (Hrole : forall (info : gmap string value) v,
            info ∈ [(∅ : gmap string value)] ->
            info !! inputName = Some v -> exists s, v = VString s).
  { intros info v Hin Hv. apply list_elem_of_singleton in Hin. subst info.
    by rewrite lookup_empty in Hv. }
  split; [exact Hinfos|]. split; [exact Hlen|]. split; [exact Hbuilt|].
  exact (PrimitiveToPlanDescription_short_metadata short_plan None [∅]
           [built_route; built_route] Hinfos Hlen Hbuilt Hrole).
Defined.

Lemma PrimitiveToPlanDescription_role_not_string_witness :
  infos numbered_plan = Some [<["InputName" := VInt 7]> ∅] /\
  (<["InputName" := VInt 7]> ∅ : gmap string value) !! inputName
    = Some (VInt 7) /\
  (forall s, VInt 7 <> VString s) /\
  PrimitiveToPlanDescription numbered_plan None =
    Panic "interface conversion: interface {} is not string".
Proof.
  assert (Hinfos : infos numbered_plan = Some [<["InputName" := VInt 7]> ∅])
    by reflexivity.
  assert (Hidx : (0 < length (children numbered_plan))%nat)
    by (simpl; lia).
  assert (Hbuilt :
    Forall2 (fun c pd => PrimitiveToPlanDescription c None = Ok pd)
      (take 1 (children numbered_plan)) [built_route])
    by (repeat constructor).
  assert (Hrole : forall (info : gmap string value) v,
            info ∈ take 0 [(<["InputName" := VInt 7]> ∅
                            : gmap string value)] ->
            info !! inputName = Some v -> exists s, v = VString s).
  { intros info v Hin. simpl in Hin. by apply elem_of_nil in Hin. }
  assert (Hlen : (0 <= length [(<["InputName" := VInt 7]> ∅
                                : gmap string value)])%nat)
    by (simpl; lia).
  assert (Hinfo : [(<["InputName" := VInt 7]> ∅ : gmap string value)]
                    !! 0%nat = Some (<["InputName" := VInt 7]> ∅))
    by reflexivity.
  assert (Hv : (<["InputName" := VInt 7]> ∅ : gmap string value)
                 !! inputName = Some (VInt 7))
    by (unfold inputName; apply lookup_insert_eq).
  assert (Hns : forall s, VInt 7 <> VString s) by done.
  split; [exact Hinfos|]. split; [exact Hv|]. split; [exact Hns|].
  exact (PrimitiveToPlanDescription_role_not_string numbered_plan None _
           [built_route] 0 _ (VInt 7)
           Hinfos Hidx Hbuilt Hrole Hlen Hinfo Hv Hns).
Defined.

Lemma addToGraph_graph_ok_witness :
  graph_ok graphviz_New /\
  exists (this : nat) (g' : Graph) (nd : Node),
    addToGraph join graphviz_New = Ok (this, g') /\
    graph_ok g' /\
    nodes g' !! this = Some nd /\
    node_id nd = this.
Proof.
  split; [exact graphviz_New_ok|].
  exact (addToGraph_graph_ok join graphviz_New graphviz_New_ok).
Defined.



Lemma MarshalJSON_child_panic_witness :
  Inputs short_join = Some ([table_route] ++ short_destination :: []) /\
  MarshalJSON short_destination = Panic "slice bounds out of range" /\
  MarshalJSON short_join = Panic "slice bounds out of range".
Proof.
  assert (Hin : Inputs short_join
                = Some ([table_route] ++ short_destination :: []))
    by reflexivity.
  assert (Hfields :
    Forall (fun f => exists b, Encode f.2 = Ok b)
      (fields_before_TargetDestination short_join ++
       field_TargetDestination short_join ++
       field_TargetTabletType short_join ++ fields_Stats short_join ++
       fields_Other short_join)).
  { let fs := eval vm_compute in
        (fields_before_TargetDestination short_join ++
         field_TargetDestination short_join ++
         field_TargetTabletType short_join ++ fields_Stats short_join ++
         fields_Other short_join) in
    change (Forall (fun f => exists b, Encode f.2 = Ok b) fs).
    repeat constructor. by eexists. }
  assert (Hl1 :
    Forall (fun x => exists b b', MarshalJSON x = Ok b /\ compact b = Ok b')
      [table_route]).
  { repeat constructor. eexists _, _. split; vm_compute; reflexivity. }
  assert (Hc : MarshalJSON short_destination
               = Panic "slice bounds out of range")
    by (vm_compute; reflexivity).
  split; [exact Hin|]. split; [exact Hc|].
  exact (MarshalJSON_child_panic short_join short_destination
           [table_route] [] _ Hin Hfields Hl1 Hc).
Defined.
